(** * Stand-off annotation of HTML documents: a model of [deferred_document.py]

    The script walks an lxml tree, rebuilds the plain text a browser would
    show and emits, for every whitespace-delimited word, a stand-off
    annotation [path:start-end] that points back into the tree.  Words that
    touch across a tag boundary are marked with a leading [+] and merged by
    a final glue pass.

    The development follows the script function by function:
    [re_split], [isspace], [inline_tags], [getWordStandoff],
    [getDocumentStandoff], [main] and [remove_control_characters], which
    prepares the bytes of a page for the parser.  Python's [str] is modelled by
    [string] (one [ascii] per character), Python's [int] by [Z], the
    dictionary [positionsdict] by a [gmap] keyed by the position of a node
    in the tree, the module-level name [spaceEndPreviousTag] by an
    [option bool] that is [None] as long as the name is unbound, and
    exceptions by a sum type.  The recursion limit of the interpreter is
    not modelled: trees are taken to be shallower than it allows, and no
    statement here says that a run returns in the script because it
    returns in the model.  [html5lib.parse] and [base64] are libraries
    outside the script: [main] is modelled from the parsed trees on, and
    [head_first] states the shape of those trees.

    The model comes first, then the notions the properties are stated
    with, then the lemmas, then the theorems, one for each claim about
    the script, and at the end further properties of the script. *)

From Stdlib Require Import ZArith Lia Ascii String.
From stdpp Require Import base option list gmap strings pretty.

Local Open Scope Z_scope.

(** ** Strings *)

Module Str.

(** [len s] is Python's [len(s)] as an [int]. *)
Definition len (s : string) : Z := Z.of_nat (String.length s).

(** Python's notion of a whitespace character, restricted to the
    characters below 256: TAB, LF, VT, FF, CR, the separators FS, GS, RS
    and US, SPACE, NEL and the no-break space.  [str.isspace] and the
    regular expression class [\s] agree on it. *)
Definition is_space (c : ascii) : bool :=
  let n := N_of_ascii c in
  ((9 <=? n) && (n <=? 13) || (28 <=? n) && (n <=? 32)
   || (n =? 133) || (n =? 160))%N.

Fixpoint all_space (s : string) : bool :=
  match s with
  | EmptyString => true
  | String c s' => is_space c && all_space s'
  end.

Fixpoint no_space (s : string) : bool :=
  match s with
  | EmptyString => true
  | String c s' => negb (is_space c) && no_space s'
  end.

(** [word.isspace()]: true when there is at least one character and all
    characters are whitespace. *)
Definition isspace (s : string) : bool :=
  match s with
  | EmptyString => false
  | String _ _ => all_space s
  end.

Definition is_empty (s : string) : bool :=
  match s with EmptyString => true | String _ _ => false end.

(** The last character decides whether a text ends in whitespace. *)
Fixpoint ends_space (s : string) : bool :=
  match s with
  | EmptyString => false
  | String c EmptyString => is_space c
  | String _ s' => ends_space s'
  end.

Definition starts_space (s : string) : bool :=
  match s with
  | EmptyString => false
  | String c _ => is_space c
  end.

Definition snoc (s : string) (c : ascii) : string := s +:+ String c "".

(** [re.split(r'(\s+)', s)]: the pieces between whitespace runs and the
    runs themselves, alternating, starting and ending with a piece that
    is not a run (so the first and the last piece may be empty).
    [cur] is the piece being read and [ws] tells whether it is a run. *)
Fixpoint split_go (s : string) (cur : string) (ws : bool) : list string :=
  match s with
  | EmptyString => if ws then [cur; ""] else [cur]
  | String c s' =>
      if is_space c
      then if ws then split_go s' (snoc cur c) true
           else cur :: split_go s' (String c "") true
      else if ws then cur :: split_go s' (String c "") false
           else split_go s' (snoc cur c) false
  end.

Definition re_split (s : string) : list string := split_go s "" false.

Fixpoint concat (l : list string) : string :=
  match l with
  | [] => ""
  | s :: l' => s +:+ concat l'
  end.

(** [sep.join(l)]. *)
Fixpoint join (sep : string) (l : list string) : string :=
  match l with
  | [] => ""
  | [s] => s
  | s :: l' => s +:+ sep +:+ join sep l'
  end.

(** The slice [s[start : stop+1]] for [0 <= start]. *)
Definition slice (s : string) (start stop : Z) : string :=
  String.substring (Z.to_nat start) (Z.to_nat (stop - start + 1)) s.



End Str.

(** ** The tree *)

(** lxml hands out four kinds of nodes when a tree is iterated; only the
    first has the exact type [etree._Element]. *)
Inductive node_kind : Set :=
  | Element | Comment | ProcessingInstruction | Entity.

Global Instance node_kind_eq_dec : EqDecision node_kind.
Proof. solve_decision. Defined.

(** A node with its tag, the text before its first child ([text]), the
    text after its end tag ([tail]; both may be [None]) and its children. *)
#[local] Unset Elimination Schemes.
Inductive node : Type :=
  | Node (kind : node_kind) (tag : string) (text tail : option string)
         (children : list node).
#[local] Set Elimination Schemes.

Definition kind (n : node) : node_kind := let 'Node k _ _ _ _ := n in k.
Definition tag (n : node) : string := let 'Node _ t _ _ _ := n in t.
Definition text (n : node) : option string := let 'Node _ _ t _ _ := n in t.
Definition tail (n : node) : option string := let 'Node _ _ _ t _ := n in t.
Definition children (n : node) : list node := let 'Node _ _ _ _ c := n in c.

(** A node is identified by its position: the child indices on the way
    from the root.  The root is [[]]; [element.getparent()] drops the last
    index. *)
Abbreviation node_id := (list nat).

Fixpoint lookup_node (n : node) (id : node_id) : option node :=
  match id with
  | [] => Some n
  | i :: id' =>
      match children n !! i with
      | Some c => lookup_node c id'
      | None => None
      end
  end.

Definition inline_tags : list string :=
  ["a"; "abbr"; "acronym"; "b"; "bdo"; "big"; "br"; "button"; "cite"; "code";
   "dfn"; "em"; "i"; "img"; "input"; "kbd"; "label"; "map"; "object"; "q";
   "samp"; "script"; "select"; "small"; "span"; "strong"; "sub"; "sup";
   "textarea"; "time"; "tt"; "var"].

Definition is_inline (t : string) : bool := bool_decide (t ∈ inline_tags).

(** The test that guards both child loops:
    [type(child) is etree._Element and child.tag != "script"
     and child.tag != "style"]. *)
Definition rendered (n : node) : bool :=
  bool_decide (kind n = Element)
  && negb (bool_decide (tag n = "script"))
  && negb (bool_decide (tag n = "style")).

(** ** Element paths *)

Definition same_tag (t : string) (n : node) : bool :=
  bool_decide (kind n = Element) && bool_decide (tag n = t).

(** Modelled from the spec: [document.getelementpath] is lxml's, not the
    script's.  One step is the tag name, followed by the 1-based position
    among the siblings of the same tag when there is more than one of
    them ([div[1]], [div[2]], but plain [p]). *)
Definition path_step (siblings : list node) (i : nat) (n : node) : string :=
  let before := length (filter (λ m, same_tag (tag n) m = true) (take i siblings)) in
  let after := existsb (same_tag (tag n)) (drop (S i) siblings) in
  if decide (before = 0%nat)
  then if after then tag n +:+ "[1]" else tag n
  else tag n +:+ "[" +:+ pretty (S before) +:+ "]".

Fixpoint path_steps (n : node) (id : node_id) : list string :=
  match id with
  | [] => []
  | i :: id' =>
      match children n !! i with
      | Some c => path_step (children n) i c :: path_steps c id'
      | None => []
      end
  end.

(** Modelled from the spec: the steps from the root joined by [/]; the
    root itself is [.].  The walk only asks for nodes of the tree. *)
Definition getelementpath (document : node) (id : node_id) : string :=
  match path_steps document id with
  | [] => "."
  | steps => Str.join "/" steps
  end.

(** ** Exceptions and state *)

Inductive exn : Set :=
  | NameError   (* a read of the unbound global [spaceEndPreviousTag] *)
  | KeyError    (* [positionsdict[k]] for a missing key *)
  | IndexError. (* [annotation[0]] on an empty string *)

Inductive result (A : Type) : Type :=
  | Ok (a : A)
  | Raise (e : exn).
Arguments Ok {A} a.
Arguments Raise {A} e.

Definition bind {A B} (r : result A) (k : A → result B) : result B :=
  match r with
  | Ok a => k a
  | Raise e => Raise e
  end.

Notation "'let*' p ':=' r 'in' k" := (bind r (λ p, k))
  (at level 10, p pattern, r at level 100, k at level 200).

(** What the walk reads and writes: the module-level flag (unbound until
    its first assignment) and the dictionary of consumed positions. *)
Record state : Type := State {
  spaceEndPreviousTag : option bool;
  positionsdict : gmap node_id Z
}.

(** ** Annotations *)

(** One appended annotation, with the parts of the string the script
    builds kept apart: the glue mark [plusprevious], the node whose text
    the offsets count in, its path, and the two offsets. *)
Record annotation : Type := Annotation {
  plusprevious : bool;
  charged : node_id;
  path : string;
  start : Z;
  stop : Z
}.

(** [plusprevious + path + ':' + str(start) + "-" + str(stop)] *)
Definition render (a : annotation) : string :=
  (if plusprevious a then "+" else "") +:+ path a +:+ ":"
  +:+ pretty (start a) +:+ "-" +:+ pretty (stop a).

(** ** The word loop

    The body of [for word in re.split(r'(\s+)', ...)], which the script
    has twice: for the text of an element, counted in the element, and for
    its tail, counted in its parent. *)
Record cursor : Type := Cursor {
  wordposition : Z;
  firstword : bool;
  flag : option bool;
  standoff : list annotation
}.

Fixpoint word_loop (p : string) (nid : node_id) (words : list string)
    (c : cursor) : result cursor :=
  match words with
  | [] => Ok c
  | word :: rest =>
      if Str.isspace word then
        word_loop p nid rest
          (Cursor (wordposition c + Str.len word) false (Some true) (standoff c))
      else if Str.is_empty word then word_loop p nid rest c
      else
        let* plus := (if firstword c
                  then match flag c with
                       | Some b => Ok (negb b)
                       | None => Raise NameError
                       end
                  else Ok false) in
        word_loop p nid rest
          (Cursor (wordposition c + Str.len word) false (Some false)
             (standoff c ++
                [Annotation plus nid p (wordposition c)
                   (wordposition c + Str.len word - 1)]))
  end.

(** ** getWordStandoff *)

Section Walk.

Variable document : node.

(** The loop [for child in element], with the recursive call abstracted
    as [visit]; [j] is the index of the first child of [cs]. *)
Definition for_children
    (visit : node → nat → state → result (list annotation * string * state)) :=
  fix loop (cs : list node) (j : nat) (acc : list annotation * string)
      (st : state) {struct cs} : result (list annotation * string * state) :=
    match cs with
    | [] => Ok (acc, st)
    | child :: cs' =>
        if rendered child then
          let* (childstandoff, childtext, st') := visit child j st in
          loop cs' (S j) (acc.1 ++ childstandoff, acc.2 +:+ childtext) st'
        else loop cs' (S j) acc st
    end.

(** The first part of the body: the text of the element itself. *)
Definition text_part (element : node) (eid : node_id) (fl : option bool)
    : result (string * cursor) :=
  match text element with
  | Some t =>
      let '(txt, fl) :=
        if is_inline (tag element) then ("", fl) else (" ", Some true) in
      let* c := word_loop (getelementpath document eid) eid (Str.re_split t)
              (Cursor 0 true fl []) in
      Ok (txt +:+ t, c)
  | None => Ok ("", Cursor 0 true fl [])
  end.

(** The space after the content of a block element or of [br]. *)
Definition end_part (element : node) (txt : string) (fl : option bool)
    : string * option bool :=
  if negb (is_inline (tag element)) then (txt +:+ " ", Some true)
  else if bool_decide (tag element = "br") then (txt +:+ " ", Some true)
  else (txt, fl).

(** The last part: the tail, counted in the parent [pid] from
    [wordpositionparent] on. *)
Definition tail_part (element : node) (pid : node_id)
    (wordpositionparent : Z) (acc : list annotation * string) (st : state)
    : result (list annotation * string * state) :=
  match tail element with
  | Some t =>
      let* c := word_loop (getelementpath document pid) pid (Str.re_split t)
              (Cursor wordpositionparent true (spaceEndPreviousTag st) acc.1) in
      Ok (standoff c, acc.2 +:+ t,
          State (flag c) (<[pid := wordposition c]> (positionsdict st)))
  | None => Ok (acc, st)
  end.

(** [getWordStandoff(element, document, positionsdict)] for the element
    at index [i] below the node [pid]. *)
Fixpoint getWordStandoff (element : node) (pid : node_id) (i : nat)
    (st : state) {struct element}
    : result (list annotation * string * state) :=
  let eid := pid ++ [i] in
  let* wordpositionparent :=
      match positionsdict st !! pid with
      | Some v => Ok v
      | None => Raise KeyError
      end in
  let* (txt, c) := text_part element eid (spaceEndPreviousTag st) in
  let st1 := State (flag c) (<[eid := wordposition c]> (positionsdict st)) in
  let* (acc, st2) :=
      for_children (λ child j, getWordStandoff child eid j)
        (match element with Node _ _ _ _ cs => cs end) 0%nat
        (standoff c, txt) st1 in
  let '(txt', fl) := end_part element acc.2 (spaceEndPreviousTag st2) in
  tail_part element pid wordpositionparent (acc.1, txt')
    (State fl (positionsdict st2)).

Definition children_loop (eid : node_id) :=
  for_children (λ child j, getWordStandoff child eid j).

End Walk.

(** ** The glue pass *)

(** [annotation[0] == '+'] *)
Definition glue_mark (annotation : string) : result bool :=
  match annotation with
  | EmptyString => Raise IndexError
  | String c _ => Ok (bool_decide (c = "+"%char))
  end.

(** The loop over [docstandoff]: [gluedStandoff] grows at its end and
    [buffered_standoff] is [None] before the first annotation. *)
Fixpoint glue_loop (docstandoff : list string) (gluedStandoff : list string)
    (buffered_standoff : option string) : result (list string * option string) :=
  match docstandoff with
  | [] => Ok (gluedStandoff, buffered_standoff)
  | annotation :: rest =>
      match buffered_standoff with
      | None => glue_loop rest gluedStandoff (Some annotation)
      | Some b =>
          let* plus := glue_mark annotation in
          if plus then glue_loop rest gluedStandoff (Some (b +:+ annotation))
          else glue_loop rest (gluedStandoff ++ [b]) (Some annotation)
      end
  end.

Definition glue (docstandoff : list string) : result (list string) :=
  let* (gluedStandoff, buffered_standoff) := glue_loop docstandoff [] None in
  match buffered_standoff with
  | Some b => Ok (gluedStandoff ++ [b])
  | None => Ok gluedStandoff
  end.

(** ** getDocumentStandoff *)

(** The loop over the children of the root.  The text of a child is kept
    only when the child gave at least one annotation. *)
Fixpoint document_loop (document : node) (elements : list node) (j : nat)
    (acc : list annotation * string) (st : state)
    : result (list annotation * string * state) :=
  match elements with
  | [] => Ok (acc, st)
  | element :: rest =>
      if rendered element then
        let* (wordstandoff, plaintext, st') :=
          getWordStandoff document element [] j st in
        match wordstandoff with
        | [] => document_loop document rest (S j) acc st'
        | _ :: _ =>
            document_loop document rest (S j)
              (acc.1 ++ wordstandoff, acc.2 +:+ plaintext) st'
        end
      else document_loop document rest (S j) acc st
  end.

(** The annotations and the text before the glue pass, and the value the
    global is left with.  [positions] starts as [{root: 0}] and is dropped
    at the end; the global [fl] comes from the caller and goes back. *)
Definition document_raw (document : node) (fl : option bool)
    : result (list annotation * string * option bool) :=
  let positions : gmap node_id Z := {[ [] := 0 ]} in
  let* (acc, st) :=
    document_loop document (children document) 0%nat ([], "") (State fl positions) in
  Ok (acc, spaceEndPreviousTag st).

Definition getDocumentStandoff (document : node) (fl : option bool)
    : result (list string * string * option bool) :=
  let* (docstandoff, docplaintext, fl') := document_raw document fl in
  let* gluedStandoff := glue (render <$> docstandoff) in
  Ok (gluedStandoff, docplaintext, fl').

(** ** main *)

(** The loop over the records, from the trees on: line 179 decodes a
    record, passes it through [remove_control_characters] and parses it,
    and the loop here takes the trees that come out of that line.  The
    parser is a library and not part of the script; the shape of its
    trees is [head_first] below.  An exception ends the program: the
    records before it have been printed, the failing one and those after
    it have not.  The exceptions of line 179 itself are outside this
    loop, so a statement about it speaks of the outputs that are
    produced. *)
Fixpoint main_loop (documents : list node) (fl : option bool)
    : list (list string * string) * option exn :=
  match documents with
  | [] => ([], None)
  | document :: rest =>
      match getDocumentStandoff document fl with
      | Ok (standoff, documenttext, fl') =>
          let '(out, e) := main_loop rest fl' in
          ((standoff, documenttext) :: out, e)
      | Raise e => ([], Some e)
      end
  end.

(** [main] assigns [spaceEndPreviousTag=True] to a local of its own: the
    global that [getWordStandoff] declares is still unbound when the first
    record is read. *)
Definition main (documents : list node) : list (list string * string) * option exn :=
  main_loop documents None.

(** ** Examples *)

Definition elem (t : string) (tx : option string) (cs : list node)
    (tl : option string) : node := Node Element t tx tl cs.

Definition root_of (cs : list node) : node := Node Element "html" None None cs.

(** [<p>Hello<b>world</b></p>] *)
Definition example_A : node :=
  root_of [elem "p" (Some "Hello") [elem "b" (Some "world") [] None] None].

(** [<div>A</div><div>B</div>] *)
Definition example_B : node :=
  root_of [elem "div" (Some "A") [] None; elem "div" (Some "B") [] None].

(** [<p>one  two</p>] *)
Definition example_C : node :=
  root_of [elem "p" (Some "one  two") [] None].

(** * remove_control_characters *)

(** The function takes the bytes of a page and gives the text handed to
    the parser.  Code points are numbers in [N]; after the encoding to
    ASCII the text is a [string]. *)

Inductive text_exn := UnicodeDecodeError | ValueError.

Inductive outcome (A : Type) :=
  | Done (a : A)
  | Fail (e : text_exn).
Arguments Done {A} a.
Arguments Fail {A} e.

(** ** [html.decode('utf8')] *)

Definition between (lo hi b : N) : bool := ((lo <=? b) && (b <=? hi))%N.

(** A continuation byte. *)
Definition continuation (b : N) : bool := between 0x80 0xBF b.

(** The second byte of a sequence of three or four bytes: overlong
    forms, surrogates and code points above [0x10FFFF] are errors. *)
Definition second (b0 b1 : N) : bool :=
  if (b0 =? 0xE0)%N then between 0xA0 0xBF b1
  else if (b0 =? 0xED)%N then between 0x80 0x9F b1
  else if (b0 =? 0xF0)%N then between 0x90 0xBF b1
  else if (b0 =? 0xF4)%N then between 0x80 0x8F b1
  else continuation b1.

(** The strict decoder: [None] is [UnicodeDecodeError]. *)
Fixpoint utf8_decode (bs : list Byte.byte) : option (list N) :=
  match bs with
  | [] => Some []
  | x0 :: r0 =>
      let b0 := Byte.to_N x0 in
      if (b0 <? 0x80)%N then cons b0 <$> utf8_decode r0
      else if between 0xC2 0xDF b0 then
        match r0 with
        | x1 :: r1 =>
            let b1 := Byte.to_N x1 in
            if continuation b1
            then cons ((b0 - 0xC0) * 64 + (b1 - 0x80))%N <$> utf8_decode r1
            else None
        | _ => None
        end
      else if between 0xE0 0xEF b0 then
        match r0 with
        | x1 :: x2 :: r2 =>
            let b1 := Byte.to_N x1 in
            let b2 := Byte.to_N x2 in
            if second b0 b1 && continuation b2
            then cons ((b0 - 0xE0) * 4096 + (b1 - 0x80) * 64 + (b2 - 0x80))%N
                   <$> utf8_decode r2
            else None
        | _ => None
        end
      else if between 0xF0 0xF4 b0 then
        match r0 with
        | x1 :: x2 :: x3 :: r3 =>
            let b1 := Byte.to_N x1 in
            let b2 := Byte.to_N x2 in
            let b3 := Byte.to_N x3 in
            if second b0 b1 && continuation b2 && continuation b3
            then cons ((b0 - 0xF0) * 262144 + (b1 - 0x80) * 4096
                       + (b2 - 0x80) * 64 + (b3 - 0x80))%N
                   <$> utf8_decode r3
            else None
        | _ => None
        end
      else None
  end.

(** ** [.encode("ascii", "xmlcharrefreplace").decode("utf-8")] *)

(** A code point below 128 is kept, any other becomes its decimal
    character reference; the bytes that result are ASCII, and decoding
    them gives the same characters. *)
Definition xmlcharrefreplace (c : N) : string :=
  if (c <? 128)%N then String (ascii_of_N c) ""
  else "&#" +:+ pretty c +:+ ";".

Fixpoint encode_ascii (cps : list N) : string :=
  match cps with
  | [] => ""
  | c :: cps' => xmlcharrefreplace c +:+ encode_ascii cps'
  end.

(** ** [int(s, base)] and [strip_illegal_xml_characters] *)

Definition is_digit (c : ascii) : bool := between 48 57 (N_of_ascii c).

Definition is_hexdigit (c : ascii) : bool :=
  is_digit c || between 97 102 (N_of_ascii c) || between 65 70 (N_of_ascii c).

(** The value of a digit; the patterns below pass digits only. *)
Definition digit_value (c : ascii) : N :=
  let n := N_of_ascii c in
  if between 48 57 n then (n - 48)%N
  else if between 97 122 n then (n - 87)%N
  else (n - 55)%N.

Fixpoint digits_value (base : N) (acc : N) (s : string) : N :=
  match s with
  | EmptyString => acc
  | String c s' => digits_value base (base * acc + digit_value c)%N s'
  end.

(** [int(s, base)] for a string [s] of digits of the base 10 or 16,
    which is what group 1 of the two patterns holds.  An interpreter
    with a limit [maxdigits] on the conversion of decimal strings (4300
    unless it is set otherwise; 0 when it has none) raises [ValueError]
    for more digits than the limit, and never for 640 digits or fewer:
    [None]. *)
Definition int (maxdigits : nat) (s : string) (base : N) : option N :=
  if (base =? 10)%N && (0 <? maxdigits)%nat
     && (640 <? String.length s)%nat && (maxdigits <? String.length s)%nat
  then None
  else Some (digits_value base 0 s).

Definition illegal (n : N) : bool :=
  ((n =? 0xb) || (n =? 0xc) || (n =? 0xFFFE) || (n =? 0xFFFF)
   || between 0x0 0x8 n || between 0xe 0x1F n || between 0xD800 0xDFFF n)%N.

Definition strip_illegal_xml_characters (maxdigits : nat) (s default : string)
    (base : N) : option string :=
  match int maxdigits s base with
  | Some n => Some (if illegal n then "" else default)
  | None => None
  end.

(** ** [re.sub] *)

(** [pattern s] tells whether the pattern matches at the start of [s],
    and then gives group 1 and the text matched.  The text is read from
    left to right: where the pattern matches, the replacement is put and
    the text matched is skipped; elsewhere the character is kept.  Both
    patterns match three characters at least. *)
Fixpoint sub_go (pattern : string → option (string * string))
    (repl : string → string → option string) (skip : nat) (s : string)
    : option string :=
  match s with
  | EmptyString => Some ""
  | String c s' =>
      match skip with
      | S k => sub_go pattern repl k s'
      | O =>
          match pattern (String c s') with
          | Some (group1, group0) =>
              match repl group1 group0 with
              | Some r =>
                  String.append r
                    <$> sub_go pattern repl (String.length group0 - 1) s'
              | None => None
              end
          | None => String c <$> sub_go pattern repl 0 s'
          end
      end
  end.

Definition re_sub (pattern : string → option (string * string))
    (repl : string → string → option string) (s : string) : option string :=
  sub_go pattern repl 0 s.

Fixpoint take_while (p : ascii → bool) (s : string) : string :=
  match s with
  | EmptyString => ""
  | String c s' => if p c then String c (take_while p s') else ""
  end.

Fixpoint drop_while (p : ascii → bool) (s : string) : string :=
  match s with
  | EmptyString => ""
  | String c s' => if p c then drop_while p s' else s
  end.

(** Whether a text starts with the character [c]. *)
Definition starts_with (c : ascii) (s : string) : bool :=
  match s with
  | EmptyString => false
  | String c' _ => bool_decide (c' = c)
  end.

(** [(digit+);?] at the start of [t]: as many digits as there are, one
    at least, and the semicolon if it follows. *)
Definition reference (digit : ascii → bool) (t : string)
    : option (string * string) :=
  let ds := take_while digit t in
  if Str.is_empty ds then None
  else if starts_with ";" (drop_while digit t) then Some (ds, ds +:+ ";")
  else Some (ds, ds).

(** [&#(\d+);?]: in a text of ASCII characters [\d] is a digit from 0
    to 9. *)
Definition decimal_reference (s : string) : option (string * string) :=
  match s with
  | String c1 (String c2 t) =>
      if bool_decide (c1 = "&"%char) && bool_decide (c2 = "#"%char) then
        match reference is_digit t with
        | Some (group1, m) => Some (group1, String c1 (String c2 m))
        | None => None
        end
      else None
  | _ => None
  end.

(** [&#[xX]([0-9a-fA-F]+);?] *)
Definition hex_reference (s : string) : option (string * string) :=
  match s with
  | String c1 (String c2 (String x t)) =>
      if bool_decide (c1 = "&"%char) && bool_decide (c2 = "#"%char)
         && (bool_decide (x = "x"%char) || bool_decide (x = "X"%char)) then
        match reference is_hexdigit t with
        | Some (group1, m) => Some (group1, String c1 (String c2 (String x m)))
        | None => None
        end
      else None
  | _ => None
  end.

(** [ILLEGAL_XML_CHARS_RE.sub("", html)]: of the characters of the
    class, a text of ASCII characters holds the control characters
    only. *)
Definition illegal_xml_char (c : ascii) : bool :=
  let n := N_of_ascii c in
  (between 0x00 0x08 n || (n =? 0x0b) || (n =? 0x0c) || between 0x0e 0x1F n
   || between 0xD800 0xDFFF n || (n =? 0xFFFE) || (n =? 0xFFFF))%N.

Fixpoint remove_illegal (s : string) : string :=
  match s with
  | EmptyString => ""
  | String c s' =>
      if illegal_xml_char c then remove_illegal s' else String c (remove_illegal s')
  end.

(** ** The function *)

(** The text once decoded. *)
Definition remove_control_text (maxdigits : nat) (cps : list N) : option string :=
  let html := encode_ascii cps in
  match re_sub decimal_reference
          (λ group1 group0,
             strip_illegal_xml_characters maxdigits group1 group0 10) html with
  | Some html =>
      match re_sub hex_reference
              (λ group1 group0,
                 strip_illegal_xml_characters maxdigits group1 group0 16) html with
      | Some html => Some (remove_illegal html)
      | None => None
      end
  | None => None
  end.

Definition remove_control_characters (maxdigits : nat) (html : list Byte.byte)
    : outcome string :=
  match utf8_decode html with
  | None => Fail UnicodeDecodeError
  | Some cps =>
      match remove_control_text maxdigits cps with
      | Some html => Done html
      | None => Fail ValueError
      end
  end.

(** * Notions for the properties *)

(** Whether a text starts with a character of a word. *)
Definition starts_word (s : string) : bool :=
  match s with
  | EmptyString => false
  | String c _ => negb (Str.is_space c)
  end.

(** [Words p nid pos fl t anns fl']: reading the text [t] from position
    [pos] with the flag [fl] gives the annotations [anns], one for each
    maximal run of non-whitespace characters, and leaves the flag [fl'].
    A run can only be read when the flag is bound. *)
Inductive Words (p : string) (nid : node_id)
    : Z → option bool → string → list annotation → option bool → Prop :=
  | words_nil pos fl : Words p nid pos fl "" [] fl
  | words_space pos fl c s anns fl' :
      Str.is_space c = true →
      Words p nid (pos + 1) (Some true) s anns fl' →
      Words p nid pos fl (String c s) anns fl'
  | words_word pos b w s anns fl' :
      w ≠ "" → Str.no_space w = true → starts_word s = false →
      Words p nid (pos + Str.len w) (Some false) s anns fl' →
      Words p nid pos (Some b) (w +:+ s)
        (Annotation (negb b) nid p pos (pos + Str.len w - 1) :: anns) fl'.

(** [Scan P fl t anns fl'] reads the text [t] from left to right: a
    whitespace character sets the flag, and every annotation of [anns]
    stands for a piece [w] of non-whitespace characters with [P a w]; the
    annotation is marked when the flag is false, that is when the piece
    continues the piece before it.  Unlike [Words], the pieces need not be
    maximal: a run that several elements share is read in several pieces. *)
Inductive Scan (P : annotation → string → Prop)
    : option bool → string → list annotation → option bool → Prop :=
  | scan_nil fl : Scan P fl "" [] fl
  | scan_space fl c s anns fl' :
      Str.is_space c = true →
      Scan P (Some true) s anns fl' →
      Scan P fl (String c s) anns fl'
  | scan_word b w s a anns fl' :
      w ≠ "" → Str.no_space w = true → plusprevious a = negb b → P a w →
      Scan P (Some false) s anns fl' →
      Scan P (Some b) (w +:+ s) (a :: anns) fl'.




(** What an element adds around its content. *)
Definition own_text (e : node) : string := default "" (text e).
Definition tail_text (e : node) : string := default "" (tail e).

Definition lead (e : node) : string :=
  match text e with
  | Some _ => if is_inline (tag e) then "" else " "
  | None => ""
  end.

Definition enter_flag (e : node) (fl : option bool) : option bool :=
  match text e with
  | Some _ => if is_inline (tag e) then fl else Some true
  | None => fl
  end.

Definition closes (e : node) : bool :=
  negb (is_inline (tag e)) || bool_decide (tag e = "br").

Definition trail (e : node) : string := if closes e then " " else "".

Definition leave_flag (e : node) (fl : option bool) : option bool :=
  if closes e then Some true else fl.

Definition leave_positions (e : node) (pid : node_id) (v : Z)
    (m : gmap node_id Z) : gmap node_id Z :=
  match tail e with
  | Some t => <[pid := v + Str.len t]> m
  | None => m
  end.

(** The tails that are counted in a node: those of its rendered children. *)
Definition tails (cs : list node) : string :=
  Str.concat ((λ c, if rendered c then tail_text c else "") <$> cs).

(** What a visit and a loop over children do to the positions. *)
Definition visit_positions (e : node) (pid : node_id) (i : nat) (st : state)
    (anns : list annotation) (txt : string) (st' : state) : Prop :=
  ∃ wpp,
    positionsdict st !! pid = Some wpp
    ∧ positionsdict st' !! pid = Some (wpp + Str.len (tail_text e))
    ∧ positionsdict st' !! (pid ++ [i])
      = Some (Str.len (own_text e +:+ tails (children e)))
    ∧ ∀ k, ¬ (pid ++ [i]) `prefix_of` k → k ≠ pid →
           positionsdict st' !! k = positionsdict st !! k.

Definition loop_positions (eid : node_id) (cs : list node) (j : nat)
    (st : state) (kids : list annotation) (ktxt : string) (st2 : state) : Prop :=
  ∀ v, positionsdict st !! eid = Some v →
       positionsdict st2 !! eid = Some (v + Str.len (tails cs))
       ∧ ∀ k, ¬ eid `prefix_of` k →
              positionsdict st2 !! k = positionsdict st !! k.

(** Annotations charged to the same node come in the order of their
    offsets and do not overlap. *)
Definition sorted (anns : list annotation) : Prop :=
  ∀ i j a b, (i < j)%nat → anns !! i = Some a → anns !! j = Some b →
             charged a = charged b → stop a < start b.

(** Where the annotations of the element [i] of [pid] point: into the
    part [lo .. hi - 1] of what is counted in the parent, or inside the
    element. *)
Definition placed (pid : node_id) (i : nat) (lo hi : Z) (a : annotation) : Prop :=
  0 ≤ start a ∧ start a ≤ stop a
  ∧ ((charged a = pid ∧ lo ≤ start a ∧ stop a < hi)
     ∨ (pid ++ [i]) `prefix_of` charged a).

(** The same for the children of [eid] from the index [j] on. *)
Definition placed_below (eid : node_id) (j : nat) (lo hi : Z) (a : annotation) : Prop :=
  0 ≤ start a ∧ start a ≤ stop a
  ∧ ((charged a = eid ∧ lo ≤ start a ∧ stop a < hi)
     ∨ ∃ j', (j ≤ j')%nat ∧ (eid ++ [j']) `prefix_of` charged a).

(** The offsets of a visit and of a loop over children, given the position
    they start from. *)
Definition visit_placed (e : node) (pid : node_id) (i : nat) (st : state)
    (anns : list annotation) (txt : string) (st' : state) : Prop :=
  ∀ wpp, positionsdict st !! pid = Some wpp → 0 ≤ wpp →
         Forall (placed pid i wpp (wpp + Str.len (tail_text e))) anns ∧ sorted anns.

Definition loop_placed (eid : node_id) (cs : list node) (j : nat)
    (st : state) (kids : list annotation) (ktxt : string) (st2 : state) : Prop :=
  ∀ v, positionsdict st !! eid = Some v → 0 ≤ v →
       Forall (placed_below eid j v (v + Str.len (tails cs))) kids ∧ sorted kids.

(** The text the offsets of a node count in: its own text, unless it is
    the root, whose text the walk never reads, and then the tails of its
    rendered children. *)
Definition own_of (nid : node_id) (n : node) : string :=
  match nid with
  | [] => ""
  | _ => own_text n
  end.

Definition charged_text (document : node) (nid : node_id) : string :=
  match lookup_node document nid with
  | Some n => own_of nid n +:+ tails (children n)
  | None => ""
  end.

(** The characters an annotation points at. *)
Definition resolve (document : node) (a : annotation) : string :=
  Str.slice (charged_text document (charged a)) (start a) (stop a).




(** The glue mark of a string that is not empty. *)
Definition marked (s : string) : bool :=
  match s with
  | EmptyString => false
  | String c _ => bool_decide (c = "+"%char)
  end.

(** The glue pass as the specification words it: the first annotation is
    buffered; a marked annotation is appended to the buffer, an unmarked
    one flushes the buffer and starts a new one; the buffer that remains
    is flushed at the end. *)
Fixpoint glue_from (buffer : string) (annotations : list string) : list string :=
  match annotations with
  | [] => [buffer]
  | s :: rest =>
      if marked s then glue_from (buffer +:+ s) rest
      else buffer :: glue_from s rest
  end.

Definition glue_spec (annotations : list string) : list string :=
  match annotations with
  | [] => []
  | s :: rest => glue_from s rest
  end.

(** The same with the buffer kept as the list of its parts. *)
Fixpoint parts_from (cur : list string) (annotations : list string)
    : list (list string) :=
  match annotations with
  | [] => [cur]
  | s :: rest =>
      if marked s then parts_from (cur ++ [s]) rest
      else cur :: parts_from [s] rest
  end.

Definition parts (annotations : list string) : list (list string) :=
  match annotations with
  | [] => []
  | s :: rest => parts_from [s] rest
  end.

(** The end of the glue pass: the buffer that remains is appended. *)
Definition flush_buffer (r : list string * option string) : result (list string) :=
  match r.2 with
  | Some b => Ok (r.1 ++ [b])
  | None => Ok r.1
  end.

(** Whether a text or a tail holds a word. *)
Definition word_in (o : option string) : bool :=
  match o with
  | Some t => negb (Str.all_space t)
  | None => false
  end.

(** Whether the visit of a node meets a word: in its text, in a rendered
    child, or in its tail. *)
Fixpoint has_word (n : node) : bool :=
  match n with
  | Node _ _ tx tl cs =>
      word_in tx
      || (fix any (cs : list node) : bool :=
            match cs with
            | [] => false
            | c :: cs' => rendered c && has_word c || any cs'
            end) cs
      || word_in tl
  end.

Definition any_word (cs : list node) : bool :=
  existsb (λ c, rendered c && has_word c) cs.







(** [<p>w</p><b>x</b><i> </i><b>y</b>]: the space in [i] separates [x]
    from [y] for the flag, but [i] gives no annotation and its text is
    dropped. *)
Definition example_dropped_space : node :=
  root_of [elem "p" (Some "w") [] None; elem "b" (Some "x") [] None;
           elem "i" (Some " ") [] None; elem "b" (Some "y") [] None].

(** [<p>a</p><div> </div><p>b</p>] *)
Definition example_dropped_block : node :=
  root_of [elem "p" (Some "a") [] None; elem "div" (Some " ") [] None;
           elem "p" (Some "b") [] None].

(** The element [p] of example A. *)
Definition example_A_p : node :=
  elem "p" (Some "Hello") [elem "b" (Some "world") [] None] None.

(** [<b>x</b><i>y</i>] and [<b>x</b><i> y</i>] *)
Definition example_inline_pair : node :=
  root_of [elem "b" (Some "x") [] None; elem "i" (Some "y") [] None].

Definition example_inline_space : node :=
  root_of [elem "b" (Some "x") [] None; elem "i" (Some " y") [] None].

(** A node without its tail. *)
Definition clear_tail (n : node) : node :=
  Node (kind n) (tag n) (text n) None (children n).

(** The tree without the tails of the nodes the loops skip. *)
Fixpoint drop_skipped_tails (n : node) : node :=
  match n with
  | Node k t tx tl cs =>
      Node k t tx tl
        ((λ c, if rendered c then drop_skipped_tails c else clear_tail c) <$> cs)
  end.

Definition drop_child (c : node) : node :=
  if rendered c then drop_skipped_tails c else clear_tail c.

(** [<p>a<script>s</script>t<!--c-->u<b>v</b></p>]: the tails [t] and [u]
    are lost, and [v] is glued to [a]. *)
Definition example_skipped : node :=
  root_of [elem "p" (Some "a")
             [elem "script" (Some "s") [] (Some "t");
              Node Comment "" (Some "c") (Some "u") [];
              elem "b" (Some "v") [] None] None].

(** What a piece of the walk does first with the flag it is entered with:
    read it, assign it, or neither. *)
Inductive use : Set := Reads | Assigns | Untouched.

Definition then_use (u1 u2 : use) : use :=
  match u1 with
  | Untouched => u2
  | _ => u1
  end.

Definition text_use (o : option string) : use :=
  match o with
  | None => Untouched
  | Some s =>
      if Str.is_empty s then Untouched
      else if Str.starts_space s then Assigns else Reads
  end.

Definition enter_use (e : node) : use :=
  match text e with
  | Some _ => if is_inline (tag e) then Untouched else Assigns
  | None => Untouched
  end.

Definition close_use (e : node) : use :=
  if closes e then Assigns else Untouched.

Fixpoint first_use (n : node) : use :=
  match n with
  | Node _ _ tx tl cs =>
      then_use (enter_use n)
        (then_use (text_use tx)
           (then_use
              ((fix go (cs : list node) : use :=
                  match cs with
                  | [] => Untouched
                  | c :: cs' =>
                      if rendered c then then_use (first_use c) (go cs')
                      else go cs'
                  end) cs)
              (then_use (close_use n) (text_use tl))))
  end.

Fixpoint loop_use (cs : list node) : use :=
  match cs with
  | [] => Untouched
  | c :: cs' =>
      if rendered c then then_use (first_use c) (loop_use cs') else loop_use cs'
  end.

(** The annotations and the text of a result, without the flag. *)
Definition output {A B C} (r : result (A * B * C)) : result (A * B) :=
  match r with
  | Ok (a, b, _) => Ok (a, b)
  | Raise e => Raise e
  end.

(** A result that does not depend on the flag, with the flag handed on. *)
Definition with_flag (fl : option bool)
    (r : result (list annotation * string * gmap node_id Z))
    : result (list annotation * string * state) :=
  match r with
  | Ok (a, t, m) => Ok (a, t, State fl m)
  | Raise e => Raise e
  end.

(** Two runs that differ in the flag they start with agree: they are
    equal when the flag is assigned first, and differ at most in the
    flag, which they hand on, when the flag is not touched. *)
Definition agree (u : use) (fl1 fl2 : option bool)
    (r1 r2 : result (list annotation * string * state)) : Prop :=
  match u with
  | Reads => True
  | Assigns => r1 = r2
  | Untouched => ∃ r, r1 = with_flag fl1 r ∧ r2 = with_flag fl2 r
  end.

(** The text of the element, as a step from state to state. *)
Definition text_stage (document : node) (e : node) (eid : node_id) (st : state)
    : result (list annotation * string * state) :=
  let* (txt, c) := text_part document e eid (spaceEndPreviousTag st) in
  Ok (standoff c, txt,
      State (flag c) (<[eid := wordposition c]> (positionsdict st))).

Definition end_stage (document : node) (e : node) (pid : node_id) (wpp : Z)
    (r : list annotation * string * state)
    : result (list annotation * string * state) :=
  let '(txt', fl) := end_part e r.1.2 (spaceEndPreviousTag r.2) in
  tail_part document e pid wpp (r.1.1, txt') (State fl (positionsdict r.2)).

(** A page as the parser builds it. *)
Definition example_page : node :=
  root_of [elem "head" None [elem "title" (Some "T") [] None] None;
           elem "body" None [elem "b" (Some "x") [] None] None].

(** Whether an element and the rendered elements below it are all block
    elements. *)
Fixpoint all_block (n : node) : bool :=
  match n with
  | Node _ t _ _ cs =>
      negb (is_inline t)
      && (fix go (cs : list node) : bool :=
            match cs with
            | [] => true
            | c :: cs' => (if rendered c then all_block c else true) && go cs'
            end) cs
  end.

Fixpoint all_blocks (cs : list node) : bool :=
  match cs with
  | [] => true
  | c :: cs' => (if rendered c then all_block c else true) && all_blocks cs'
  end.

Fixpoint first_rendered (cs : list node) : option node :=
  match cs with
  | [] => None
  | c :: cs' => if rendered c then Some c else first_rendered cs'
  end.

(** The shape of the trees that line 179 hands to [getDocumentStandoff].
    [html5lib.parse] follows the tree construction of HTML: under the
    root the first element is [head], before it there can only be
    comments, and [head] holds nothing but [base], [basefont],
    [bgsound], [link], [meta], [title], [noscript], [noframes], [style]
    and [script].  With [script] and [style] skipped by the walk, [head]
    and the rendered elements below it are block elements. *)
Definition head_first (document : node) : bool :=
  match first_rendered (children document) with
  | Some h => bool_decide (tag h = "head") && all_block h
  | None => false
  end.

(** [<b>x</b><div><b>c</b></div>] as the parser builds it: an empty
    [head], and the elements in [body]. *)
Definition example_block_page : node :=
  root_of [elem "head" None [] None;
           elem "body" None
             [elem "b" (Some "x") [] None;
              elem "div" None [elem "b" (Some "c") [] None] None] None].

(** The characters of a text that are not whitespace. *)
Fixpoint nonspace (s : string) : string :=
  match s with
  | EmptyString => EmptyString
  | String c s' =>
      if Str.is_space c then nonspace s' else String c (nonspace s')
  end.

(** The text of the tree below an element as the walk meets it, without
    the spaces the walk adds: the text of the element, the content of its
    rendered children, and its tail. *)
Fixpoint content (n : node) : string :=
  match n with
  | Node _ _ tx tl cs =>
      default "" tx
      +:+ (fix all (cs : list node) : string :=
             match cs with
             | [] => ""
             | c :: cs' => (if rendered c then content c else "") +:+ all cs'
             end) cs
      +:+ default "" tl
  end.

Fixpoint contents (cs : list node) : string :=
  match cs with
  | [] => ""
  | c :: cs' => (if rendered c then content c else "") +:+ contents cs'
  end.

(** Whether no string of a list is empty. *)
Definition all_nonempty (l : list string) : bool :=
  forallb (λ s, negb (Str.is_empty s)) l.

(** The annotation [a] points at the piece [w], and its two offsets are
    those of the first and of the last character of the piece. *)
Definition addresses (document : node) (a : annotation) (w : string) : Prop :=
  resolve document a = w ∧ Str.len w = stop a - start a + 1.

Definition visit_addresses (document : node) (e : node) (pid : node_id)
    (i : nat) (st : state) (anns : list annotation) (txt : string) (st' : state) : Prop :=
  ∀ parent,
    lookup_node document pid = Some parent →
    children parent !! i = Some e → rendered e = true →
    positionsdict st !! pid
    = Some (Str.len (own_of pid parent +:+ tails (take i (children parent)))) →
    Scan (addresses document) (spaceEndPreviousTag st) txt anns
      (spaceEndPreviousTag st').

Definition loop_addresses (document : node) (eid : node_id) (cs : list node)
    (j : nat) (st : state) (kids : list annotation) (ktxt : string) (st2 : state) : Prop :=
  ∀ e pre,
    lookup_node document eid = Some e →
    children e = pre ++ cs → j = length pre →
    positionsdict st !! eid = Some (Str.len (own_of eid e +:+ tails pre)) →
    Scan (addresses document) (spaceEndPreviousTag st) ktxt kids
      (spaceEndPreviousTag st2).

(** [Char] of XML 1.0:
    [#x9 | #xA | #xD | [#x20-#xD7FF] | [#xE000-#xFFFD] | [#x10000-#x10FFFF]]. *)
Definition xml_char (n : N) : bool :=
  ((n =? 0x9) || (n =? 0xA) || (n =? 0xD) || between 0x20 0xD7FF n
   || between 0xE000 0xFFFD n || between 0x10000 0x10FFFF n)%N.

(** Whether every character of a text passes a test. *)
Fixpoint all_chars (p : ascii → bool) (s : string) : bool :=
  match s with
  | EmptyString => true
  | String c s' => p c && all_chars p s'
  end.

Definition is_ascii (c : ascii) : bool := (N_of_ascii c <? 128)%N.

(** An ASCII character that XML allows. *)
Definition ascii_xml_char (c : ascii) : bool :=
  (N_of_ascii c <? 128)%N && xml_char (N_of_ascii c).

(** What becomes of a code point of a text without ampersand: nothing
    when it is in the invalid range, or else the character itself below
    128 and its decimal reference from 128 on. *)
Definition clean_point (c : N) : string :=
  if illegal c then "" else xmlcharrefreplace c.

(** The same after the two passes over the references, when the
    control characters are still there. *)
Definition checked_point (c : N) : string :=
  if (c <? 128)%N then xmlcharrefreplace c else clean_point c.

Fixpoint points (f : N → string) (cps : list N) : string :=
  match cps with
  | [] => ""
  | c :: cps' => f c +:+ points f cps'
  end.

(** A Unicode scalar value: what a strict decoder gives. *)
Definition scalar (c : N) : Prop :=
  (c ≤ 0x10FFFF)%N ∧ ¬ (0xD800 ≤ c ≤ 0xDFFF)%N.

(** A character other than the ampersand. *)
Definition not_amp (c : ascii) : bool := negb (bool_decide (c = "&"%char)).

(** The code points of a text of ASCII characters. *)
Fixpoint code_points (s : string) : list N :=
  match s with
  | EmptyString => []
  | String c s' => N_of_ascii c :: code_points s'
  end.

(** The text of [n] characters [c]. *)
Fixpoint replicate_char (n : nat) (c : ascii) : string :=
  match n with
  | O => ""
  | S n' => String c (replicate_char n' c)
  end.

(** The text of a visit, read off the tree: the space before the text
    of a block element that has a text, the text, the texts of the
    visits of the rendered children, the space that closes a block
    element or a [br], and the tail. *)
Fixpoint visit_text (n : node) : string :=
  match n with
  | Node _ t tx tl cs =>
      lead n +:+ default "" tx
      +:+ (fix all (cs : list node) : string :=
             match cs with
             | [] => ""
             | c :: cs' => (if rendered c then visit_text c else "") +:+ all cs'
             end) cs
      +:+ trail n +:+ default "" tl
  end.

Fixpoint visit_texts (cs : list node) : string :=
  match cs with
  | [] => ""
  | c :: cs' => (if rendered c then visit_text c else "") +:+ visit_texts cs'
  end.

(** The text of a document: the texts of the visits of the rendered
    top-level elements that hold a word. *)
Fixpoint document_text (cs : list node) : string :=
  match cs with
  | [] => ""
  | c :: cs' =>
      (if rendered c && has_word c then visit_text c else "")
      +:+ document_text cs'
  end.

(** * Properties *)

(** ** Facts about strings *)

Module StrFacts.
Import Str.

Lemma app_nil_l s : "" +:+ s = s.
Proof. reflexivity. Qed.

Lemma app_cons c s t : String c s +:+ t = String c (s +:+ t).
Proof. reflexivity. Qed.

Lemma app_nil_r s : s +:+ "" = s.
Proof. induction s as [|c s IH]; [done|]. by rewrite app_cons, IH. Qed.

Lemma app_assoc s t u : (s +:+ t) +:+ u = s +:+ t +:+ u.
Proof. induction s as [|c s IH]; [done|]. by rewrite !app_cons, IH. Qed.

Lemma snoc_app s c t : snoc s c +:+ t = s +:+ String c t.
Proof. unfold snoc. by rewrite app_assoc. Qed.

Lemma len_nil : len "" = 0.
Proof. reflexivity. Qed.

Lemma len_cons c s : len (String c s) = 1 + len s.
Proof. unfold len. cbn [String.length]. lia. Qed.

Lemma len_app s t : len (s +:+ t) = len s + len t.
Proof.
  induction s as [|c s IH]; [by rewrite app_nil_l, len_nil|].
  rewrite app_cons, !len_cons, IH. lia.
Qed.

Lemma len_nonneg s : 0 ≤ len s.
Proof. unfold len. lia. Qed.

Lemma len_pos s : s ≠ "" → 0 < len s.
Proof. destruct s; [done|]. rewrite len_cons. pose proof (len_nonneg s). lia. Qed.

Lemma len_snoc s c : len (snoc s c) = len s + 1.
Proof. unfold snoc. by rewrite len_app. Qed.

Lemma snoc_ne s c : snoc s c ≠ "".
Proof. by destruct s. Qed.

Lemma app_eq_nil s t : s +:+ t = "" → s = "" ∧ t = "".
Proof. destruct s; [done|]. by rewrite app_cons. Qed.

Lemma is_empty_true s : is_empty s = true ↔ s = "".
Proof. by destruct s. Qed.

Lemma is_empty_false s : is_empty s = false ↔ s ≠ "".
Proof. by destruct s. Qed.

Lemma all_space_app s t : all_space (s +:+ t) = all_space s && all_space t.
Proof.
  induction s as [|c s IH]; [done|].
  rewrite app_cons. cbn [all_space]. by rewrite IH, andb_assoc.
Qed.

Lemma no_space_app s t : no_space (s +:+ t) = no_space s && no_space t.
Proof.
  induction s as [|c s IH]; [done|].
  rewrite app_cons. cbn [no_space]. by rewrite IH, andb_assoc.
Qed.

Lemma all_space_snoc s c :
  all_space s = true → is_space c = true → all_space (snoc s c) = true.
Proof.
  intros Hs Hc. unfold snoc. rewrite all_space_app, Hs. cbn. by rewrite Hc.
Qed.

Lemma no_space_snoc s c :
  no_space s = true → is_space c = false → no_space (snoc s c) = true.
Proof.
  intros Hs Hc. unfold snoc. rewrite no_space_app, Hs. cbn. by rewrite Hc.
Qed.

Lemma isspace_all_space s : s ≠ "" → all_space s = true → isspace s = true.
Proof. by destruct s. Qed.

Lemma isspace_no_space s : s ≠ "" → no_space s = true → isspace s = false.
Proof.
  destruct s as [|c s]; [done|]. cbn. intros _ [Hc _]%andb_true_iff.
  apply negb_true_iff in Hc. by rewrite Hc.
Qed.

Lemma ends_space_app s t :
  ends_space (s +:+ t) = if is_empty t then ends_space s else ends_space t.
Proof.
  induction s as [|c s IH].
  - rewrite app_nil_l. by destruct t.
  - rewrite app_cons. cbn [ends_space]. rewrite IH.
    destruct s as [|c' s]; destruct t as [|d t]; try done.
Qed.

Lemma ends_space_no_space s : no_space s = true → ends_space s = false.
Proof.
  induction s as [|c s IH]; [done|]. cbn [no_space ends_space].
  intros [Hc Hs]%andb_true_iff. apply negb_true_iff in Hc.
  destruct s; [done|]. by apply IH.
Qed.

Lemma ends_space_all_space s : s ≠ "" → all_space s = true → ends_space s = true.
Proof.
  induction s as [|c s IH]; [done|]. cbn [all_space ends_space].
  intros _ [Hc Hs]%andb_true_iff. destruct s; [done|]. by apply IH.
Qed.

Lemma starts_space_app s t : s ≠ "" → starts_space (s +:+ t) = starts_space s.
Proof. by destruct s. Qed.

Lemma starts_space_no_space s : no_space s = true → starts_space s = false.
Proof.
  destruct s as [|c s]; [done|]. cbn. intros [Hc _]%andb_true_iff.
  by apply negb_true_iff in Hc.
Qed.

Lemma concat_app l1 l2 : concat (l1 ++ l2) = concat l1 +:+ concat l2.
Proof.
  induction l1 as [|s l1 IH]; [done|]. cbn [concat app].
  by rewrite IH, app_assoc.
Qed.

End StrFacts.

(** ** The word loop, character by character *)

Section WordLoop.
Import Str StrFacts.

Variables (p : string) (nid : node_id).

Lemma word_loop_split s :
  (∀ cur wp fw fl acc,
     cur ≠ "" → all_space cur = true →
     ∃ news fw' fl',
       word_loop p nid (split_go s cur true) (Cursor wp fw fl acc)
       = Ok (Cursor (wp + len cur + len s) fw' fl' (acc ++ news))
       ∧ Words p nid (wp + len cur) (Some true) s news fl')
  ∧ (∀ cur wp fw fl acc,
       cur ≠ "" → no_space cur = true → (fw = false → fl = Some true) →
       match fl with
       | None =>
           word_loop p nid (split_go s cur false) (Cursor wp fw fl acc)
           = Raise NameError
       | Some b =>
           ∃ news fw' fl',
             word_loop p nid (split_go s cur false) (Cursor wp fw fl acc)
             = Ok (Cursor (wp + len cur + len s) fw' fl' (acc ++ news))
             ∧ Words p nid wp (Some b) (cur +:+ s) news fl'
       end).
Proof.
  induction s as [|c s [IHw IHn]]; split.
  - intros cur wp fw fl acc Hne Hall. exists [], false, (Some true).
    cbn [split_go word_loop]. rewrite (isspace_all_space _ Hne Hall).
    cbn. rewrite (right_id_L [] (++)), len_nil, Z.add_0_r. split; [done|]. constructor.
  - intros cur wp fw fl acc Hne Hno Hfw.
    cbn [split_go word_loop]. rewrite (isspace_no_space _ Hne Hno).
    apply is_empty_false in Hne as He. rewrite He.
    destruct fl as [b|]; cbn.
    + eexists [_], false, (Some false). rewrite len_nil, Z.add_0_r.
      destruct fw.
      * cbn. split; [done|]. apply words_word; [done..|]. constructor.
      * assert (b = true) as -> by naive_solver.
        cbn. split; [done|]. apply (words_word _ _ _ true); [done..|]. constructor.
    + destruct fw; [done|]. naive_solver.
  - intros cur wp fw fl acc Hne Hall. cbn [split_go].
    destruct (is_space c) eqn:Hc.
    + destruct (IHw (snoc cur c) wp fw fl acc) as (news & fw' & fl' & Heq & HW).
      { apply snoc_ne. } { by apply all_space_snoc. }
      rewrite len_snoc in HW.
      exists news, fw', fl'. rewrite Heq, len_snoc, len_cons. split.
      * do 2 f_equal. lia.
      * apply words_space; [done|]. by replace (wp + len cur + 1) with (wp + (len cur + 1)) by lia.
    + cbn [word_loop]. rewrite (isspace_all_space _ Hne Hall). cbn [wordposition standoff].
      pose proof (IHn (String c "") (wp + len cur) false (Some true) acc) as IH.
      destruct IH as (news & fw' & fl' & Heq & HW); [done| |done|].
      { cbn. by rewrite Hc. }
      exists news, fw', fl'. rewrite Heq. rewrite ?len_cons, ?len_nil in *.
      split; [do 2 f_equal; lia|]. done.
  - intros cur wp fw fl acc Hne Hno Hfw. cbn [split_go].
    destruct (is_space c) eqn:Hc.
    + cbn [word_loop]. rewrite (isspace_no_space _ Hne Hno).
      apply is_empty_false in Hne as He. rewrite He.
      destruct fl as [b|]; cycle 1.
      { destruct fw; [done|]. naive_solver. }
      set (plus := negb b). cbn [firstword flag].
      assert ((if fw then Ok (negb b) else Ok false) = Ok plus) as ->.
      { destruct fw; [done|]. assert (b = true) as -> by naive_solver. done. }
      cbn [bind wordposition standoff].
      edestruct (IHw (String c "") (wp + len cur) false (Some false)) as (news & fw' & fl' & Heq & HW);
        [done| |].
      { cbn. by rewrite Hc. }
      eexists (_ :: news), fw', fl'. rewrite Heq. rewrite ?len_cons, ?len_nil in *.
      split.
      * rewrite <- (assoc_L (++)). cbn [app]. do 2 f_equal. lia.
      * apply words_word; [done..| |].
        { cbn. by rewrite Hc. }
        apply words_space; [done|]. done.
    + pose proof (IHn (snoc cur c) wp fw fl acc) as IH.
      destruct fl as [b|].
      * destruct IH as (news & fw' & fl' & Heq & HW);
          [apply snoc_ne|by apply no_space_snoc|done|].
        exists news, fw', fl'. rewrite Heq, len_snoc, len_cons.
        rewrite snoc_app in HW.
        split; [do 2 f_equal; lia|done].
      * apply IH; [apply snoc_ne|by apply no_space_snoc|done].
Qed.

(** The loop over [re.split(r'(\s+)', t)], entered with [firstword]
    true: it raises [NameError] exactly when [t] starts with a word and
    the flag is unbound, and reads [t] as [Words] says otherwise. *)
Lemma word_loop_re_split t wp fl acc :
  if starts_word t && bool_decide (fl = None)
  then word_loop p nid (re_split t) (Cursor wp true fl acc) = Raise NameError
  else ∃ news fw' fl',
         word_loop p nid (re_split t) (Cursor wp true fl acc)
         = Ok (Cursor (wp + len t) fw' fl' (acc ++ news))
         ∧ Words p nid wp fl t news fl'.
Proof.
  unfold re_split. destruct t as [|c t].
  - cbn. exists [], true, fl. rewrite (right_id_L [] (++)), Z.add_0_r. split; [done|]. constructor.
  - cbn [split_go starts_word]. destruct (word_loop_split t) as [Hw Hn].
    destruct (is_space c) eqn:Hc; cbn [negb andb].
    + cbn [word_loop isspace is_empty].
      destruct (Hw (String c "") wp true fl acc) as (news & fw' & fl' & Heq & HW); [done|by cbn; rewrite Hc|].
      exists news, fw', fl'. rewrite Heq. rewrite ?len_cons, ?len_nil in *.
      split; [do 2 f_equal; lia|]. by apply words_space.
    + change (snoc "" c) with (String c "").
      pose proof (Hn (String c "") wp true fl acc) as H.
      destruct fl as [b|];
        [rewrite bool_decide_eq_false_2 by done|rewrite bool_decide_eq_true_2 by done].
      * destruct H as (news & fw' & fl' & Heq & HW); [done|by cbn; rewrite Hc|done|].
        exists news, fw', fl'. rewrite Heq. rewrite ?len_cons, ?len_nil in *.
        split; [do 2 f_equal; lia|done].
      * apply H; [done|by cbn; rewrite Hc|done].
Qed.

Lemma word_loop_Ok t wp fl acc c :
  word_loop p nid (re_split t) (Cursor wp true fl acc) = Ok c →
  ∃ news, wordposition c = wp + len t
          ∧ standoff c = acc ++ news
          ∧ Words p nid wp fl t news (flag c).
Proof.
  intros Heq. pose proof (word_loop_re_split t wp fl acc) as H.
  destruct (starts_word t && bool_decide (fl = None)); [congruence|].
  destruct H as (news & fw' & fl' & Heq' & HW).
  rewrite Heq in Heq'. injection Heq' as ->. by exists news.
Qed.

Lemma word_loop_bound t wp b acc :
  ∃ news fw' fl',
    word_loop p nid (re_split t) (Cursor wp true (Some b) acc)
    = Ok (Cursor (wp + len t) fw' fl' (acc ++ news))
    ∧ Words p nid wp (Some b) t news fl'.
Proof.
  pose proof (word_loop_re_split t wp (Some b) acc) as H.
  by rewrite andb_false_r in H.
Qed.

End WordLoop.

(** ** Reading a text with its annotations *)

Section ScanFacts.
Import Str StrFacts.

Context (P : annotation → string → Prop).

Lemma scan_impl (Q : annotation → string → Prop) fl t anns fl' :
  (∀ a w, a ∈ anns → P a w → Q a w) →
  Scan P fl t anns fl' → Scan Q fl t anns fl'.
Proof.
  intros HPQ H. induction H as [| |b w s a anns fl' ? ? ? ? ? IH].
  - constructor.
  - constructor; auto.
  - constructor; [done..| |].
    + apply HPQ; [left|done].
    + apply IH. intros; apply HPQ; [by right|done].
Qed.

Lemma scan_all_space fl t :
  all_space t = true → Scan P fl t [] (if is_empty t then fl else Some true).
Proof.
  revert fl. induction t as [|c t IH]; intros fl; [constructor|].
  cbn. intros [Hc Ht]%andb_true_iff. apply scan_space; [done|].
  specialize (IH (Some true) Ht). by destruct t.
Qed.

Lemma scan_app fl t1 anns1 fl1 t2 anns2 fl2 :
  Scan P fl t1 anns1 fl1 → Scan P fl1 t2 anns2 fl2 →
  Scan P fl (t1 +:+ t2) (anns1 ++ anns2) fl2.
Proof.
  intros H1 H2. induction H1.
  - done.
  - rewrite app_cons. apply scan_space; auto.
  - rewrite app_assoc. cbn [app]. apply scan_word; auto.
Qed.

(** The flag follows the text: after a text that is not empty it tells
    whether the text ends in whitespace. *)
Lemma scan_flag fl t anns fl' :
  Scan P fl t anns fl' →
  fl' = if is_empty t then fl else Some (ends_space t).
Proof.
  induction 1 as [|fl c s anns fl' Hc _ IH|b w s a anns fl' Hne Hno _ _ _ IH].
  - done.
  - rewrite IH. cbn [is_empty ends_space]. destruct s; [by rewrite Hc|done].
  - rewrite IH, ends_space_app.
    destruct (is_empty s) eqn:Hs.
    + apply is_empty_true in Hs as ->. rewrite app_nil_r.
      apply is_empty_false in Hne as ->. by rewrite ends_space_no_space.
    + assert (w +:+ s ≠ "") as ->%is_empty_false; [|done].
      intros [-> _]%app_eq_nil. done.
Qed.

Lemma scan_bound b t anns fl' :
  Scan P (Some b) t anns fl' → is_Some fl'.
Proof. intros ->%scan_flag. by destruct (is_empty t). Qed.

Lemma scan_no_annotation fl t fl' :
  Scan P fl t [] fl' → all_space t = true.
Proof.
  remember [] as anns eqn:Ha. induction 1; [done| |done].
  cbn. rewrite andb_true_iff. auto.
Qed.

Lemma scan_true_first t a anns fl' :
  Scan P (Some true) t (a :: anns) fl' → plusprevious a = false.
Proof.
  remember (Some true) as fl eqn:Hfl. remember (a :: anns) as l eqn:Hl.
  induction 1; simplify_eq; auto.
Qed.

(** The first annotation of a text is marked exactly when the flag is
    false on entry and the text starts with the piece. *)
Lemma scan_first fl t a anns fl' :
  Scan P fl t (a :: anns) fl' →
  plusprevious a = true ↔ fl = Some false ∧ starts_space t = false.
Proof.
  intros H. remember (a :: anns) as l eqn:Hl.
  destruct H as [|fl c s l fl' Hc HS|b w s a' l fl' Hne Hno Hp HP HS];
    simplify_eq.
  - apply scan_true_first in HS. cbn. rewrite HS, Hc.
    split; [done|by intros [_ ?]].
  - rewrite Hp, starts_space_app, starts_space_no_space by done.
    destruct b; cbn; (split; [try done; by intros _|try done; by intros [? _]]).
Qed.





End ScanFacts.

Section WordsFacts.
Import Str StrFacts.

Context (p : string) (nid : node_id).

(** Every annotation of a text lies inside the text, is charged to the
    node the loop counts in, and follows the one before it. *)
Lemma words_bounds pos fl t anns fl' :
  Words p nid pos fl t anns fl' →
  Forall (λ a, charged a = nid ∧ path a = p
               ∧ pos ≤ start a ∧ start a ≤ stop a ∧ stop a < pos + len t) anns.
Proof.
  induction 1 as [|pos fl c s anns fl' _ _ IH|pos b w s anns fl' Hne _ _ _ IH].
  - constructor.
  - eapply Forall_impl; [exact IH|]. cbn. intros a (?&?&?&?&?).
    rewrite len_cons. repeat split; try done; lia.
  - pose proof (len_pos w Hne). pose proof (len_nonneg s).
    rewrite len_app. constructor; [cbn; repeat split; try done; lia|].
    eapply Forall_impl; [exact IH|]. cbn. intros a (?&?&?&?&?).
    repeat split; try done; lia.
Qed.

Lemma words_sorted pos fl t anns fl' :
  Words p nid pos fl t anns fl' →
  ∀ i j a b, (i < j)%nat → anns !! i = Some a → anns !! j = Some b →
             stop a < start b.
Proof.
  induction 1 as [|pos fl c s anns fl' _ _ IH|pos b w s anns fl' Hne _ _ HW IH];
    intros i j x y Hij Hi Hj.
  - done.
  - eauto.
  - destruct j as [|j]; [lia|]. destruct i as [|i].
    + cbn in Hi, Hj. simplify_eq. cbn.
      apply words_bounds in HW. eapply Forall_forall in HW;
        [|by eapply list_elem_of_lookup_2]. lia.
    + cbn in Hi, Hj. eapply IH; [|done..]. lia.
Qed.

(** From exact positions to pieces: if the annotation for the piece [w]
    at offset [len x] of [whole] is related to [w] by [P], the text is
    scanned with [P]. *)
Lemma words_scan (P : annotation → string → Prop) base whole pos fl t anns fl' :
  (∀ x w y plus, whole = x +:+ w +:+ y →
                 P (Annotation plus nid p (base + len x) (base + len x + len w - 1)) w) →
  Words p nid pos fl t anns fl' →
  ∀ x y, whole = x +:+ t +:+ y → pos = base + len x →
         Scan P fl t anns fl'.
Proof.
  intros HP. induction 1 as [|pos fl c s anns fl' Hc _ IH|pos b w s anns fl' Hne Hno _ _ IH];
    intros x y Hwhole Hpos.
  - constructor.
  - apply scan_space; [done|]. apply (IH (snoc x c) y).
    + by rewrite snoc_app.
    + rewrite len_snoc. lia.
  - apply scan_word; [done..| |].
    + subst pos. apply (HP x w (s +:+ y)). by rewrite Hwhole, app_assoc.
    + apply (IH (x +:+ w) y).
      * by rewrite Hwhole, !app_assoc.
      * rewrite len_app. lia.
Qed.

Lemma words_scan_any pos fl t anns fl' :
  Words p nid pos fl t anns fl' → Scan (λ _ _, True) fl t anns fl'.
Proof.
  intros H. eapply (words_scan _ pos t) with (x := "") (y := ""); [done|done| |].
  - by rewrite app_nil_l, app_nil_r.
  - rewrite len_nil. lia.
Qed.

End WordsFacts.

(** ** The shape of a visit *)

(** Induction on trees, with the hypothesis for every child. *)
Lemma node_ind (P : node → Prop) :
  (∀ k t tx tl cs, Forall P cs → P (Node k t tx tl cs)) → ∀ n, P n.
Proof.
  intros H. fix IH 1. intros [k t tx tl cs]. apply H.
  induction cs as [|c cs IHcs]; constructor; [apply IH|apply IHcs].
Qed.

Section Shape.
Import Str StrFacts.

Variable document : node.

Lemma getWordStandoff_eq e pid i st :
  getWordStandoff document e pid i st =
    let eid := pid ++ [i] in
    let* wordpositionparent :=
      match positionsdict st !! pid with
      | Some v => Ok v
      | None => Raise KeyError
      end in
    let* (txt, c) := text_part document e eid (spaceEndPreviousTag st) in
    let st1 := State (flag c) (<[eid := wordposition c]> (positionsdict st)) in
    let* (acc, st2) :=
      children_loop document eid (children e) 0%nat (standoff c, txt) st1 in
    let '(txt', fl) := end_part e acc.2 (spaceEndPreviousTag st2) in
    tail_part document e pid wordpositionparent (acc.1, txt')
      (State fl (positionsdict st2)).
Proof. by destruct e. Qed.

Lemma children_loop_nil eid j acc st :
  children_loop document eid [] j acc st = Ok (acc, st).
Proof. done. Qed.

Lemma children_loop_cons eid c cs j acc st :
  children_loop document eid (c :: cs) j acc st =
    if rendered c then
      let* (childstandoff, childtext, st') :=
        getWordStandoff document c eid j st in
      children_loop document eid cs (S j)
        (acc.1 ++ childstandoff, acc.2 +:+ childtext) st'
    else children_loop document eid cs (S j) acc st.
Proof. done. Qed.

(** What the loop has gathered before does not change what it adds. *)
Lemma children_loop_acc eid cs j acc st :
  children_loop document eid cs j acc st =
    let* (r, st') := children_loop document eid cs j ([], "") st in
    Ok (acc.1 ++ r.1, acc.2 +:+ r.2, st').
Proof.
  revert j acc st. induction cs as [|c cs IH]; intros j acc st.
  - rewrite !children_loop_nil. cbn. rewrite (right_id_L [] (++)), app_nil_r.
    by destruct acc.
  - rewrite !children_loop_cons. destruct (rendered c); [|apply IH].
    destruct (getWordStandoff document c eid j st) as [[[a t] st1]|]; [|done].
    cbn. rewrite IH. rewrite (IH _ ([] ++ a, _)).
    destruct (children_loop document eid cs (S j) ([], "") st1) as [[[a' t'] st2]|]; [|done].
    cbn. by rewrite (assoc_L (++)), !app_assoc.
Qed.

Lemma children_loop_Ok eid c cs j st kids ktxt st' :
  children_loop document eid (c :: cs) j ([], "") st = Ok (kids, ktxt, st') →
  if rendered c then
    ∃ a1 t1 st1 a2 t2,
      getWordStandoff document c eid j st = Ok (a1, t1, st1)
      ∧ children_loop document eid cs (S j) ([], "") st1 = Ok (a2, t2, st')
      ∧ kids = a1 ++ a2 ∧ ktxt = t1 +:+ t2
  else children_loop document eid cs (S j) ([], "") st = Ok (kids, ktxt, st').
Proof.
  rewrite children_loop_cons. destruct (rendered c); [|done].
  destruct (getWordStandoff document c eid j st) as [[[a1 t1] st1]|]; [|done].
  cbn. rewrite children_loop_acc.
  destruct (children_loop document eid cs (S j) ([], "") st1)
    as [[[a2 t2] st2]|] eqn:E; [|done].
  cbn. intros [= <- <- <-]. by exists a1, t1, st1, a2, t2.
Qed.

Lemma text_part_Ok e eid fl txt c :
  text_part document e eid fl = Ok (txt, c) →
  txt = lead e +:+ own_text e
  ∧ wordposition c = len (own_text e)
  ∧ Words (getelementpath document eid) eid 0 (enter_flag e fl) (own_text e)
      (standoff c) (flag c).
Proof.
  unfold text_part, lead, own_text, enter_flag. destruct (text e) as [t|]; cbn.
  - destruct (is_inline (tag e)).
    + destruct (word_loop _ _ _ _) as [c'|] eqn:E; [|done]. cbn.
      intros [= <- <-]. apply word_loop_Ok in E as (news & ? & ? & ?).
      cbn in *. by subst.
    + destruct (word_loop _ _ _ _) as [c'|] eqn:E; [|done]. cbn.
      intros [= <- <-]. apply word_loop_Ok in E as (news & ? & Hs & ?).
      cbn in *. by rewrite Hs.
  - intros [= <- <-]. cbn. split_and!; [done..|]. constructor.
Qed.

Lemma tail_part_Ok e pid v acc st anns txt st' :
  tail_part document e pid v acc st = Ok (anns, txt, st') →
  ∃ tl fl3,
    Words (getelementpath document pid) pid v (spaceEndPreviousTag st)
      (tail_text e) tl fl3
    ∧ anns = acc.1 ++ tl
    ∧ txt = acc.2 +:+ tail_text e
    ∧ st' = State fl3 (leave_positions e pid v (positionsdict st)).
Proof.
  unfold tail_part, tail_text, leave_positions. destruct (tail e) as [t|]; cbn.
  - destruct (word_loop _ _ _ _) as [c'|] eqn:E; [|done]. cbn.
    intros [= <- <- <-]. apply word_loop_Ok in E as (news & Hp & Hs & HW).
    exists news, (flag c'). by rewrite Hp, Hs.
  - intros [= -> <-]. exists [], (spaceEndPreviousTag st). cbn.
    rewrite (right_id_L [] (++)), app_nil_r. destruct st.
    split_and!; [constructor|done..].
Qed.

Lemma end_part_eq e txt fl :
  end_part e txt fl = (txt +:+ trail e, leave_flag e fl).
Proof.
  unfold end_part, trail, leave_flag, closes.
  destruct (is_inline (tag e)); cbn; [|done].
  destruct (bool_decide (tag e = "br")); [done|]. by rewrite app_nil_r.
Qed.

(** A visit that returns has read the text of the element, visited the
    children, closed the element and read the tail, in this order. *)
Lemma getWordStandoff_Ok e pid i st anns txt st' :
  getWordStandoff document e pid i st = Ok (anns, txt, st') →
  ∃ wpp own fl1 kids ktxt st2 tl fl3,
    positionsdict st !! pid = Some wpp
    ∧ Words (getelementpath document (pid ++ [i])) (pid ++ [i]) 0
        (enter_flag e (spaceEndPreviousTag st)) (own_text e) own fl1
    ∧ children_loop document (pid ++ [i]) (children e) 0%nat ([], "")
        (State fl1 (<[pid ++ [i] := len (own_text e)]> (positionsdict st)))
      = Ok (kids, ktxt, st2)
    ∧ Words (getelementpath document pid) pid wpp
        (leave_flag e (spaceEndPreviousTag st2)) (tail_text e) tl fl3
    ∧ anns = own ++ kids ++ tl
    ∧ txt = lead e +:+ own_text e +:+ ktxt +:+ trail e +:+ tail_text e
    ∧ st' = State fl3 (leave_positions e pid wpp (positionsdict st2)).
Proof.
  rewrite getWordStandoff_eq. cbn zeta.
  destruct (positionsdict st !! pid) as [wpp|]; [|done]. cbn [bind].
  destruct (text_part _ _ _ _) as [[txt0 c]|] eqn:Et; [|done]. cbn [bind].
  apply text_part_Ok in Et as (-> & Hwp & Hown). rewrite Hwp.
  rewrite children_loop_acc.
  destruct (children_loop _ _ _ _ ([], "") _) as [[[kids ktxt] st2]|] eqn:Ek; [|done].
  cbn [bind fst snd]. rewrite end_part_eq.
  intros (tl & fl3 & Htl & -> & -> & ->)%tail_part_Ok. cbn in *.
  exists wpp, (standoff c), (flag c), kids, ktxt, st2, tl, fl3.
  split_and!; try done.
  - by rewrite (assoc_L (++)).
  - by rewrite !app_assoc.
Qed.

End Shape.


(** ** Induction over a walk

    Most properties of the walk are shown for a visit and for the loop
    over the children at once.  It is enough to show them for the empty
    loop, for a child the loop skips, for a child it visits, and for a
    visit whose parts are known. *)
Section WalkInd.
Import Str StrFacts.

Variable document : node.
Variable Pv : node → node_id → nat → state →
              list annotation → string → state → Prop.
Variable Pl : node_id → list node → nat → state →
              list annotation → string → state → Prop.

Hypothesis Hnil : ∀ eid j st, Pl eid [] j st [] "" st.

Hypothesis Hskip : ∀ eid c cs j st kids ktxt st2,
  rendered c = false →
  children_loop document eid cs (S j) ([], "") st = Ok (kids, ktxt, st2) →
  Pl eid cs (S j) st kids ktxt st2 →
  Pl eid (c :: cs) j st kids ktxt st2.

Hypothesis Hcons : ∀ eid c cs j st a1 t1 st1 a2 t2 st2,
  rendered c = true →
  getWordStandoff document c eid j st = Ok (a1, t1, st1) →
  Pv c eid j st a1 t1 st1 →
  children_loop document eid cs (S j) ([], "") st1 = Ok (a2, t2, st2) →
  Pl eid cs (S j) st1 a2 t2 st2 →
  Pl eid (c :: cs) j st (a1 ++ a2) (t1 +:+ t2) st2.

Hypothesis Hvisit : ∀ e pid i st wpp own fl1 kids ktxt st2 tl fl3,
  positionsdict st !! pid = Some wpp →
  Words (getelementpath document (pid ++ [i])) (pid ++ [i]) 0
    (enter_flag e (spaceEndPreviousTag st)) (own_text e) own fl1 →
  let st1 := State fl1 (<[pid ++ [i] := len (own_text e)]> (positionsdict st)) in
  children_loop document (pid ++ [i]) (children e) 0%nat ([], "") st1
  = Ok (kids, ktxt, st2) →
  Pl (pid ++ [i]) (children e) 0%nat st1 kids ktxt st2 →
  Words (getelementpath document pid) pid wpp
    (leave_flag e (spaceEndPreviousTag st2)) (tail_text e) tl fl3 →
  Pv e pid i st (own ++ kids ++ tl)
    (lead e +:+ own_text e +:+ ktxt +:+ trail e +:+ tail_text e)
    (State fl3 (leave_positions e pid wpp (positionsdict st2))).

Lemma walk_loop_of_children cs :
  Forall (λ e, ∀ pid i st anns txt st',
            getWordStandoff document e pid i st = Ok (anns, txt, st') →
            Pv e pid i st anns txt st') cs →
  ∀ eid j st kids ktxt st2,
    children_loop document eid cs j ([], "") st = Ok (kids, ktxt, st2) →
    Pl eid cs j st kids ktxt st2.
Proof.
  induction 1 as [|c cs Hc _ IH]; intros eid j st kids ktxt st2.
  - rewrite children_loop_nil. intros [= <- <- <-]. apply Hnil.
  - intros H%children_loop_Ok. destruct (rendered c) eqn:Hr.
    + destruct H as (a1 & t1 & st1 & a2 & t2 & H1 & H2 & -> & ->).
      eapply Hcons; eauto.
    + eapply Hskip; eauto.
Qed.

Lemma walk_visit e :
  ∀ pid i st anns txt st',
    getWordStandoff document e pid i st = Ok (anns, txt, st') →
    Pv e pid i st anns txt st'.
Proof.
  induction e as [k t tx tl cs IH] using node_ind.
  intros pid i st anns txt st'.
  intros (wpp & own & fl1 & kids & ktxt & st2 & tls & fl3
          & Hwpp & Hown & Hkids & Htl & -> & -> & ->)%getWordStandoff_Ok.
  eapply Hvisit; eauto. eapply walk_loop_of_children; eauto.
Qed.

Lemma walk_loop eid cs j st kids ktxt st2 :
  children_loop document eid cs j ([], "") st = Ok (kids, ktxt, st2) →
  Pl eid cs j st kids ktxt st2.
Proof.
  apply walk_loop_of_children. apply Forall_forall. intros e _. apply walk_visit.
Qed.

Lemma walk_ind :
  (∀ e pid i st anns txt st',
     getWordStandoff document e pid i st = Ok (anns, txt, st') →
     Pv e pid i st anns txt st')
  ∧ (∀ eid cs j st kids ktxt st2,
       children_loop document eid cs j ([], "") st = Ok (kids, ktxt, st2) →
       Pl eid cs j st kids ktxt st2).
Proof. split; [apply walk_visit|apply walk_loop]. Qed.

End WalkInd.

(** ** The flag follows the text *)

Section VisitScan.
Import Str StrFacts.

Variable document : node.

Lemma scan_lead P e fl : Scan P fl (lead e) [] (enter_flag e fl).
Proof.
  unfold lead, enter_flag. destruct (text e); [|constructor].
  destruct (is_inline (tag e)); [constructor|].
  apply scan_space; [done|constructor].
Qed.

Lemma scan_trail P e fl : Scan P fl (trail e) [] (leave_flag e fl).
Proof.
  unfold trail, leave_flag. destruct (closes e); [|constructor].
  apply scan_space; [done|constructor].
Qed.

(** A visit is a sequence of five readings. *)
Lemma scan_visit P e fl own fl1 kids ktxt fl2 tl fl3 :
  Scan P (enter_flag e fl) (own_text e) own fl1 →
  Scan P fl1 ktxt kids fl2 →
  Scan P (leave_flag e fl2) (tail_text e) tl fl3 →
  Scan P fl (lead e +:+ own_text e +:+ ktxt +:+ trail e +:+ tail_text e)
    (own ++ kids ++ tl) fl3.
Proof.
  intros Hown Hkids Htl.
  change (own ++ kids ++ tl) with ([] ++ own ++ kids ++ [] ++ tl).
  eapply scan_app; [apply scan_lead|].
  eapply scan_app; [done|].
  eapply scan_app; [done|].
  eapply scan_app; [apply scan_trail|done].
Qed.

(** The text and the annotations of a visit fit together, whatever the
    positions are. *)
Lemma getWordStandoff_scan e pid i st anns txt st' :
  getWordStandoff document e pid i st = Ok (anns, txt, st') →
  Scan (λ _ _, True) (spaceEndPreviousTag st) txt anns (spaceEndPreviousTag st').
Proof.
  revert e pid i st anns txt st'.
  apply (walk_visit document
           (λ _ _ _ st anns txt st',
              Scan (λ _ _, True) (spaceEndPreviousTag st) txt anns
                (spaceEndPreviousTag st'))
           (λ _ _ _ st anns txt st',
              Scan (λ _ _, True) (spaceEndPreviousTag st) txt anns
                (spaceEndPreviousTag st'))).
  - constructor.
  - done.
  - intros. by eapply scan_app.
  - intros. cbn in *. eapply scan_visit; eauto using words_scan_any.
Qed.

Lemma children_loop_scan eid cs j st kids ktxt st2 :
  children_loop document eid cs j ([], "") st = Ok (kids, ktxt, st2) →
  Scan (λ _ _, True) (spaceEndPreviousTag st) ktxt kids (spaceEndPreviousTag st2).
Proof.
  revert j st kids ktxt. induction cs as [|c cs IH]; intros j st kids ktxt.
  - rewrite children_loop_nil. intros [= <- <- <-]. constructor.
  - intros H%children_loop_Ok. destruct (rendered c); [|eauto].
    destruct H as (a1 & t1 & st1 & a2 & t2 & H1 & H2 & -> & ->).
    eapply scan_app; eauto using getWordStandoff_scan.
Qed.
(** With the flag bound and the parent in the dictionary, a visit
    returns. *)
Lemma getWordStandoff_returns e :
  ∀ pid i st,
    is_Some (spaceEndPreviousTag st) → is_Some (positionsdict st !! pid) →
    ∃ anns txt st',
      getWordStandoff document e pid i st = Ok (anns, txt, st')
      ∧ is_Some (spaceEndPreviousTag st')
      ∧ (∀ k, is_Some (positionsdict st !! k) → is_Some (positionsdict st' !! k)).
Proof.
  induction e as [k t tx tl cs IH] using node_ind.
  intros pid i [fl m] [b Hb] [wpp Hwpp]. cbn in Hb, Hwpp. subst fl.
  set (e := Node k t tx tl cs). set (eid := pid ++ [i]).
  rewrite getWordStandoff_eq. cbn zeta. cbn [positionsdict spaceEndPreviousTag].
  fold eid. rewrite Hwpp. cbn [bind].
  assert (∃ txt c b1, text_part document e eid (Some b) = Ok (txt, c)
                      ∧ flag c = Some b1) as (txt & c & b1 & -> & Hb1).
  { unfold text_part. destruct (text e) as [s|]; [|by eexists _, _, b].
    destruct (is_inline (tag e)).
    - destruct (word_loop_bound (getelementpath document eid) eid s 0 b [])
        as (news & fw' & fl' & -> & HW).
      apply words_scan_any, scan_bound in HW as [b1 ->]. by eexists _, _, b1.
    - destruct (word_loop_bound (getelementpath document eid) eid s 0 true [])
        as (news & fw' & fl' & -> & HW).
      apply words_scan_any, scan_bound in HW as [b1 ->]. by eexists _, _, b1. }
  cbn [bind]. rewrite Hb1.
  assert (∀ cs j acc st,
            Forall (λ e, ∀ pid i st,
              is_Some (spaceEndPreviousTag st) → is_Some (positionsdict st !! pid) →
              ∃ anns txt st',
                getWordStandoff document e pid i st = Ok (anns, txt, st')
                ∧ is_Some (spaceEndPreviousTag st')
                ∧ (∀ k, is_Some (positionsdict st !! k) →
                        is_Some (positionsdict st' !! k))) cs →
            is_Some (spaceEndPreviousTag st) → is_Some (positionsdict st !! eid) →
            ∃ acc' st2,
              children_loop document eid cs j acc st = Ok (acc', st2)
              ∧ is_Some (spaceEndPreviousTag st2)
              ∧ (∀ k, is_Some (positionsdict st !! k) →
                      is_Some (positionsdict st2 !! k))) as Hloop.
  { clear. intros cs. induction cs as [|c cs IHcs]; intros j acc st HF Hfl Hm.
    - rewrite children_loop_nil. by eexists _, _.
    - apply Forall_cons in HF as [Hc HF]. rewrite children_loop_cons.
      destruct (rendered c); [|eauto].
      destruct (Hc eid j st Hfl Hm) as (a1 & t1 & st1 & -> & Hfl1 & Hm1).
      cbn [bind].
      edestruct (IHcs (S j) (acc.1 ++ a1, acc.2 +:+ t1) st1)
        as (acc' & st2 & -> & Hfl2 & Hm2); eauto.
      eexists _, _. split_and!; eauto. }
  change (children e) with cs.
  edestruct (Hloop cs 0%nat (standoff c, txt)
               (State (Some b1) (<[eid := wordposition c]> m)))
    as (acc' & st2 & -> & [b2 Hfl2] & Hm2); [done|done| |].
  { cbn. rewrite lookup_insert_eq. done. }
  cbn [bind]. rewrite end_part_eq. unfold tail_part. cbn [fst snd].
  cbn [spaceEndPreviousTag positionsdict].
  assert (is_Some (leave_flag e (spaceEndPreviousTag st2))) as [b3 Hb3].
  { unfold leave_flag. rewrite Hfl2. by destruct (closes e). }
  rewrite Hb3.
  assert (∀ k, is_Some (m !! k) → is_Some (positionsdict st2 !! k)) as Hm.
  { intros k' Hk. apply Hm2. cbn. rewrite lookup_insert. by case_decide. }
  destruct (tail e) as [s|].
  - destruct (word_loop_bound (getelementpath document pid) pid s wpp b3 acc'.1)
      as (news & fw' & fl' & -> & HW).
    apply words_scan_any, scan_bound in HW as [b4 ->].
    cbn. eexists _, _, _. split_and!; [done|done|].
    intros k' Hk. cbn. rewrite lookup_insert. case_decide; [done|]. by apply Hm.
  - eexists _, _, _. split_and!; [done|done|]. done.
Qed.

End VisitScan.

(** ** Positions *)

Lemma prefix_snoc_length {A} (l k : list A) x :
  (l ++ [x]) `prefix_of` k → (length l < length k)%nat.
Proof. intros H%prefix_length. rewrite length_app in H. cbn in H. lia. Qed.

Lemma prefix_snoc_inj {A} (l k : list A) x y :
  (l ++ [x]) `prefix_of` k → (l ++ [y]) `prefix_of` k → x = y.
Proof.
  intros [k1 ->] [k2 H]. rewrite <- !(assoc_L (++)) in H.
  apply app_inv_head in H. by injection H.
Qed.

Lemma prefix_snoc_not {A} (l : list A) x : ¬ (l ++ [x]) `prefix_of` l.
Proof. intros H%prefix_snoc_length. lia. Qed.

Section Positions.
Import Str StrFacts.

Variable document : node.

Lemma tails_cons c cs :
  tails (c :: cs) = (if rendered c then tail_text c else "") +:+ tails cs.
Proof. done. Qed.

Lemma tails_app cs1 cs2 : tails (cs1 ++ cs2) = tails cs1 +:+ tails cs2.
Proof. unfold tails. by rewrite fmap_app, concat_app. Qed.

Lemma walk_positions :
  (∀ e pid i st anns txt st',
     getWordStandoff document e pid i st = Ok (anns, txt, st') →
     visit_positions e pid i st anns txt st')
  ∧ (∀ eid cs j st kids ktxt st2,
       children_loop document eid cs j ([], "") st = Ok (kids, ktxt, st2) →
       loop_positions eid cs j st kids ktxt st2).
Proof.
  apply walk_ind.
  - intros eid j st v Hv. by rewrite Hv, Z.add_0_r.
  - intros eid c cs j st kids ktxt st2 Hr _ IH v Hv.
    rewrite tails_cons, Hr, app_nil_l. by apply IH.
  - intros eid c cs j st a1 t1 st1 a2 t2 st2 Hr _ (wpp & Hw & Hw' & _ & Hframe) _ IH v Hv.
    rewrite Hv in Hw. injection Hw as <-.
    destruct (IH _ Hw') as [Hv2 Hframe2].
    rewrite tails_cons, Hr, len_app.
    split; [by rewrite Hv2, Z.add_assoc|].
    intros k Hk. rewrite Hframe2, Hframe; [done| |by intros ->|done].
    intros ?%prefix_app_l. done.
  - intros e pid i st wpp own fl1 kids ktxt st2 tl fl3 Hwpp _ st1 _ Hloop _.
    set (eid := pid ++ [i]) in *.
    destruct (Hloop (len (own_text e))) as [Hv2 Hframe2];
      [apply lookup_insert_eq|].
    cbn in Hframe2.
    pose proof (prefix_snoc_not pid i) as Hpid. fold eid in Hpid.
    assert (eid ≠ pid) as Hne by (intros H; apply Hpid; by rewrite H).
    assert (positionsdict st2 !! pid = Some wpp) as Hpid2
      by (by rewrite Hframe2, lookup_insert_ne).
    exists wpp. cbn. unfold leave_positions, tail_text.
    rewrite len_app. split_and!; [done|..].
    + destruct (tail e); cbn;
        [apply lookup_insert_eq|by rewrite len_nil, Z.add_0_r].
    + destruct (tail e); cbn; [by rewrite lookup_insert_ne|done].
    + intros k Hk Hkp.
      assert (positionsdict st2 !! k = positionsdict st !! k) as <-
        by (rewrite Hframe2 by done; apply lookup_insert_ne; by intros <-).
      destruct (tail e); cbn; [by rewrite lookup_insert_ne|done].
Qed.

(** A visit moves the position of the parent over the tail, leaves the
    position of the element after all that is counted in it, and
    touches nothing outside the element but the parent. *)
Lemma getWordStandoff_positions e pid i st anns txt st' :
  getWordStandoff document e pid i st = Ok (anns, txt, st') →
  visit_positions e pid i st anns txt st'.
Proof. apply walk_positions. Qed.

Lemma children_loop_positions eid cs j st kids ktxt st2 :
  children_loop document eid cs j ([], "") st = Ok (kids, ktxt, st2) →
  loop_positions eid cs j st kids ktxt st2.
Proof. apply walk_positions. Qed.

End Positions.

(** ** Offsets *)

Section Offsets.
Import Str StrFacts.

Variable document : node.

Lemma sorted_nil : sorted [].
Proof. by intros i j a b _ ?. Qed.

Lemma sorted_app l1 l2 :
  sorted l1 → sorted l2 →
  (∀ a b, a ∈ l1 → b ∈ l2 → charged a = charged b → stop a < start b) →
  sorted (l1 ++ l2).
Proof.
  intros H1 H2 H12 i j a b Hij Hi Hj Hab.
  apply lookup_app_Some in Hi as [Hi|[Hi1 Hi]];
    apply lookup_app_Some in Hj as [Hj|[Hj1 Hj]].
  - by eapply H1.
  - eapply H12; [by eapply list_elem_of_lookup_2..|done].
  - apply lookup_lt_Some in Hj. lia.
  - eapply (H2 (i - length l1)%nat (j - length l1)%nat); [lia|done..].
Qed.

Lemma words_placed p nid pos fl t anns fl' :
  0 ≤ pos → Words p nid pos fl t anns fl' →
  Forall (λ a, charged a = nid ∧ 0 ≤ start a ∧ start a ≤ stop a
               ∧ pos ≤ start a ∧ stop a < pos + len t) anns.
Proof.
  intros Hpos HW%words_bounds. eapply Forall_impl; [done|].
  cbn. intros a (?&?&?&?&?). split_and!; [done|lia|done..].
Qed.

Lemma words_sorted_charged p nid pos fl t anns fl' :
  Words p nid pos fl t anns fl' → sorted anns.
Proof. intros HW i j a b Hij Hi Hj _. by eapply words_sorted. Qed.

Lemma walk_placed :
  (∀ e pid i st anns txt st',
     getWordStandoff document e pid i st = Ok (anns, txt, st') →
     visit_placed e pid i st anns txt st')
  ∧ (∀ eid cs j st kids ktxt st2,
       children_loop document eid cs j ([], "") st = Ok (kids, ktxt, st2) →
       loop_placed eid cs j st kids ktxt st2).
Proof.
  apply walk_ind.
  - intros eid j st v _ _. split; [constructor|apply sorted_nil].
  - intros eid c cs j st kids ktxt st2 Hr _ IH v Hv Hv0.
    rewrite tails_cons, Hr, app_nil_l.
    destruct (IH v Hv Hv0) as [Hp2 Hs2].
    split; [|done]. eapply Forall_impl; [exact Hp2|].
    intros a (?&?&[(?&?&?)|(j'&?&?)]).
    + split_and!; [done..|]. by left.
    + split_and!; [done..|]. right. exists j'. split; [lia|done].
  - intros eid c cs j st a1 t1 st1 a2 t2 st2 Hr H1 Hc _ IH v Hv Hv0.
    destruct (Hc v Hv Hv0) as [Hp1 Hs1].
    apply getWordStandoff_positions in H1 as (wpp & Hw & Hw' & _).
    rewrite Hv in Hw. injection Hw as <-.
    pose proof (len_nonneg (tail_text c)) as Hlc.
    pose proof (len_nonneg (tails cs)) as Hlcs.
    destruct (IH _ Hw' ltac:(lia)) as [Hp2 Hs2].
    rewrite tails_cons, Hr, len_app. split.
    + apply Forall_app. split.
      * eapply Forall_impl; [exact Hp1|]. intros a (?&?&[(?&?&?)|?]).
        -- split_and!; [done..|]. left. split_and!; [done..|lia].
        -- split_and!; [done..|]. right. by exists j.
      * eapply Forall_impl; [exact Hp2|]. intros a (?&?&[(?&?&?)|(j'&?&?)]).
        -- split_and!; [done..|]. left. split_and!; [done|lia..].
        -- split_and!; [done..|]. right. exists j'. split; [lia|done].
    + apply sorted_app; [done..|]. intros a b Ha Hb Hab.
      eapply Forall_forall in Hp1 as (_&_&Ha'); [|exact Ha].
      eapply Forall_forall in Hp2 as (_&_&Hb'); [|exact Hb].
      destruct Ha' as [(Ha1&?&?)|Ha1]; destruct Hb' as [(Hb1&?&?)|(j'&?&Hb1)].
      * lia.
      * rewrite <- Hab, Ha1 in Hb1. apply prefix_snoc_length in Hb1. lia.
      * rewrite Hab, Hb1 in Ha1. apply prefix_snoc_length in Ha1. lia.
      * rewrite Hab in Ha1.
        pose proof (prefix_snoc_inj _ _ _ _ Ha1 Hb1). lia.
  - intros e pid i st wpp own fl1 kids ktxt st2 tl fl3 Hwpp Hown st1 _ Hloop Htl.
    intros wpp0 Hw0 Hpos. rewrite Hwpp in Hw0. injection Hw0 as <-.
    set (eid := pid ++ [i]) in *.
    pose proof (len_nonneg (own_text e)) as Hlo.
    destruct (Hloop (len (own_text e))) as [Hpk Hsk];
      [apply lookup_insert_eq|done|].
    apply words_placed in Hown as Hpo; [|done].
    apply words_placed in Htl as Hpt; [|done].
    pose proof (prefix_snoc_not pid i) as Hpid. fold eid in Hpid.
    split.
    + rewrite !Forall_app. split_and!.
      * eapply Forall_impl; [exact Hpo|]. intros a (Ha&?&?&?&?).
        split_and!; [done..|]. right. by rewrite Ha.
      * eapply Forall_impl; [exact Hpk|]. intros a (?&?&[(Ha&?&?)|(j'&?&Ha)]).
        -- split_and!; [done..|]. right. by rewrite Ha.
        -- split_and!; [done..|]. right. by eapply prefix_app_l.
      * eapply Forall_impl; [exact Hpt|]. intros a (Ha&?&?&?&?).
        split_and!; [done..|]. by left.
    + apply sorted_app; [by eapply words_sorted_charged| |].
      * apply sorted_app; [done|by eapply words_sorted_charged|].
        intros a b Ha Hb Hab.
        eapply Forall_forall in Hpk as (_&_&Ha'); [|exact Ha].
        eapply Forall_forall in Hpt as (Hb'&_); [|exact Hb].
        rewrite Hab, Hb' in Ha'. destruct Ha' as [(Ha1&_)|(j'&_&Ha1)].
        -- exfalso. apply Hpid. by rewrite <- Ha1.
        -- exfalso. apply Hpid. by eapply prefix_app_l.
      * intros a b Ha Hb Hab.
        eapply Forall_forall in Hpo as (Ha'&_&_&_&?); [|exact Ha].
        rewrite Hab in Ha'.
        apply elem_of_app in Hb as [Hb|Hb].
        -- eapply Forall_forall in Hpk as (_&_&Hb'); [|exact Hb].
           destruct Hb' as [(_&?&_)|(j'&_&Hb1)]; [lia|].
           rewrite Ha' in Hb1. apply prefix_snoc_length in Hb1. lia.
        -- eapply Forall_forall in Hpt as (Hb'&_); [|exact Hb].
           exfalso. apply Hpid. by rewrite <- Hb', Ha'.
Qed.

End Offsets.

(** ** Resolving an annotation *)

Section Resolve.
Import Str StrFacts.

Variable document : node.

Lemma substring_skip u n s :
  String.substring (String.length u) n (u +:+ s) = String.substring 0 n s.
Proof. induction u as [|c u IH]; [done|]. by rewrite app_cons. Qed.

Lemma substring_prefix w z :
  String.substring 0 (String.length w) (w +:+ z) = w.
Proof.
  induction w as [|c w IH]; [by destruct z|].
  rewrite app_cons. cbn. by rewrite IH.
Qed.

Lemma slice_app u w z : slice (u +:+ w +:+ z) (len u) (len u + len w - 1) = w.
Proof.
  unfold slice.
  assert (Z.to_nat (len u) = String.length u) as -> by (unfold len; lia).
  assert (Z.to_nat (len u + len w - 1 - len u + 1) = String.length w) as ->
    by (unfold len; lia).
  by rewrite substring_skip, substring_prefix.
Qed.

Lemma lookup_node_snoc pid i parent e :
  lookup_node document pid = Some parent → children parent !! i = Some e →
  lookup_node document (pid ++ [i]) = Some e.
Proof.
  revert pid parent. generalize document.
  intros d pid. revert d. induction pid as [|j pid IH]; intros d parent.
  - cbn. intros [= ->] ->. done.
  - cbn. destruct (children d !! j) as [c|]; [|done]. apply IH.
Qed.

Lemma own_of_snoc pid i e : own_of (pid ++ [i]) e = own_text e.
Proof. by destruct pid. Qed.

(** An annotation for the piece [w] at the offset [len u] of what is
    counted in [nid] resolves to [w]. *)
Lemma resolve_piece nid u w z plus p :
  charged_text document nid = u +:+ w +:+ z →
  resolve document (Annotation plus nid p (len u) (len u + len w - 1)) = w.
Proof. unfold resolve. cbn. intros ->. apply slice_app. Qed.


End Resolve.

(** ** The glue pass *)

Section Glue.
Import Str StrFacts.

Lemma glue_mark_marked s : s ≠ "" → glue_mark s = Ok (marked s).
Proof. by destruct s. Qed.

Lemma glue_eq l : glue l = bind (glue_loop l [] None) flush_buffer.
Proof. unfold glue. by destruct (glue_loop l [] None) as [[g [b|]]|]. Qed.

Lemma glue_loop_from l out b :
  Forall (λ s, s ≠ "") l →
  bind (glue_loop l out (Some b)) flush_buffer = Ok (out ++ glue_from b l).
Proof.
  intros Hl. revert out b. induction Hl as [|s l Hs _ IH]; intros out b; [done|].
  cbn [glue_loop glue_from]. rewrite glue_mark_marked by done. cbn [bind].
  destruct (marked s); [apply IH|].
  rewrite IH. by rewrite <- (assoc_L (++)).
Qed.

Lemma glue_glue_spec l : Forall (λ s, s ≠ "") l → glue l = Ok (glue_spec l).
Proof.
  intros Hl. rewrite glue_eq. destruct Hl as [|s l _ Hl]; [done|].
  cbn [glue_loop glue_spec]. by rewrite glue_loop_from.
Qed.

Lemma glue_from_parts cur l :
  glue_from (concat cur) l = concat <$> parts_from cur l.
Proof.
  revert cur. induction l as [|s l IH]; intros cur; [done|].
  cbn [glue_from parts_from]. destruct (marked s).
  - rewrite <- IH, concat_app. cbn. by rewrite app_nil_r.
  - cbn. f_equal. rewrite <- IH. cbn. by rewrite app_nil_r.
Qed.

Lemma glue_spec_parts l : glue_spec l = concat <$> parts l.
Proof.
  destruct l as [|s l]; [done|]. cbn [glue_spec parts].
  rewrite <- glue_from_parts. cbn. by rewrite app_nil_r.
Qed.

Lemma parts_from_concat cur l : mjoin (parts_from cur l) = cur ++ l.
Proof.
  revert cur. induction l as [|s l IH]; intros cur.
  - cbn. by rewrite !(right_id_L [] (++)).
  - cbn [parts_from]. destruct (marked s).
    + by rewrite IH, <- (assoc_L (++)).
    + cbn. by rewrite IH.
Qed.

Lemma parts_concat l : mjoin (parts l) = l.
Proof. destruct l as [|s l]; [done|]. apply parts_from_concat. Qed.

Lemma parts_from_nonempty cur l :
  cur ≠ [] → Forall (λ g, g ≠ []) (parts_from cur l).
Proof.
  revert cur. induction l as [|s l IH]; intros cur Hcur.
  - by constructor.
  - cbn [parts_from]. destruct (marked s).
    + apply IH. by destruct cur.
    + constructor; [done|]. by apply IH.
Qed.

Lemma parts_nonempty l : Forall (λ g, g ≠ []) (parts l).
Proof. destruct l as [|s l]; [constructor|]. by apply parts_from_nonempty. Qed.

Lemma parts_from_length cur l : (length (parts_from cur l) ≤ S (length l))%nat.
Proof.
  revert cur. induction l as [|s l IH]; intros cur; [done|].
  cbn [parts_from]. destruct (marked s).
  - specialize (IH (cur ++ [s])). cbn. lia.
  - specialize (IH [s]). cbn. lia.
Qed.

Lemma parts_length l : (length (parts l) ≤ length l)%nat.
Proof. destruct l as [|s l]; [done|]. apply parts_from_length. Qed.

Lemma marked_app s t :
  marked (s +:+ t) = if is_empty s then marked t else marked s.
Proof. by destruct s. Qed.

Lemma render_not_empty a : render a ≠ "".
Proof.
  unfold render. destruct (plusprevious a); [done|].
  rewrite app_nil_l. intros [_ H]%app_eq_nil. done.
Qed.









End Glue.

(** ** Words in a tree *)

Section HasWord.
Import Str StrFacts.

Variable document : node.

Lemma has_word_eq n :
  has_word n = word_in (text n) || any_word (children n) || word_in (tail n).
Proof.
  by destruct n.
Qed.

Lemma words_word_in p nid pos fl o anns fl' :
  Words p nid pos fl (default "" o) anns fl' →
  word_in o = true → anns ≠ [].
Proof.
  intros HW Ho ->. apply words_scan_any, scan_no_annotation in HW.
  destruct o as [t|]; [|done]. cbn in *. by rewrite HW in Ho.
Qed.

Lemma words_no_word p nid pos fl o anns fl' :
  Words p nid pos fl (default "" o) anns fl' →
  word_in o = false →
  anns = [] ∧ fl' = if is_empty (default "" o) then fl else Some true.
Proof.
  intros HW Ho.
  assert (all_space (default "" o) = true) as Hall.
  { destruct o as [t|]; [|done]. cbn in *. by apply negb_false_iff. }
  assert (anns = []) as ->.
  { clear Ho. induction HW as [|pos fl c s anns fl' Hc _ IH
                               |pos b w s anns fl' Hne Hno _ _ _]; [done| |].
    - cbn in Hall. apply andb_true_iff in Hall as [_ Hall]. auto.
    - rewrite all_space_app in Hall. apply andb_true_iff in Hall as [Hall _].
      destruct w as [|c w]; [done|]. cbn in Hall, Hno.
      apply andb_true_iff in Hall as [Hc _]. by rewrite Hc in Hno. }
  split; [done|]. apply words_scan_any, scan_flag in HW as ->.
  destruct (default "" o) eqn:E; [done|].
  by rewrite ends_space_all_space.
Qed.

(** A visit that meets a word gives an annotation. *)
Lemma walk_has_word :
  (∀ e pid i st anns txt st',
     getWordStandoff document e pid i st = Ok (anns, txt, st') →
     has_word e = true → anns ≠ [])
  ∧ (∀ eid cs j st kids ktxt st2,
       children_loop document eid cs j ([], "") st = Ok (kids, ktxt, st2) →
       any_word cs = true → kids ≠ []).
Proof.
  apply (walk_ind document
           (λ e _ _ _ anns _ _, has_word e = true → anns ≠ [])
           (λ _ cs _ _ kids _ _, any_word cs = true → kids ≠ [])).
  - done.
  - intros eid c cs j st kids ktxt st2 Hr _ IH. cbn. by rewrite Hr.
  - intros eid c cs j st a1 t1 st1 a2 t2 st2 Hr _ Hc _ IH. cbn. rewrite Hr.
    cbn. intros [H|H]%orb_true_iff.
    + apply Hc in H. by destruct a1.
    + apply IH in H. by destruct a1, a2.
  - intros e pid i st wpp own fl1 kids ktxt st2 tl fl3 _ Hown st1 _ Hloop Htl.
    rewrite has_word_eq. intros [[H|H]%orb_true_iff|H]%orb_true_iff.
    + eapply words_word_in in Hown; [|done]. by destruct own.
    + apply Hloop in H. by destruct own, kids.
    + eapply words_word_in in Htl; [|done]. by destruct own, kids, tl.
Qed.

(** The walk writes the path of the node it counts in. *)
Lemma walk_paths :
  (∀ e pid i st anns txt st',
     getWordStandoff document e pid i st = Ok (anns, txt, st') →
     Forall (λ a, path a = getelementpath document (charged a)) anns)
  ∧ (∀ eid cs j st kids ktxt st2,
       children_loop document eid cs j ([], "") st = Ok (kids, ktxt, st2) →
       Forall (λ a, path a = getelementpath document (charged a)) kids).
Proof.
  apply (walk_ind document
           (λ _ _ _ _ anns _ _,
              Forall (λ a, path a = getelementpath document (charged a)) anns)
           (λ _ _ _ _ kids _ _,
              Forall (λ a, path a = getelementpath document (charged a)) kids)).
  - constructor.
  - done.
  - intros. by apply Forall_app.
  - intros e pid i st wpp own fl1 kids ktxt st2 tl fl3 _ Hown st1 _ Hloop Htl.
    rewrite !Forall_app. split_and!; [|done|].
    + apply words_bounds in Hown. eapply Forall_impl; [done|].
      cbn. by intros a (-> & -> & _).
    + apply words_bounds in Htl. eapply Forall_impl; [done|].
      cbn. by intros a (-> & -> & _).
Qed.

(** After a block element whose tail has no word the flag is true. *)
Lemma getWordStandoff_block_flag e pid i st anns txt st' :
  getWordStandoff document e pid i st = Ok (anns, txt, st') →
  is_inline (tag e) = false → word_in (tail e) = false →
  spaceEndPreviousTag st' = Some true.
Proof.
  intros (wpp & own & fl1 & kids & ktxt & st2 & tls & fl3
          & _ & _ & _ & Htl & _ & _ & ->)%getWordStandoff_Ok Hb Htail.
  cbn. eapply words_no_word in Htl as [_ ->]; [|done].
  unfold leave_flag, closes. rewrite Hb. cbn. by destruct (is_empty _).
Qed.

End HasWord.

(** ** The loop over the children of the root *)

Section Document.
Import Str StrFacts.

Variable document : node.

Lemma document_loop_nil j acc st :
  document_loop document [] j acc st = Ok (acc, st).
Proof. done. Qed.

Lemma document_loop_cons c cs j acc st :
  document_loop document (c :: cs) j acc st =
    if rendered c then
      let* (wordstandoff, plaintext, st') :=
        getWordStandoff document c [] j st in
      match wordstandoff with
      | [] => document_loop document cs (S j) acc st'
      | _ :: _ =>
          document_loop document cs (S j)
            (acc.1 ++ wordstandoff, acc.2 +:+ plaintext) st'
      end
    else document_loop document cs (S j) acc st.
Proof. done. Qed.

(** As far as annotations and state go, the loop is the loop over the
    children of an element: a child that is dropped had no annotation. *)
Lemma document_loop_children cs :
  ∀ j A T T0 st A' T' st',
    document_loop document cs j (A, T) st = Ok (A', T', st') →
    ∃ T0', children_loop document [] cs j (A, T0) st = Ok (A', T0', st').
Proof.
  induction cs as [|c cs IH]; intros j A T T0 st A' T' st'.
  - rewrite document_loop_nil, children_loop_nil. intros [= <- <- <-]. by eexists.
  - rewrite document_loop_cons, children_loop_cons.
    destruct (rendered c); [|apply IH].
    destruct (getWordStandoff document c [] j st) as [[[a1 t1] st1]|]; [|done].
    cbn [bind fst snd]. destruct a1 as [|a a1].
    + rewrite (right_id_L [] (++)). apply IH.
    + apply IH.
Qed.

Lemma document_raw_children fl raw txt fl' :
  document_raw document fl = Ok (raw, txt, fl') →
  ∃ ktxt st',
    children_loop document [] (children document) 0%nat ([], "")
      (State fl {[ [] := 0 ]}) = Ok (raw, ktxt, st')
    ∧ spaceEndPreviousTag st' = fl'.
Proof.
  unfold document_raw. cbn zeta.
  destruct (document_loop _ _ _ _ _) as [[[A T] st']|] eqn:E; [|done].
  cbn. intros [= <- <- <-].
  apply (document_loop_children _ _ _ _ "") in E as [T0' E]. eauto.
Qed.


End Document.

(** * The claims *)

(** ** Round trip and order (C1) *)

Lemma singleton_root : ({[ [] := 0 ]} : gmap node_id Z) !! [] = Some 0.
Proof. apply lookup_singleton_eq. Qed.

Lemma document_raw_paths document fl raw txt fl' :
  document_raw document fl = Ok (raw, txt, fl') →
  Forall (λ a, path a = getelementpath document (charged a)) raw.
Proof.
  intros (ktxt & st' & H & _)%document_raw_children.
  by apply (proj2 (walk_paths document)) in H.
Qed.

Lemma getDocumentStandoff_Ok document fl glued txt fl' :
  getDocumentStandoff document fl = Ok (glued, txt, fl') →
  ∃ raw, document_raw document fl = Ok (raw, txt, fl')
         ∧ glue (render <$> raw) = Ok glued.
Proof.
  unfold getDocumentStandoff.
  destruct (document_raw document fl) as [[[raw t] f]|]; [|done]. cbn.
  destruct (glue (render <$> raw)) as [g|] eqn:E; [|done]. cbn.
  intros [= <- <- <-]. by exists raw.
Qed.




(** ** The glue pass (C4) *)

(** C4: on annotations that are not empty the glue pass returns what the
    specification describes; the output is not longer than the input and
    is the input cut into parts, each part joined without separator. *)
Theorem glue_pass (annotations : list string) :
  Forall (λ s, s ≠ "") annotations →
  glue annotations = Ok (glue_spec annotations)
  ∧ (length (glue_spec annotations) ≤ length annotations)%nat
  ∧ ∃ ps, Forall (λ g, g ≠ []) ps
          ∧ mjoin ps = annotations
          ∧ glue_spec annotations = Str.concat <$> ps.
Proof.
  intros Hl. split_and!.
  - by apply glue_glue_spec.
  - rewrite glue_spec_parts, length_fmap. apply parts_length.
  - exists (parts annotations).
    split_and!; [apply parts_nonempty|apply parts_concat|apply glue_spec_parts].
Qed.

Lemma glue_pass_witness :
  glue ["p:0-4"; "+p/b:0-4"; "p:6-7"] = Ok (glue_spec ["p:0-4"; "+p/b:0-4"; "p:6-7"])
  ∧ (length (glue_spec ["p:0-4"; "+p/b:0-4"; "p:6-7"]) ≤ 3)%nat
  ∧ ∃ ps, Forall (λ g, g ≠ []) ps
          ∧ mjoin ps = ["p:0-4"; "+p/b:0-4"; "p:6-7"]
          ∧ glue_spec ["p:0-4"; "+p/b:0-4"; "p:6-7"] = Str.concat <$> ps.
Proof.
  apply (glue_pass ["p:0-4"; "+p/b:0-4"; "p:6-7"]).
  repeat constructor; discriminate.
Defined.

(** ** Example A (C6) *)

(** C6: for [<p>Hello<b>world</b></p>] the walk gives the text
    [" Helloworld "] and the annotations [p:0-4] and [+p/b:0-4], and the
    glue pass the single entry [p:0-4+p/b:0-4], whatever the flag was. *)
Theorem example_A_standoff (fl : option bool) :
  let raw := [Annotation false [0%nat] "p" 0 4;
              Annotation true [0%nat; 0%nat] "p/b" 0 4] in
  document_raw example_A fl = Ok (raw, " Hello" +:+ "world" +:+ " ", Some true)
  ∧ render <$> raw = ["p:0-4"; "+p/b:0-4"]
  ∧ getDocumentStandoff example_A fl
    = Ok (["p:0-4+p/b:0-4"], " Hello" +:+ "world" +:+ " ", Some true).
Proof. by destruct fl as [[]|]. Qed.

(** ** Offsets (C7) *)

(** C7: the offsets of every annotation of a document satisfy
    [0 <= start <= stop], and two annotations charged to the same node do
    not overlap; in a visit, the annotations that point into the text of
    the element are those its own text loop gave, and every other
    annotation of the visit that is charged to the element, being for the
    tail of a child, starts behind that text. *)
Theorem annotation_offsets (document : node) :
  (∀ fl raw txt fl',
     document_raw document fl = Ok (raw, txt, fl') →
     Forall (λ a, 0 ≤ start a ∧ start a ≤ stop a) raw ∧ sorted raw)
  ∧ (∀ e pid i st anns txt st' wpp,
       getWordStandoff document e pid i st = Ok (anns, txt, st') →
       positionsdict st !! pid = Some wpp → 0 ≤ wpp →
       ∃ own fl1 rest,
         anns = own ++ rest
         ∧ Words (getelementpath document (pid ++ [i])) (pid ++ [i]) 0
             (enter_flag e (spaceEndPreviousTag st)) (own_text e) own fl1
         ∧ Forall (λ a, charged a = pid ++ [i]
                        ∧ 0 ≤ start a ∧ start a ≤ stop a
                        ∧ stop a < Str.len (own_text e)) own
         ∧ Forall (λ a, charged a = pid ++ [i] →
                        Str.len (own_text e) ≤ start a) rest).
Proof.
  split.
  - intros fl raw txt fl' (ktxt & st' & H & _)%document_raw_children.
    apply (proj2 (walk_placed document)) in H.
    destruct (H 0) as [Hp Hs]; [apply singleton_root|done|].
    split; [|done]. eapply Forall_impl; [exact Hp|].
    by intros a (?&?&_).
  - intros e pid i st anns txt st' wpp0.
    intros (wpp & own & fl1 & kids & ktxt & st2 & tls & fl3
            & Hwpp & Hown & Hkids & Htl & -> & _ & _)%getWordStandoff_Ok.
    intros Hw0 Hpos. rewrite Hwpp in Hw0. injection Hw0 as ->.
    exists own, fl1, (kids ++ tls). split_and!; [done|done|..].
    + apply words_placed in Hown; [|done].
      eapply Forall_impl; [exact Hown|]. cbn. intros a (?&?&?&?&?).
      split_and!; [done..|lia].
    + apply Forall_app. split.
      * apply (proj2 (walk_placed document)) in Hkids.
        destruct (Hkids (Str.len (own_text e))) as [Hp _];
          [apply lookup_insert_eq|apply StrFacts.len_nonneg|].
        eapply Forall_impl; [exact Hp|]. cbn.
        intros a (_&_&[(_&?&_)|(j'&_&Hpre)]) Ha; [done|].
        rewrite Ha in Hpre. apply prefix_snoc_length in Hpre. lia.
      * apply words_bounds in Htl.
        eapply Forall_impl; [exact Htl|]. cbn. intros a (Ha&_) Ha'.
        rewrite Ha in Ha'. exfalso.
        apply (prefix_snoc_not pid i). by rewrite <- Ha'.
Qed.

Lemma annotation_offsets_witness :
  Forall (λ a, 0 ≤ start a ∧ start a ≤ stop a)
    [Annotation false [0%nat] "p" 0 4; Annotation true [0%nat; 0%nat] "p/b" 0 4]
  ∧ sorted [Annotation false [0%nat] "p" 0 4;
            Annotation true [0%nat; 0%nat] "p/b" 0 4].
Proof.
  apply (proj1 (annotation_offsets example_A) None _ " Helloworld " (Some true)).
  reflexivity.
Defined.

(** ** Dropped children (C9) *)

Section Dropped.
Import Str StrFacts.

Variable document : node.

Lemma document_loop_acc cs j acc st :
  document_loop document cs j acc st =
    let* (r, st') := document_loop document cs j ([], "") st in
    Ok (acc.1 ++ r.1, acc.2 +:+ r.2, st').
Proof.
  revert j acc st. induction cs as [|c cs IH]; intros j acc st.
  - rewrite !document_loop_nil. cbn. rewrite (right_id_L [] (++)), app_nil_r.
    by destruct acc.
  - rewrite !document_loop_cons. destruct (rendered c); [|apply IH].
    destruct (getWordStandoff document c [] j st) as [[[a t] st1]|]; [|done].
    cbn [bind fst snd]. destruct a as [|a0 a]; [apply IH|].
    rewrite IH. rewrite (IH _ ([] ++ _, _)).
    destruct (document_loop document cs (S j) ([], "") st1)
      as [[[a' t'] st2]|]; [|done].
    cbn. by rewrite !app_assoc, app_comm_cons, (assoc_L (++)).
Qed.

Lemma document_loop_app pre cs j acc st :
  document_loop document (pre ++ cs) j acc st =
    let* (acc1, st1) := document_loop document pre j acc st in
    document_loop document cs (j + length pre) acc1 st1.
Proof.
  revert j acc st. induction pre as [|c pre IH]; intros j acc st.
  - cbn. by rewrite Nat.add_0_r.
  - cbn [app]. rewrite !document_loop_cons.
    replace (j + length (c :: pre))%nat with (S j + length pre)%nat by (cbn; lia).
    destruct (rendered c); [|apply IH].
    destruct (getWordStandoff document c [] j st) as [[[a t] st1]|]; [|done].
    cbn [bind fst snd]. destruct a; apply IH.
Qed.

End Dropped.

(** C9: a top-level element whose visit gives no annotation adds nothing
    to the text of the document: the text is what the elements before it
    gave, followed by what the elements after it give, and its own text,
    the spaces of a block element included, is not part of it. *)
Theorem dropped_child_text document pre c post fl raw txt fl' A1 T1 st1 t st2 :
  children document = pre ++ c :: post →
  rendered c = true →
  document_raw document fl = Ok (raw, txt, fl') →
  document_loop document pre 0 ([], "") (State fl {[ [] := 0 ]}) = Ok (A1, T1, st1) →
  getWordStandoff document c [] (length pre) st1 = Ok ([], t, st2) →
  ∃ A2 T2 st3,
    document_loop document post (S (length pre)) ([], "") st2 = Ok (A2, T2, st3)
    ∧ raw = A1 ++ A2 ∧ txt = T1 +:+ T2 ∧ fl' = spaceEndPreviousTag st3.
Proof.
  intros Hcs Hr Hraw Hpre Hc. revert Hraw. unfold document_raw. cbn zeta.
  rewrite Hcs, document_loop_app, Hpre. cbn [bind Nat.add].
  rewrite document_loop_cons, Hr, Hc. cbn [bind].
  rewrite document_loop_acc.
  destruct (document_loop document post (S (length pre)) ([], "") st2)
    as [[[A2 T2] st3]|]; [|done].
  cbn. intros [= <- <- <-]. by exists A2, T2, st3.
Qed.

Lemma dropped_child_text_witness :
  ∃ A2 T2 st3,
    document_loop example_dropped_block [elem "p" (Some "b") [] None] 2
      ([], "") (State (Some true) {[ [] := 0; [0%nat] := 1; [1%nat] := 1 ]})
    = Ok (A2, T2, st3)
    ∧ [Annotation false [0%nat] "p[1]" 0 0; Annotation false [2%nat] "p[2]" 0 0]
      = [Annotation false [0%nat] "p[1]" 0 0] ++ A2
    ∧ " a  b " = " a " +:+ T2 ∧ Some true = spaceEndPreviousTag st3.
Proof.
  eapply (dropped_child_text example_dropped_block
            [elem "p" (Some "a") [] None] (elem "div" (Some " ") [] None)
            [elem "p" (Some "b") [] None] None _ _ _ _ _ _ "   ").
  - reflexivity.
  - reflexivity.
  - reflexivity.
  - vm_compute. reflexivity.
  - vm_compute. reflexivity.
Defined.

(** ** The unbound flag (C10) *)

(** C10: [main] binds a local of its own, so the global is unbound until
    a visit assigns it; a visit that is entered with the global unbound
    and whose element is inline with a text that starts with a word
    raises [NameError] at the test of line 82. *)
Theorem unbound_flag_raises document e s pid i m :
  is_inline (tag e) = true → text e = Some s → starts_word s = true →
  is_Some (m !! pid) →
  getWordStandoff document e pid i (State None m) = Raise NameError.
Proof.
  intros Hinl Htext Hword [v Hv]. rewrite getWordStandoff_eq. cbn zeta.
  cbn [positionsdict spaceEndPreviousTag]. rewrite Hv. cbn [bind].
  unfold text_part. rewrite Htext, Hinl.
  pose proof (word_loop_re_split (getelementpath document (pid ++ [i]))
                (pid ++ [i]) s 0 None []) as HW.
  rewrite Hword in HW. cbn in HW. by rewrite HW.
Qed.

Lemma unbound_flag_raises_witness :
  getWordStandoff example_A (elem "b" (Some "world") [] None) [0%nat] 0
    (State None {[ [0%nat] := 5 ]})
  = Raise NameError.
Proof.
  apply (unbound_flag_raises example_A (elem "b" (Some "world") [] None)
           "world" [0%nat] 0%nat {[ [0%nat] := 5 ]}).
  - reflexivity.
  - reflexivity.
  - reflexivity.
  - eexists. apply lookup_singleton_eq.
Defined.

(** ** Block boundaries (C2) *)

(** C2: the space before the content of a block element and the
    assignment of the flag sit under the test of line 66, so a block
    element without a text gets neither.  On the page
    [<b>x</b><div><b>c</b></div>] the word of the [div] is glued to the
    word before it and the text reads [xc], whatever the flag is at the
    start; the space that closes a block is there. *)
Theorem block_without_text fl :
  getDocumentStandoff example_block_page fl
  = Ok (["body/b:0-0+body/div/b:0-0"], "xc  ", Some true).
Proof. destruct fl as [[]|]; vm_compute; reflexivity. Qed.

(** ** Sibling boundaries (C3) *)

(** C3, as amended: after a block element without a word in its tail the
    first word of the next element is never marked; after an element that
    gave some text, the first word of the next element is marked exactly
    when that text does not end in whitespace and the text of the next
    element does not start with whitespace. *)
Theorem sibling_boundary document e1 e2 pid i j st a1 t1 st1 a a2 t2 st2 :
  getWordStandoff document e1 pid i st = Ok (a1, t1, st1) →
  getWordStandoff document e2 pid j st1 = Ok (a :: a2, t2, st2) →
  (is_inline (tag e1) = false → word_in (tail e1) = false →
     plusprevious a = false)
  ∧ (t1 ≠ "" →
       (plusprevious a = true
        ↔ Str.ends_space t1 = false ∧ Str.starts_space t2 = false)).
Proof.
  intros H1 H2. apply getWordStandoff_scan in H2 as HS2.
  apply scan_first in HS2. split.
  - intros Hb Htl.
    rewrite (getWordStandoff_block_flag _ _ _ _ _ _ _ _ H1 Hb Htl) in HS2.
    destruct (plusprevious a); [|done]. by destruct (proj1 HS2).
  - intros Ht1. apply getWordStandoff_scan, scan_flag in H1 as Hfl.
    apply StrFacts.is_empty_false in Ht1. rewrite Ht1 in Hfl.
    rewrite HS2, Hfl. split.
    + by intros [[= ->] ?].
    + by intros [-> ?].
Qed.

Lemma sibling_boundary_witness :
  (is_inline (tag (elem "b" (Some "x") [] None)) = false →
     word_in (tail (elem "b" (Some "x") [] None)) = false →
     plusprevious (Annotation true [1%nat] "i" 0 0) = false)
  ∧ ("x" ≠ "" →
       (plusprevious (Annotation true [1%nat] "i" 0 0) = true
        ↔ Str.ends_space "x" = false ∧ Str.starts_space "y" = false)).
Proof.
  apply (sibling_boundary example_inline_pair
           (elem "b" (Some "x") [] None) (elem "i" (Some "y") [] None)
           [] 0 1 (State (Some true) {[ [] := 0 ]})
           [Annotation false [0%nat] "b" 0 0] "x"
           (State (Some false) {[ [] := 0; [0%nat] := 1 ]})
           (Annotation true [1%nat] "i" 0 0) [] "y"
           (State (Some false) {[ [] := 0; [0%nat] := 1; [1%nat] := 1 ]})).
  - vm_compute. reflexivity.
  - vm_compute. reflexivity.
Defined.

(** C3 as stated fails: [x] has no trailing whitespace, and [y] is not
    marked, because of the space that [i] starts with. *)
Lemma sibling_boundary_counterexample :
  ¬ (∀ document e1 e2 pid i j st a1 t1 st1 a a2 t2 st2,
       is_inline (tag e1) = true → is_inline (tag e2) = true →
       tail e1 = None →
       getWordStandoff document e1 pid i st = Ok (a1, t1, st1) →
       getWordStandoff document e2 pid j st1 = Ok (a :: a2, t2, st2) →
       (plusprevious a = true ↔ Str.ends_space t1 = false)).
Proof.
  intros H.
  pose proof (H example_inline_space
                (elem "b" (Some "x") [] None) (elem "i" (Some " y") [] None)
                [] 0%nat 1%nat (State (Some true) {[ [] := 0 ]})
                [Annotation false [0%nat] "b" 0 0] "x"
                (State (Some false) {[ [] := 0; [0%nat] := 1 ]})
                (Annotation false [1%nat] "i" 1 1) [] " y"
                (State (Some false) {[ [] := 0; [0%nat] := 1; [1%nat] := 2 ]})
                eq_refl eq_refl eq_refl) as [_ Hplus].
  - by vm_compute.
  - by vm_compute.
  - by specialize (Hplus eq_refl).
Qed.

(** ** Tails of skipped nodes (C8) *)

Section Skipped.
Import Str StrFacts.

Lemma drop_skipped_tails_eq n :
  drop_skipped_tails n
  = Node (kind n) (tag n) (text n) (tail n) (drop_child <$> children n).
Proof. by destruct n. Qed.

Lemma drop_child_kind c : kind (drop_child c) = kind c.
Proof. unfold drop_child. destruct (rendered c), c; done. Qed.

Lemma drop_child_tag c : tag (drop_child c) = tag c.
Proof. unfold drop_child. destruct (rendered c), c; done. Qed.

Lemma drop_child_rendered c : rendered (drop_child c) = rendered c.
Proof. unfold rendered. by rewrite drop_child_kind, drop_child_tag. Qed.

Lemma drop_child_same_tag t c : same_tag t (drop_child c) = same_tag t c.
Proof. unfold same_tag. by rewrite drop_child_kind, drop_child_tag. Qed.

Lemma path_step_drop cs i c :
  path_step (drop_child <$> cs) i (drop_child c) = path_step cs i c.
Proof.
  unfold path_step. rewrite drop_child_tag.
  rewrite <- fmap_take, <- fmap_drop.
  assert (∀ l, length (filter (λ m, same_tag (tag c) m = true) (drop_child <$> l))
               = length (filter (λ m, same_tag (tag c) m = true) l)) as ->.
  { induction l as [|x l IH]; [done|]. cbn [fmap list_fmap].
    rewrite !filter_cons, drop_child_same_tag.
    destruct (decide _); cbn; by rewrite IH. }
  assert (∀ l, existsb (same_tag (tag c)) (drop_child <$> l)
               = existsb (same_tag (tag c)) l) as ->; [|done].
  induction l as [|x l IH]; [done|]. cbn. by rewrite drop_child_same_tag, IH.
Qed.

Lemma path_steps_drop id :
  ∀ n, path_steps (drop_skipped_tails n) id = path_steps n id
       ∧ path_steps (clear_tail n) id = path_steps n id.
Proof.
  induction id as [|i id IH]; intros n; [done|].
  split.
  - rewrite drop_skipped_tails_eq. cbn [path_steps children].
    rewrite list_lookup_fmap. destruct (children n !! i) as [c|]; [|done].
    cbn. rewrite path_step_drop. f_equal.
    unfold drop_child. destruct (rendered c); apply IH.
  - by destruct n.
Qed.

Lemma getelementpath_drop document id :
  getelementpath (drop_skipped_tails document) id = getelementpath document id.
Proof. unfold getelementpath. by rewrite (proj1 (path_steps_drop id document)). Qed.

Variable document : node.

Lemma text_part_drop e eid fl :
  text_part (drop_skipped_tails document) (drop_skipped_tails e) eid fl
  = text_part document e eid fl.
Proof.
  unfold text_part. rewrite getelementpath_drop. by destruct e.
Qed.

Lemma tail_part_drop e pid v acc st :
  tail_part (drop_skipped_tails document) (drop_skipped_tails e) pid v acc st
  = tail_part document e pid v acc st.
Proof.
  unfold tail_part. rewrite getelementpath_drop. by destruct e.
Qed.

Lemma end_part_drop e txt fl :
  end_part (drop_skipped_tails e) txt fl = end_part e txt fl.
Proof. by destruct e. Qed.

Lemma getWordStandoff_drop e :
  ∀ pid i st,
    getWordStandoff (drop_skipped_tails document) (drop_skipped_tails e) pid i st
    = getWordStandoff document e pid i st.
Proof.
  induction e as [k t tx tl cs IH] using node_ind. intros pid i st.
  set (e := Node k t tx tl cs).
  rewrite !getWordStandoff_eq. cbn zeta.
  destruct (positionsdict st !! pid) as [wpp|]; [|done]. cbn [bind].
  rewrite text_part_drop.
  destruct (text_part document e (pid ++ [i]) (spaceEndPreviousTag st))
    as [[txt c]|]; [|done]. cbn [bind].
  assert (∀ j acc st,
            children_loop (drop_skipped_tails document) (pid ++ [i])
              (drop_child <$> cs) j acc st
            = children_loop document (pid ++ [i]) cs j acc st) as Hloop.
  { clear -IH. induction IH as [|c cs Hc _ IHcs]; intros j acc st; [done|].
    cbn [fmap list_fmap]. rewrite !children_loop_cons, drop_child_rendered.
    destruct (rendered c) eqn:Hr; [|apply IHcs].
    unfold drop_child at 1. rewrite Hr, Hc.
    destruct (getWordStandoff document c (pid ++ [i]) j st)
      as [[[a1 t1] st1]|]; [|done].
    cbn [bind]. apply IHcs. }
  change (children (drop_skipped_tails e)) with (drop_child <$> cs).
  change (children e) with cs. rewrite Hloop.
  destruct (children_loop document (pid ++ [i]) cs 0 (standoff c, txt) _)
    as [[acc st2]|]; [|done]. cbn [bind].
  rewrite end_part_drop. destruct (end_part e acc.2 _) as [txt' fl].
  apply tail_part_drop.
Qed.

Lemma document_loop_drop cs j acc st :
  document_loop (drop_skipped_tails document) (drop_child <$> cs) j acc st
  = document_loop document cs j acc st.
Proof.
  revert j acc st. induction cs as [|c cs IH]; intros j acc st; [done|].
  cbn [fmap list_fmap]. rewrite !document_loop_cons, drop_child_rendered.
  destruct (rendered c) eqn:Hr; [|apply IH].
  unfold drop_child at 1. rewrite Hr, getWordStandoff_drop.
  destruct (getWordStandoff document c [] j st) as [[[a1 t1] st1]|]; [|done].
  cbn [bind]. destruct a1; apply IH.
Qed.

End Skipped.

(** C8: the tail of a node that the loops skip, a [script] or [style]
    element or a node that is not an element, adds neither characters nor
    annotations: the result for a document is the result for the document
    without these tails. *)
Theorem skipped_tail_ignored (document : node) (fl : option bool) :
  getDocumentStandoff (drop_skipped_tails document) fl
  = getDocumentStandoff document fl.
Proof.
  unfold getDocumentStandoff, document_raw. cbn zeta.
  rewrite (drop_skipped_tails_eq document) at 2. cbn [children].
  by rewrite document_loop_drop.
Qed.

Example example_skipped_standoff :
  getDocumentStandoff example_skipped None
  = Ok (["p:0-0+p/b:0-0"], " av ", Some true).
Proof. reflexivity. Qed.

(** ** Records one after the other (C5) *)

Section Independence.
Import Str StrFacts.

Variable document : node.

Lemma agree_bind u1 u2 fl1 fl2 r1 r2
    (k : list annotation * string * state →
         result (list annotation * string * state)) :
  agree u1 fl1 fl2 r1 r2 →
  (∀ a t m f1 f2, agree u2 f1 f2 (k (a, t, State f1 m)) (k (a, t, State f2 m))) →
  agree (then_use u1 u2) fl1 fl2 (bind r1 k) (bind r2 k).
Proof.
  intros H1 H2. destruct u1; cbn in *; [done|by subst|].
  destruct H1 as ([[[a t] m]|x] & -> & ->); cbn; [apply H2|].
  destruct u2; cbn; [done|done|]. by exists (Raise x).
Qed.

Lemma word_loop_space p nid s :
  ∀ cur wp fw fl fw2 fl2 acc,
    cur ≠ "" → all_space cur = true →
    word_loop p nid (split_go s cur true) (Cursor wp fw fl acc)
    = word_loop p nid (split_go s cur true) (Cursor wp fw2 fl2 acc).
Proof.
  induction s as [|c s IH]; intros cur wp fw fl fw2 fl2 acc Hne Hall.
  - cbn [split_go word_loop]. by rewrite (isspace_all_space _ Hne Hall).
  - cbn [split_go]. destruct (is_space c) eqn:Hc.
    + apply IH; [apply snoc_ne|by apply all_space_snoc].
    + cbn [word_loop]. by rewrite (isspace_all_space _ Hne Hall).
Qed.

Lemma word_loop_starts_space p nid t wp fl fl2 acc :
  starts_space t = true →
  word_loop p nid (re_split t) (Cursor wp true fl acc)
  = word_loop p nid (re_split t) (Cursor wp true fl2 acc).
Proof.
  destruct t as [|c t]; [done|]. cbn. intros Hc.
  unfold re_split. cbn [split_go]. rewrite Hc. cbn [word_loop isspace is_empty].
  apply word_loop_space; [done|]. cbn. by rewrite Hc.
Qed.

Lemma getWordStandoff_stages e pid i st :
  getWordStandoff document e pid i st =
    let* wpp :=
      match positionsdict st !! pid with
      | Some v => Ok v
      | None => Raise KeyError
      end in
    let* r := text_stage document e (pid ++ [i]) st in
    let* r2 := children_loop document (pid ++ [i]) (children e) 0%nat r.1 r.2 in
    end_stage document e pid wpp r2.
Proof.
  rewrite getWordStandoff_eq. cbn zeta. unfold text_stage, end_stage.
  destruct (positionsdict st !! pid); [|done]. cbn [bind].
  destruct (text_part _ _ _ _) as [[txt c]|]; [|done]. cbn [bind fst snd].
  by destruct (children_loop _ _ _ _ _ _) as [[[a t] st2]|].
Qed.

Lemma text_stage_agree e eid fl1 fl2 m :
  agree (then_use (enter_use e) (text_use (text e))) fl1 fl2
    (text_stage document e eid (State fl1 m)) (text_stage document e eid (State fl2 m)).
Proof.
  unfold text_stage, text_part, enter_use, text_use. cbn [spaceEndPreviousTag].
  destruct (text e) as [s|]; cbn.
  - destruct (is_inline (tag e)); cbn; [|done].
    destruct (is_empty s) eqn:Hs.
    + apply is_empty_true in Hs as ->. cbn.
      by exists (Ok ([], "", <[eid := 0]> m)).
    + destruct (starts_space s) eqn:Hsp; cbn; [|done].
      by rewrite (word_loop_starts_space _ _ _ _ fl1 fl2).
  - by exists (Ok ([], "", <[eid := 0]> m)).
Qed.

Lemma end_stage_agree e pid wpp a t fl1 fl2 m :
  agree (then_use (close_use e) (text_use (tail e))) fl1 fl2
    (end_stage document e pid wpp (a, t, State fl1 m))
    (end_stage document e pid wpp (a, t, State fl2 m)).
Proof.
  unfold end_stage, close_use, tail_part, text_use. rewrite !end_part_eq.
  unfold leave_flag, trail. cbn [fst snd spaceEndPreviousTag positionsdict].
  destruct (closes e); cbn [then_use]; [done|].
  destruct (tail e) as [s|]; cbn.
  - destruct (is_empty s) eqn:Hs.
    + apply is_empty_true in Hs as ->. cbn.
      by exists (Ok (a, (t +:+ "") +:+ "", <[pid := wpp]> m)).
    + destruct (starts_space s) eqn:Hsp; cbn; [|done].
      by rewrite (word_loop_starts_space _ _ _ _ fl1 fl2).
  - by exists (Ok (a, t +:+ "", m)).
Qed.

Lemma first_use_eq e :
  first_use e
  = then_use (then_use (enter_use e) (text_use (text e)))
      (then_use (loop_use (children e))
         (then_use (close_use e) (text_use (tail e)))).
Proof. destruct e as [k t tx tl cs]. cbn. by destruct (enter_use _). Qed.

Lemma agree_raise u fl1 fl2 x : agree u fl1 fl2 (Raise x) (Raise x).
Proof. destruct u; cbn; [done|done|]. by exists (Raise x). Qed.

Lemma getWordStandoff_agree e :
  ∀ pid i fl1 fl2 m,
    agree (first_use e) fl1 fl2
      (getWordStandoff document e pid i (State fl1 m))
      (getWordStandoff document e pid i (State fl2 m)).
Proof.
  induction e as [k t tx tl cs IH] using node_ind. intros pid i fl1 fl2 m.
  set (e := Node k t tx tl cs). rewrite first_use_eq, !getWordStandoff_stages.
  cbn zeta. cbn [positionsdict].
  destruct (m !! pid) as [wpp|]; [|apply agree_raise]. cbn [bind].
  apply agree_bind; [apply text_stage_agree|].
  intros a1 t1 m1 f1 f2. cbn [fst snd].
  apply agree_bind; [|intros; apply end_stage_agree].
  change (children e) with cs. generalize 0%nat. clear -IH.
  revert a1 t1 m1 f1 f2.
  induction IH as [|c cs Hc _ IHcs]; intros a1 t1 m1 f1 f2 j.
  - rewrite !children_loop_nil. cbn. by exists (Ok (a1, t1, m1)).
  - rewrite !children_loop_cons. cbn [loop_use].
    destruct (rendered c); [|apply IHcs].
    apply agree_bind; [apply Hc|].
    intros. apply IHcs.
Qed.

Lemma document_loop_agree cs :
  ∀ j A T fl1 fl2 m,
    agree (loop_use cs) fl1 fl2
      (document_loop document cs j (A, T) (State fl1 m))
      (document_loop document cs j (A, T) (State fl2 m)).
Proof.
  induction cs as [|c cs IH]; intros j A T fl1 fl2 m.
  - rewrite !document_loop_nil. cbn. by exists (Ok (A, T, m)).
  - rewrite !document_loop_cons. cbn [loop_use].
    destruct (rendered c); [|apply IH].
    apply agree_bind; [apply getWordStandoff_agree|].
    intros a t m' f1 f2. cbn [fst snd]. destruct a; apply IH.
Qed.

End Independence.

Lemma getDocumentStandoff_output document fl1 fl2 :
  loop_use (children document) ≠ Reads →
  output (getDocumentStandoff document fl1)
  = output (getDocumentStandoff document fl2).
Proof.
  intros Huse. unfold getDocumentStandoff, document_raw. cbn zeta.
  pose proof (document_loop_agree document (children document) 0%nat [] ""
                fl1 fl2 {[ [] := 0 ]}) as H.
  destruct (loop_use (children document)); [done|by rewrite H|].
  destruct H as ([[[A T] m]|x] & -> & ->); [|done]. cbn.
  by destruct (glue (render <$> A)).
Qed.

Lemma main_loop_lookup before d rest fl o :
  (main_loop (before ++ d :: rest) fl).1 !! length before = Some o →
  ∃ fl', output (getDocumentStandoff d fl') = Ok o.
Proof.
  revert fl. induction before as [|b before IH]; intros fl.
  - cbn [app length main_loop].
    destruct (getDocumentStandoff d fl) as [[[s t] fl']|] eqn:E; [|done].
    destruct (main_loop rest fl') as [out e]. cbn. intros [= <-].
    exists fl. by rewrite E.
  - cbn [app length main_loop].
    destruct (getDocumentStandoff b fl) as [[[s t] fl']|]; [|done].
    specialize (IH fl'). destruct (main_loop (before ++ d :: rest) fl') as [out e].
    cbn in *. done.
Qed.

Lemma all_block_eq n :
  all_block n = negb (is_inline (tag n)) && all_blocks (children n).
Proof. by destruct n. Qed.

Lemma all_blocks_loop_use cs :
  Forall (λ c, all_block c = true → first_use c = Assigns) cs →
  all_blocks cs = true → loop_use cs ≠ Reads.
Proof.
  induction 1 as [|c cs Hc _ IH]; [done|]. cbn.
  destruct (rendered c); [|done].
  intros [H1 H2]%andb_true_iff. by rewrite (Hc H1).
Qed.

(** A block element with block elements only below it assigns the flag
    before anything reads it: at its text, or in its first rendered
    child, or when it closes. *)
Lemma all_block_first_use n : all_block n = true → first_use n = Assigns.
Proof.
  induction n as [k t tx tl cs IH] using node_ind.
  rewrite all_block_eq, first_use_eq. cbn [tag children text tail].
  intros [Hb Hcs]%andb_true_iff. apply negb_true_iff in Hb.
  pose proof (all_blocks_loop_use cs IH Hcs) as Hloop.
  unfold enter_use, close_use, closes. cbn [tag text]. rewrite Hb.
  destruct tx as [s|]; [done|]. cbn.
  by destruct (loop_use cs).
Qed.

Lemma first_rendered_loop_use cs h :
  first_rendered cs = Some h → first_use h = Assigns → loop_use cs = Assigns.
Proof.
  intros Hh Hu. induction cs as [|c cs IH]; [done|]. cbn in *.
  destruct (rendered c); [|auto]. injection Hh as ->. by rewrite Hu.
Qed.

Lemma head_first_loop_use d :
  head_first d = true → loop_use (children d) = Assigns.
Proof.
  unfold head_first. destruct (first_rendered (children d)) as [h|] eqn:Hh; [|done].
  intros [_ Hb]%andb_true_iff.
  eapply first_rendered_loop_use; [done|]. by apply all_block_first_use.
Qed.

(** C5: line 179 hands [getDocumentStandoff] parsed pages; their first
    element is [head], which assigns the flag before anything reads it.
    The positions are made afresh for every record, and the flag that
    the records before have left is never read: the annotations and the
    text of a record are the same whatever that flag is, hence whatever
    records were processed before. *)
Theorem record_independence (d : node) :
  head_first d = true →
  (∀ fl1 fl2,
     output (getDocumentStandoff d fl1) = output (getDocumentStandoff d fl2))
  ∧ (∀ before1 before2 rest1 rest2 o1 o2,
       (main (before1 ++ d :: rest1)).1 !! length before1 = Some o1 →
       (main (before2 ++ d :: rest2)).1 !! length before2 = Some o2 →
       o1 = o2).
Proof.
  intros Hd.
  assert (loop_use (children d) ≠ Reads) as Huse
    by (by rewrite head_first_loop_use).
  split; [intros; by apply getDocumentStandoff_output|].
  intros before1 before2 rest1 rest2 o1 o2.
  intros [f1 H1]%main_loop_lookup [f2 H2]%main_loop_lookup.
  rewrite (getDocumentStandoff_output d f1 f2 Huse), H2 in H1. by injection H1.
Qed.

Lemma record_independence_witness :
  head_first example_page = true
  ∧ output (getDocumentStandoff example_page None)
    = output (getDocumentStandoff example_page (Some false))
  ∧ (main ([] ++ example_page :: [])).1 !! 0%nat
    = (main ([example_block_page] ++ example_page :: [example_A])).1 !! 1%nat.
Proof.
  split; [reflexivity|].
  pose proof (record_independence example_page eq_refl) as [H1 H2].
  split; [apply H1|].
  assert (∃ o, (main ([] ++ example_page :: [])).1 !! 0%nat = Some o) as [o1 Ho1]
    by (eexists; vm_compute; reflexivity).
  assert (∃ o, (main ([example_block_page] ++ example_page :: [example_A])).1
               !! 1%nat = Some o) as [o2 Ho2]
    by (eexists; vm_compute; reflexivity).
  rewrite Ho1, Ho2. f_equal.
  exact (H2 [] [example_block_page] [] [example_A] o1 o2 Ho1 Ho2).
Defined.

(** * Further properties of the walk and of the glue pass *)

(** ** Exceptions *)

Section Exceptions.
Import Str StrFacts.

Variable document : node.

Lemma word_loop_raises p nid t wp fl acc x :
  word_loop p nid (re_split t) (Cursor wp true fl acc) = Raise x →
  x = NameError ∧ fl = None.
Proof.
  pose proof (word_loop_re_split p nid t wp fl acc) as H.
  destruct (starts_word t && bool_decide (fl = None)) eqn:E.
  - rewrite H. intros [= <-]. split; [done|].
    apply andb_true_iff in E as [_ E]. by apply bool_decide_eq_true in E.
  - destruct H as (news & fw' & fl' & -> & _). done.
Qed.

Lemma text_part_raises e eid fl x :
  text_part document e eid fl = Raise x → x = NameError.
Proof.
  unfold text_part. destruct (text e) as [t|]; [|done].
  destruct (is_inline (tag e)).
  - destruct (word_loop _ _ _ _) eqn:E; [done|].
    cbn. intros [= <-]. by apply word_loop_raises in E as [? _].
  - destruct (word_loop _ _ _ _) eqn:E; [done|].
    cbn. intros [= <-]. by apply word_loop_raises in E as [? _].
Qed.

Lemma tail_part_raises e pid v acc st x :
  tail_part document e pid v acc st = Raise x → x = NameError.
Proof.
  unfold tail_part. destruct (tail e) as [t|]; [|done].
  destruct (word_loop _ _ _ _) eqn:E; [done|].
  cbn. intros [= <-]. by apply word_loop_raises in E as [? _].
Qed.

(** With the parent in the dictionary, the only exception of a visit is
    [NameError]. *)
Lemma getWordStandoff_raises e :
  ∀ pid i st x,
    is_Some (positionsdict st !! pid) →
    getWordStandoff document e pid i st = Raise x → x = NameError.
Proof.
  induction e as [k t tx tl cs IH] using node_ind.
  intros pid i st x [wpp Hwpp]. set (e := Node k t tx tl cs).
  rewrite getWordStandoff_eq. cbn zeta. rewrite Hwpp. cbn [bind].
  destruct (text_part document e (pid ++ [i]) (spaceEndPreviousTag st))
    as [[txt c]|y] eqn:Et; [|intros [= <-]; by eapply text_part_raises].
  cbn [bind].
  assert (∀ cs j acc st x,
            Forall (λ e, ∀ pid i st x,
              is_Some (positionsdict st !! pid) →
              getWordStandoff document e pid i st = Raise x → x = NameError) cs →
            is_Some (positionsdict st !! (pid ++ [i])) →
            children_loop document (pid ++ [i]) cs j acc st = Raise x →
            x = NameError) as Hloop.
  { clear. intros cs. induction cs as [|c cs IHcs]; intros j acc st x HF Hm; [done|].
    apply Forall_cons in HF as [Hc HF]. rewrite children_loop_cons.
    destruct (rendered c); [|by apply IHcs].
    destruct (getWordStandoff document c (pid ++ [i]) j st)
      as [[[a1 t1] st1]|y] eqn:E; cbn [bind].
    - apply IHcs; [done|].
      apply getWordStandoff_positions in E as (v & _ & -> & _). done.
    - intros [= <-]. by eapply Hc. }
  change (children e) with cs.
  destruct (children_loop document (pid ++ [i]) cs 0 (standoff c, txt) _)
    as [[acc st2]|y] eqn:Ek; cbn [bind].
  - rewrite end_part_eq. apply tail_part_raises.
  - intros [= <-]. eapply Hloop; [done| |done]. cbn. by rewrite lookup_insert_eq.
Qed.

Lemma document_loop_returns cs :
  ∀ j acc st,
    is_Some (spaceEndPreviousTag st) → is_Some (positionsdict st !! []) →
    ∃ acc' st', document_loop document cs j acc st = Ok (acc', st')
                ∧ is_Some (spaceEndPreviousTag st').
Proof.
  induction cs as [|c cs IH]; intros j acc st Hfl Hm.
  - rewrite document_loop_nil. by eexists _, _.
  - rewrite document_loop_cons. destruct (rendered c); [|by apply IH].
    destruct (getWordStandoff_returns document c [] j st Hfl Hm)
      as (a1 & t1 & st1 & -> & Hfl1 & Hm1).
    cbn [bind]. destruct a1; apply IH; auto.
Qed.

Lemma document_loop_raises cs :
  ∀ j acc st x,
    is_Some (positionsdict st !! []) →
    document_loop document cs j acc st = Raise x → x = NameError.
Proof.
  induction cs as [|c cs IH]; intros j acc st x Hm; [done|].
  rewrite document_loop_cons. destruct (rendered c); [|by apply IH].
  destruct (getWordStandoff document c [] j st) as [[[a1 t1] st1]|y] eqn:E;
    cbn [bind].
  - apply getWordStandoff_positions in E as (v & _ & Hv & _).
    destruct a1; apply IH; by rewrite Hv.
  - intros [= <-]. by eapply getWordStandoff_raises.
Qed.

Lemma glue_render_returns raw : ∃ g, glue (render <$> raw) = Ok g.
Proof.
  eexists. apply glue_glue_spec.
  apply Forall_fmap, Forall_forall. intros a _. apply render_not_empty.
Qed.

End Exceptions.

(** X1: a visit raises [KeyError] exactly when the parent is not in the
    dictionary, at line 64 before anything else is done; it raises
    [NameError] only when it is entered with the flag unbound; and it
    never raises [IndexError]. *)
Theorem getWordStandoff_exceptions document e pid i st :
  (positionsdict st !! pid = None
   ↔ getWordStandoff document e pid i st = Raise KeyError)
  ∧ (getWordStandoff document e pid i st = Raise NameError →
       spaceEndPreviousTag st = None)
  ∧ getWordStandoff document e pid i st ≠ Raise IndexError.
Proof.
  assert (positionsdict st !! pid = None →
          getWordStandoff document e pid i st = Raise KeyError) as Hkey.
  { intros Hm. rewrite getWordStandoff_eq. cbn zeta. by rewrite Hm. }
  assert (∀ x, is_Some (positionsdict st !! pid) →
               getWordStandoff document e pid i st = Raise x →
               x = NameError ∧ spaceEndPreviousTag st = None) as Hname.
  { intros x Hm Hx. split; [by eapply getWordStandoff_raises|].
    destruct (spaceEndPreviousTag st) as [b|] eqn:Hfl; [|done].
    destruct (getWordStandoff_returns document e pid i st)
      as (? & ? & ? & H & _); [by rewrite Hfl|done|].
    by rewrite H in Hx. }
  split_and!.
  - split; [done|]. intros Hx.
    destruct (positionsdict st !! pid) as [v|] eqn:Hm; [|done].
    by destruct (Hname KeyError (mk_is_Some _ _ eq_refl) Hx).
  - intros Hx. destruct (positionsdict st !! pid) as [v|] eqn:Hm.
    + by destruct (Hname NameError (mk_is_Some _ _ eq_refl) Hx).
    + by rewrite (Hkey eq_refl) in Hx.
  - intros Hx. destruct (positionsdict st !! pid) as [v|] eqn:Hm.
    + by destruct (Hname IndexError (mk_is_Some _ _ eq_refl) Hx).
    + by rewrite (Hkey eq_refl) in Hx.
Qed.

Lemma getWordStandoff_exceptions_witness :
  getWordStandoff example_A example_A_p [0%nat] 0 (State None {[ [] := 0 ]})
  = Raise KeyError
  ∧ spaceEndPreviousTag (State None {[ [] := 0 ]}) = None.
Proof.
  pose proof (getWordStandoff_exceptions example_A example_A_p [0%nat] 0
                (State None {[ [] := 0 ]})) as [H1 _].
  pose proof (getWordStandoff_exceptions example_A
                (elem "b" (Some "world") [] None) [] 0
                (State None {[ [] := 0 ]})) as (_ & H2 & _).
  split; [apply H1; reflexivity|apply H2; reflexivity].
Defined.

Lemma getDocumentStandoff_bound document b :
  ∃ glued txt b',
    getDocumentStandoff document (Some b) = Ok (glued, txt, Some b').
Proof.
  unfold getDocumentStandoff, document_raw. cbn zeta.
  destruct (document_loop_returns document (children document) 0%nat ([], "")
              (State (Some b) {[ [] := 0 ]}))
    as ([A T] & st' & -> & [b' Hb']); [done|eexists; apply singleton_root|].
  cbn. destruct (glue_render_returns A) as [g ->]. cbn. rewrite Hb'.
  by eexists _, _, _.
Qed.

Lemma getDocumentStandoff_raises document fl x :
  getDocumentStandoff document fl = Raise x → x = NameError ∧ fl = None.
Proof.
  intros H. split.
  - revert H. unfold getDocumentStandoff, document_raw. cbn zeta.
    destruct (document_loop _ _ _ _ _) as [[[A T] st']|y] eqn:E; cbn.
    + destruct (glue_render_returns A) as [g ->]. done.
    + intros [= <-]. eapply document_loop_raises; [|done].
      eexists. apply singleton_root.
  - destruct fl as [b|]; [|done].
    destruct (getDocumentStandoff_bound document b) as (? & ? & ? & H').
    congruence.
Qed.

(** X2: [getDocumentStandoff] never raises [KeyError], the root being in
    the dictionary from the start and every element before its children,
    and never [IndexError], no annotation of the walk being empty; it
    raises [NameError] only when it is entered with the flag unbound. *)
Theorem getDocumentStandoff_exceptions document fl :
  getDocumentStandoff document fl ≠ Raise KeyError
  ∧ getDocumentStandoff document fl ≠ Raise IndexError
  ∧ (getDocumentStandoff document fl = Raise NameError → fl = None).
Proof.
  split_and!.
  - by intros [? _]%getDocumentStandoff_raises.
  - by intros [? _]%getDocumentStandoff_raises.
  - by intros [_ ?]%getDocumentStandoff_raises.
Qed.

Lemma getDocumentStandoff_exceptions_witness :
  getDocumentStandoff example_inline_pair None = Raise NameError
  ∧ (None : option bool) = None.
Proof.
  split; [reflexivity|].
  apply (proj2 (proj2 (getDocumentStandoff_exceptions example_inline_pair None))).
  reflexivity.
Defined.

Lemma getDocumentStandoff_head_first document fl1 fl2 :
  head_first document = true →
  getDocumentStandoff document fl1 = getDocumentStandoff document fl2.
Proof.
  intros Hd. unfold getDocumentStandoff, document_raw. cbn zeta.
  pose proof (document_loop_agree document (children document) 0%nat [] ""
                fl1 fl2 {[ [] := 0 ]}) as H.
  rewrite (head_first_loop_use _ Hd) in H. cbn in H. by rewrite H.
Qed.

(** X3: on a page as line 179 hands it over, whose first element is
    [head], the flag is assigned before it is read: whatever the flag is
    at the start, unbound too, [getDocumentStandoff] raises no
    [NameError], and the flag is bound when it returns. *)
Theorem getDocumentStandoff_parsed document fl :
  head_first document = true →
  getDocumentStandoff document fl ≠ Raise NameError
  ∧ (∀ glued txt fl',
       getDocumentStandoff document fl = Ok (glued, txt, fl') → is_Some fl').
Proof.
  intros Hd. rewrite (getDocumentStandoff_head_first document fl (Some true) Hd).
  destruct (getDocumentStandoff_bound document true) as (g & t & b' & ->).
  split; [done|]. by intros ? ? ? [= _ _ <-].
Qed.

Lemma getDocumentStandoff_parsed_witness :
  getDocumentStandoff example_page None ≠ Raise NameError
  ∧ (∀ glued txt fl',
       getDocumentStandoff example_page None = Ok (glued, txt, fl') →
       is_Some fl').
Proof.
  apply (getDocumentStandoff_parsed example_page None). reflexivity.
Defined.

(** ** The flag and the positions after a visit *)

(** X4: after a visit that gave some text, the flag tells whether that
    text ends in whitespace; a visit that gave no text leaves the flag as
    it was. *)
Theorem getWordStandoff_flag document e pid i st anns txt st' :
  getWordStandoff document e pid i st = Ok (anns, txt, st') →
  spaceEndPreviousTag st'
  = if Str.is_empty txt then spaceEndPreviousTag st
    else Some (Str.ends_space txt).
Proof. intros H%getWordStandoff_scan. by eapply scan_flag. Qed.

Lemma getWordStandoff_flag_witness :
  getWordStandoff example_A example_A_p [] 0 (State None {[ [] := 0 ]})
  = Ok ([Annotation false [0%nat] "p" 0 4; Annotation true [0%nat; 0%nat] "p/b" 0 4],
        " Helloworld ",
        State (Some true) (<[ [0%nat; 0%nat] := 5 ]> (<[ [0%nat] := 5 ]> {[ [] := 0 ]})))
  ∧ Some true = if Str.is_empty " Helloworld " then None
                else Some (Str.ends_space " Helloworld ").
Proof.
  assert (getWordStandoff example_A example_A_p [] 0 (State None {[ [] := 0 ]})
          = Ok ([Annotation false [0%nat] "p" 0 4;
                 Annotation true [0%nat; 0%nat] "p/b" 0 4],
                " Helloworld ",
                State (Some true)
                  (<[ [0%nat; 0%nat] := 5 ]> (<[ [0%nat] := 5 ]> {[ [] := 0 ]}))))
    as H by (vm_compute; reflexivity).
  split; [exact H|].
  exact (getWordStandoff_flag _ _ _ _ _ _ _ _ H).
Defined.

(** X5: a visit moves the position of the parent forward by the length
    of the tail of the element, leaves for the element the length of its
    text and of the tails of its rendered children, and changes no
    position outside the parent and the tree of the element. *)
Theorem getWordStandoff_cursor document e pid i st anns txt st' :
  getWordStandoff document e pid i st = Ok (anns, txt, st') →
  ∃ wpp,
    positionsdict st !! pid = Some wpp
    ∧ positionsdict st' !! pid = Some (wpp + Str.len (tail_text e))
    ∧ positionsdict st' !! (pid ++ [i])
      = Some (Str.len (own_text e) + Str.len (tails (children e)))
    ∧ ∀ k, ¬ (pid ++ [i]) `prefix_of` k → k ≠ pid →
           positionsdict st' !! k = positionsdict st !! k.
Proof.
  intros (wpp & H1 & H2 & H3 & H4)%getWordStandoff_positions.
  exists wpp. split_and!; [done..| |done].
  by rewrite H3, StrFacts.len_app.
Qed.

Lemma getWordStandoff_cursor_witness :
  ∃ st' wpp,
    getWordStandoff example_A
      (elem "b" (Some "s") [] (Some "t x")) [0%nat] 0
      (State (Some true) {[ [0%nat] := 1; [7%nat] := 3 ]})
    = Ok ([Annotation false [0%nat; 0%nat] "p/b" 0 0;
           Annotation true [0%nat] "p" 1 1;
           Annotation false [0%nat] "p" 3 3], "s" +:+ "t x", st')
    ∧ ({[ [0%nat] := 1; [7%nat] := 3 ]} : gmap node_id Z) !! [0%nat] = Some wpp
    ∧ positionsdict st' !! [0%nat] = Some (wpp + 3)
    ∧ positionsdict st' !! [0%nat; 0%nat] = Some (1 + 0)
    ∧ ∀ k, ¬ [0%nat; 0%nat] `prefix_of` k → k ≠ [0%nat] →
           positionsdict st' !! k
           = ({[ [0%nat] := 1; [7%nat] := 3 ]} : gmap node_id Z) !! k.
Proof.
  eexists.
  assert (getWordStandoff example_A
            (elem "b" (Some "s") [] (Some "t x")) [0%nat] 0
            (State (Some true) {[ [0%nat] := 1; [7%nat] := 3 ]})
          = Ok ([Annotation false [0%nat; 0%nat] "p/b" 0 0;
                 Annotation true [0%nat] "p" 1 1;
                 Annotation false [0%nat] "p" 3 3], "s" +:+ "t x",
                State (Some false)
                  (<[ [0%nat] := 4 ]>
                     (<[ [0%nat; 0%nat] := 1 ]> {[ [0%nat] := 1; [7%nat] := 3 ]}))))
    as H by (vm_compute; reflexivity).
  destruct (getWordStandoff_cursor _ _ _ _ _ _ _ _ H) as (wpp & H1 & H2 & H3 & H4).
  exists wpp. split; [exact H|]. split_and!; [exact H1|exact H2|exact H3|exact H4].
Defined.

(** ** Annotations and words *)

Section NoWord.
Import Str StrFacts.

Variable document : node.

Lemma walk_no_word :
  (∀ e pid i st anns txt st',
     getWordStandoff document e pid i st = Ok (anns, txt, st') →
     has_word e = false → anns = [])
  ∧ (∀ eid cs j st kids ktxt st2,
       children_loop document eid cs j ([], "") st = Ok (kids, ktxt, st2) →
       any_word cs = false → kids = []).
Proof.
  apply (walk_ind document
           (λ e _ _ _ anns _ _, has_word e = false → anns = [])
           (λ _ cs _ _ kids _ _, any_word cs = false → kids = [])).
  - done.
  - intros eid c cs j st kids ktxt st2 Hr _ IH. cbn. rewrite Hr. cbn. exact IH.
  - intros eid c cs j st a1 t1 st1 a2 t2 st2 Hr _ Hc _ IH. cbn. rewrite Hr. cbn.
    intros [H1 H2]%orb_false_iff. by rewrite Hc, IH.
  - intros e pid i st wpp own fl1 kids ktxt st2 tl fl3 _ Hown st1 _ IH Htl.
    rewrite has_word_eq.
    intros [[H1 H2]%orb_false_iff H3]%orb_false_iff.
    apply words_no_word in Hown as [-> _]; [|done].
    apply words_no_word in Htl as [-> _]; [|done].
    by rewrite IH.
Qed.

End NoWord.

(** X6: a visit gives no annotation exactly when neither the element, nor
    a rendered element below it, nor a tail of these holds a character
    that is not whitespace; its text is then whitespace only. *)
Theorem getWordStandoff_no_annotation document e pid i st anns txt st' :
  getWordStandoff document e pid i st = Ok (anns, txt, st') →
  (anns = [] ↔ has_word e = false)
  ∧ (anns = [] → Str.all_space txt = true).
Proof.
  intros H. split; [split|].
  - intros ->. destruct (has_word e) eqn:Hw; [|done].
    by destruct (proj1 (walk_has_word document) _ _ _ _ _ _ _ H Hw).
  - by apply (proj1 (walk_no_word document) _ _ _ _ _ _ _ H).
  - intros ->. apply getWordStandoff_scan in H. by eapply scan_no_annotation.
Qed.

Lemma getWordStandoff_no_annotation_witness :
  (([] : list annotation) = []
   ↔ has_word (elem "div" (Some " ") [elem "b" None [] (Some "  ")] None) = false)
  ∧ (([] : list annotation) = [] → Str.all_space "     " = true).
Proof.
  apply (getWordStandoff_no_annotation example_dropped_block
           (elem "div" (Some " ") [elem "b" None [] (Some "  ")] None)
           [] 1 (State None {[ [] := 0 ]}) [] "     "
           (State (Some true)
              (<[ [1%nat; 0%nat] := 0 ]> (<[ [1%nat] := 3 ]> {[ [] := 0 ]})))).
  vm_compute. reflexivity.
Defined.

(** ** The glue pass on any list of strings *)

Section GlueAny.
Import Str StrFacts.

Lemma glue_loop_any l :
  ∀ out b,
    bind (glue_loop l out (Some b)) flush_buffer
    = if all_nonempty l then Ok (out ++ glue_from b l) else Raise IndexError.
Proof.
  induction l as [|s l IH]; intros out b; [done|].
  cbn [glue_loop all_nonempty forallb]. fold (all_nonempty l).
  destruct s as [|c s]; [done|]. cbn [glue_mark bind is_empty negb andb glue_from marked].
  destruct (bool_decide (c = "+"%char)); rewrite IH; [done|].
  destruct (all_nonempty l); [|done]. by rewrite <- (assoc_L (++)).
Qed.

Lemma glue_from_unmarked b l :
  Forall (λ s, marked s = false) l → glue_from b l = b :: l.
Proof.
  intros H. revert b. induction H as [|s l Hs _ IH]; intros b; [done|].
  cbn. by rewrite Hs, IH.
Qed.

(** The first entry keeps the mark of the buffer it grew from; the
    entries after it are not marked and not empty. *)
Lemma glue_from_entries l :
  Forall (λ s, s ≠ "") l →
  ∀ b, ∃ b' rest,
    glue_from b l = b' :: rest
    ∧ (b ≠ "" → b' ≠ "" ∧ marked b' = marked b)
    ∧ Forall (λ s, s ≠ "" ∧ marked s = false) rest.
Proof.
  induction 1 as [|s l Hs _ IH]; intros b.
  - by exists b, [].
  - cbn [glue_from]. destruct (marked s) eqn:Hm.
    + destruct (IH (b +:+ s)) as (b' & rest & -> & Hb' & Hrest).
      exists b', rest. split; [done|]. split; [|done].
      intros Hb. destruct Hb' as [? ->]; [by destruct b|].
      split; [done|]. rewrite marked_app. by destruct b.
    + destruct (IH s) as (b' & rest & -> & Hb' & Hrest).
      exists b, (b' :: rest). split; [done|]. split; [done|].
      constructor; [|done]. destruct (Hb' Hs) as [? ->]. done.
Qed.

End GlueAny.

(** X7: the glue pass raises [IndexError] exactly when an annotation
    after the first is the empty string; the first annotation is never
    inspected.  Otherwise it returns. *)
Theorem glue_index_error (docstandoff : list string) :
  glue docstandoff
  = if all_nonempty (List.tl docstandoff) then Ok (glue_spec docstandoff)
    else Raise IndexError.
Proof.
  rewrite glue_eq. destruct docstandoff as [|s l]; [done|].
  cbn [glue_loop List.tl glue_spec]. by rewrite glue_loop_any.
Qed.

(** X8: in the output of the glue pass on annotations that are not empty,
    no entry after the first is marked and none is empty, and a second
    glue pass changes nothing. *)
Theorem glue_idempotent (docstandoff glued : list string) :
  Forall (λ s, s ≠ "") docstandoff →
  glue docstandoff = Ok glued →
  Forall (λ s, s ≠ "") glued
  ∧ Forall (λ s, marked s = false) (List.tl glued)
  ∧ glue glued = Ok glued.
Proof.
  intros Hl. rewrite glue_glue_spec by done. intros [= <-].
  destruct Hl as [|s l Hs Hl]; [done|]. cbn [glue_spec].
  destruct (glue_from_entries l Hl s) as (b' & rest & -> & Hb' & Hrest).
  destruct (Hb' Hs) as [Hne _].
  assert (Forall (λ s, s ≠ "") rest) as H1
    by (eapply Forall_impl; [exact Hrest|]; by intros ? [? _]).
  assert (Forall (λ s, marked s = false) rest) as H2
    by (eapply Forall_impl; [exact Hrest|]; by intros ? [_ ?]).
  split_and!; [by constructor|done|].
  rewrite glue_glue_spec by (by constructor).
  cbn [glue_spec]. by rewrite glue_from_unmarked.
Qed.

Lemma glue_idempotent_witness :
  Forall (λ s, s ≠ "") ["p:0-4+p/b:0-4"; "p:6-7"]
  ∧ Forall (λ s, marked s = false) (List.tl ["p:0-4+p/b:0-4"; "p:6-7"])
  ∧ glue ["p:0-4+p/b:0-4"; "p:6-7"] = Ok ["p:0-4+p/b:0-4"; "p:6-7"].
Proof.
  apply (glue_idempotent ["p:0-4"; "+p/b:0-4"; "p:6-7"]).
  - repeat constructor; discriminate.
  - reflexivity.
Defined.

(** ** Every annotation points inside the text of its node *)

Section Addresses.
Import Str StrFacts.

Variable document : node.

Lemma address_piece nid u w z plus p :
  charged_text document nid = u +:+ w +:+ z →
  addresses document (Annotation plus nid p (len u) (len u + len w - 1)) w.
Proof.
  intros H. split; [by eapply resolve_piece|]. cbn. lia.
Qed.

Lemma walk_addresses :
  (∀ e pid i st anns txt st',
     getWordStandoff document e pid i st = Ok (anns, txt, st') →
     visit_addresses document e pid i st anns txt st')
  ∧ (∀ eid cs j st kids ktxt st2,
       children_loop document eid cs j ([], "") st = Ok (kids, ktxt, st2) →
       loop_addresses document eid cs j st kids ktxt st2).
Proof.
  apply walk_ind.
  - intros eid j st e pre _ _ _ _. constructor.
  - intros eid c cs j st kids ktxt st2 Hr _ IH e pre He Hcs -> Hv.
    apply (IH e (pre ++ [c])); [done|by rewrite <- (assoc_L (++))|
                                 rewrite length_app; cbn; lia|].
    rewrite tails_app, tails_cons, Hr. cbn. by rewrite app_nil_l, app_nil_r.
  - intros eid c cs j st a1 t1 st1 a2 t2 st2 Hr H1 Hc _ IH e pre He Hcs -> Hv.
    assert (children e !! length pre = Some c) as Hlk.
    { rewrite Hcs. by apply list_lookup_middle. }
    assert (take (length pre) (children e) = pre) as Htake.
    { rewrite Hcs. by rewrite take_app_length. }
    eapply scan_app.
    + apply (Hc e); [done..|]. by rewrite Htake.
    + apply getWordStandoff_positions in H1 as (wpp & Hw & Hw' & _).
      rewrite Hv in Hw. injection Hw as <-.
      apply (IH e (pre ++ [c])); [done|by rewrite <- (assoc_L (++))|
                                   rewrite length_app; cbn; lia|].
      rewrite Hw'. f_equal.
      rewrite tails_app, tails_cons, Hr. cbn.
      rewrite !len_app, len_nil. lia.
  - intros e pid i st wpp own fl1 kids ktxt st2 tl fl3 Hwpp Hown st1 _ Hloop Htl.
    intros parent Hpar Hi Hr Hv.
    rewrite Hwpp in Hv. injection Hv as ->.
    pose proof (lookup_node_snoc _ _ _ _ _ Hpar Hi) as He.
    eapply scan_visit.
    + eapply (words_scan _ _ (addresses document) 0 (own_text e)) with (x := "") (y := "");
        [|done|by rewrite app_nil_l, app_nil_r|by rewrite len_nil].
      intros x w y plus Hxwy. rewrite Z.add_0_l. eapply address_piece.
      unfold charged_text. rewrite He, own_of_snoc, Hxwy.
      by rewrite !app_assoc.
    + apply (Hloop e []); [done..|]. cbn. rewrite own_of_snoc.
      rewrite lookup_insert_eq. change (tails []) with "". by rewrite app_nil_r.
    + eapply (words_scan _ _ (addresses document) _ (tail_text e)) with (x := "") (y := "");
        [|done|by rewrite app_nil_l, app_nil_r|by rewrite len_nil, Z.add_0_r].
      intros x w y plus Hxwy.
      rewrite <- len_app. eapply address_piece.
      unfold charged_text. rewrite Hpar.
      rewrite <- (take_drop_middle _ _ _ Hi) at 1.
      rewrite tails_app, tails_cons, Hr, Hxwy. by rewrite !app_assoc.
Qed.

Lemma scan_pieces P fl t anns fl' :
  Scan P fl t anns fl' →
  Forall (λ a, ∃ w, w ≠ "" ∧ no_space w = true ∧ P a w) anns.
Proof.
  induction 1 as [| |b w s a anns fl' Hne Hno _ HP _ IH]; [constructor|done|].
  constructor; [|done]. by exists w.
Qed.

(** A substring as long as asked for lies inside the string. *)
Lemma substring_length_inside s :
  ∀ n m, String.length (String.substring n m s) = m → (0 < m)%nat →
         (n + m ≤ String.length s)%nat.
Proof.
  induction s as [|c s IH]; intros n m.
  - destruct n, m; cbn; lia.
  - destruct n as [|n]; cbn.
    + destruct m as [|m]; [lia|]. cbn. intros [= H] _.
      destruct m as [|m]; [lia|]. specialize (IH 0%nat (S m) H). lia.
    + intros H Hm. specialize (IH n m H Hm). lia.
Qed.

End Addresses.

(** X9: every annotation of a document, kept or not by later stages,
    points inside what is counted in its node: its offsets are those of
    the first and of the last character of a piece of that text that is
    not empty and holds no whitespace. *)
Theorem annotations_inside document fl raw txt fl' :
  document_raw document fl = Ok (raw, txt, fl') →
  Forall (λ a,
            0 ≤ start a ∧ start a ≤ stop a
            ∧ stop a < Str.len (charged_text document (charged a))
            ∧ Str.len (resolve document a) = stop a - start a + 1
            ∧ Str.no_space (resolve document a) = true) raw.
Proof.
  intros (ktxt & st' & H & _)%document_raw_children.
  pose proof (proj2 (walk_addresses document) _ _ _ _ _ _ _ H document []) as HS.
  apply scan_pieces in HS; [|done|done|done|exact singleton_root].
  apply (proj2 (walk_placed document)) in H.
  destruct (H 0) as [Hp _]; [apply singleton_root|done|].
  apply Forall_forall. intros a Ha.
  eapply Forall_forall in HS as (w & Hne & Hno & Hres & Hlen); [|exact Ha].
  eapply Forall_forall in Hp as (H0 & Hle & _); [|exact Ha].
  rewrite Hres. split_and!; [done|done| |done|done].
  pose proof (StrFacts.len_pos w Hne) as Hpos.
  unfold resolve, Str.slice in Hres.
  pose proof (substring_length_inside
                (charged_text document (charged a))
                (Z.to_nat (start a)) (Z.to_nat (stop a - start a + 1))) as Hin.
  rewrite Hres in Hin. unfold Str.len in *. lia.
Qed.

Lemma annotations_inside_witness :
  Forall (λ a,
            0 ≤ start a ∧ start a ≤ stop a
            ∧ stop a < Str.len (charged_text example_skipped (charged a))
            ∧ Str.len (resolve example_skipped a) = stop a - start a + 1
            ∧ Str.no_space (resolve example_skipped a) = true)
    [Annotation false [0%nat] "p" 0 0; Annotation true [0%nat; 2%nat] "p/b" 0 0].
Proof.
  apply (annotations_inside example_skipped None _ " av " (Some true)).
  vm_compute. reflexivity.
Defined.

(** ** The characters of the text *)

Section Content.
Import Str StrFacts.

Variable document : node.

Lemma nonspace_app s t : nonspace (s +:+ t) = nonspace s +:+ nonspace t.
Proof.
  induction s as [|c s IH]; [done|]. rewrite app_cons. cbn.
  destruct (is_space c); [done|]. by rewrite app_cons, IH.
Qed.

Lemma nonspace_all_space s : all_space s = true → nonspace s = "".
Proof.
  induction s as [|c s IH]; [done|]. cbn.
  intros [-> Hs]%andb_true_iff. auto.
Qed.

Lemma nonspace_no_space s : no_space s = true → nonspace s = s.
Proof.
  induction s as [|c s IH]; [done|]. cbn.
  intros [Hc Hs]%andb_true_iff. apply negb_true_iff in Hc. rewrite Hc.
  by rewrite IH.
Qed.

Lemma content_eq n :
  content n = own_text n +:+ contents (children n) +:+ tail_text n.
Proof. by destruct n. Qed.

Lemma nonspace_lead e : nonspace (lead e) = "".
Proof. unfold lead. destruct (text e); [|done]. by destruct (is_inline (tag e)). Qed.

Lemma nonspace_trail e : nonspace (trail e) = "".
Proof. unfold trail. by destruct (closes e). Qed.

Lemma walk_content :
  (∀ e pid i st anns txt st',
     getWordStandoff document e pid i st = Ok (anns, txt, st') →
     nonspace txt = nonspace (content e))
  ∧ (∀ eid cs j st kids ktxt st2,
       children_loop document eid cs j ([], "") st = Ok (kids, ktxt, st2) →
       nonspace ktxt = nonspace (contents cs)).
Proof.
  apply (walk_ind document
           (λ e _ _ _ _ txt _, nonspace txt = nonspace (content e))
           (λ _ cs _ _ _ ktxt _, nonspace ktxt = nonspace (contents cs))).
  - done.
  - intros eid c cs j st kids ktxt st2 Hr _ IH. cbn. by rewrite Hr, app_nil_l.
  - intros eid c cs j st a1 t1 st1 a2 t2 st2 Hr _ Hc _ IH. cbn.
    by rewrite Hr, !nonspace_app, Hc, IH.
  - intros e pid i st wpp own fl1 kids ktxt st2 tl fl3 _ _ st1 _ IH _.
    rewrite content_eq, !nonspace_app, nonspace_lead, nonspace_trail, IH.
    by rewrite !app_nil_l.
Qed.

Lemma document_loop_content cs :
  ∀ j A T st A' T' st',
    document_loop document cs j (A, T) st = Ok (A', T', st') →
    nonspace T' = nonspace T +:+ nonspace (contents cs).
Proof.
  induction cs as [|c cs IH]; intros j A T st A' T' st'.
  - rewrite document_loop_nil. intros [= <- <- <-]. by rewrite app_nil_r.
  - rewrite document_loop_cons. cbn [contents].
    destruct (rendered c); [|by rewrite app_nil_l; apply IH].
    destruct (getWordStandoff document c [] j st) as [[[a1 t1] st1]|] eqn:E; [|done].
    cbn [bind fst snd].
    pose proof (proj1 walk_content _ _ _ _ _ _ _ E) as Hc.
    rewrite nonspace_app, <- Hc. destruct a1 as [|a a1].
    + apply getWordStandoff_scan, scan_no_annotation, nonspace_all_space in E.
      rewrite E, app_nil_l. apply IH.
    + intros H%IH. by rewrite H, nonspace_app, app_assoc.
Qed.

End Content.

(** X10: apart from whitespace, the text of a document is the text of
    the rendered nodes below the root, in the order of the document: no
    character of a word is lost, added or moved, also when the text of a
    top-level element is dropped. *)
Theorem document_text_content document fl raw txt fl' :
  document_raw document fl = Ok (raw, txt, fl') →
  nonspace txt = nonspace (contents (children document)).
Proof.
  unfold document_raw. cbn zeta.
  destruct (document_loop _ _ _ _ _) as [[[A T] st']|] eqn:E; [|done].
  cbn. intros [= <- <- <-].
  apply document_loop_content in E. by rewrite E.
Qed.

Lemma document_text_content_witness :
  nonspace " w xy" = nonspace (contents (children example_dropped_space)).
Proof.
  apply (document_text_content example_dropped_space (Some true)
           [Annotation false [0%nat] "p" 0 0; Annotation false [1%nat] "b[1]" 0 0;
            Annotation false [3%nat] "b[2]" 0 0] " w xy" (Some false)).
  vm_compute. reflexivity.
Defined.

(** * Properties of remove_control_characters *)

Section Sanitize.
Import Str StrFacts.

Lemma between_spec lo hi b : between lo hi b = true ↔ (lo ≤ b ≤ hi)%N.
Proof. unfold between. rewrite andb_true_iff, !N.leb_le. done. Qed.

Lemma between_false lo hi b : between lo hi b = false ↔ ¬ (lo ≤ b ≤ hi)%N.
Proof. rewrite <- between_spec. by destruct (between lo hi b). Qed.

Lemma illegal_spec n :
  illegal n = true
  ↔ (n = 0xb ∨ n = 0xc ∨ n = 0xFFFE ∨ n = 0xFFFF ∨ n ≤ 0x8
     ∨ 0xe ≤ n ≤ 0x1F ∨ 0xD800 ≤ n ≤ 0xDFFF)%N.
Proof.
  unfold illegal. rewrite !orb_true_iff, !N.eqb_eq, !between_spec. lia.
Qed.

Lemma xml_char_spec n :
  xml_char n = true
  ↔ (n = 0x9 ∨ n = 0xA ∨ n = 0xD ∨ 0x20 ≤ n ≤ 0xD7FF
     ∨ 0xE000 ≤ n ≤ 0xFFFD ∨ 0x10000 ≤ n ≤ 0x10FFFF)%N.
Proof.
  unfold xml_char. rewrite !orb_true_iff, !N.eqb_eq, !between_spec. lia.
Qed.

Lemma illegal_not_char n :
  illegal n = negb (xml_char n || (0x10FFFF <? n)%N).
Proof.
  apply eq_true_iff_eq.
  rewrite negb_true_iff, orb_false_iff, N.ltb_ge, illegal_spec.
  rewrite <- not_true_iff_false, xml_char_spec. lia.
Qed.

End Sanitize.

(** X11: the range that [strip_illegal_xml_characters] removes is the
    complement of [Char] of XML 1.0 up to [0x10FFFF]; a reference to a
    number above [0x10FFFF], which is no [Char] either, is kept. *)
Theorem strip_illegal_xml_characters_char maxdigits s default base n :
  int maxdigits s base = Some n →
  strip_illegal_xml_characters maxdigits s default base
  = Some (if xml_char n || (0x10FFFF <? n)%N then default else "").
Proof.
  intros H. unfold strip_illegal_xml_characters. rewrite H, illegal_not_char.
  by destruct (xml_char n || (0x10FFFF <? n)%N).
Qed.

Lemma strip_illegal_xml_characters_char_witness :
  strip_illegal_xml_characters 4300 "110000" "&#x110000;" 16
  = Some (if xml_char 0x110000 || (0x10FFFF <? 0x110000)%N
          then "&#x110000;" else "").
Proof.
  apply (strip_illegal_xml_characters_char 4300 "110000" "&#x110000;" 16 0x110000).
  reflexivity.
Defined.

Section Alphabet.
Import Str StrFacts.

Lemma all_chars_app p s t :
  all_chars p (s +:+ t) = all_chars p s && all_chars p t.
Proof.
  induction s as [|c s IH]; [done|]. rewrite app_cons. cbn.
  by rewrite IH, andb_assoc.
Qed.

Lemma all_chars_impl (p q : ascii → bool) s :
  (∀ c, p c = true → q c = true) → all_chars p s = true → all_chars q s = true.
Proof.
  intros Hpq. induction s as [|c s IH]; [done|]. cbn.
  intros [Hc Hs]%andb_true_iff. rewrite (Hpq c Hc). auto.
Qed.

Lemma take_while_all p s : all_chars p (take_while p s) = true.
Proof.
  induction s as [|c s IH]; [done|]. cbn.
  destruct (p c) eqn:Hc; [|done]. cbn. by rewrite Hc.
Qed.

Lemma take_drop_while p s : take_while p s +:+ drop_while p s = s.
Proof.
  induction s as [|c s IH]; [done|]. cbn.
  destruct (p c); [|done]. by rewrite app_cons, IH.
Qed.

Lemma starts_with_eq c s : starts_with c s = true → ∃ z, s = String c z.
Proof.
  destruct s as [|c' z]; [done|]. cbn. intros ->%bool_decide_eq_true. by exists z.
Qed.

(** What a pattern matches is at the start of the text. *)
Lemma reference_prefix digit t g1 m :
  reference digit t = Some (g1, m) →
  g1 = take_while digit t ∧ g1 ≠ "" ∧ ∃ z, t = m +:+ z.
Proof.
  unfold reference. destruct (is_empty (take_while digit t)) eqn:He; [done|].
  assert (take_while digit t ≠ "") as Hne by (intros E; by rewrite E in He).
  pose proof (take_drop_while digit t) as Ht.
  destruct (starts_with ";" (drop_while digit t)) eqn:Hs.
  - apply starts_with_eq in Hs as [z Hz]. intros [= <- <-].
    split_and!; [done..|]. exists z. rewrite <- Ht at 1. rewrite Hz.
    by rewrite app_assoc.
  - intros [= <- <-]. split_and!; [done..|]. by exists (drop_while digit t).
Qed.

Lemma decimal_reference_prefix s g1 g0 :
  decimal_reference s = Some (g1, g0) →
  ∃ m z, g0 = "&#" +:+ m ∧ s = g0 +:+ z ∧ reference is_digit (m +:+ z) = Some (g1, m).
Proof.
  destruct s as [|c1 [|c2 t]]; [done..|]. cbn [decimal_reference].
  destruct (bool_decide (c1 = "&"%char)) eqn:H1; [|done].
  destruct (bool_decide (c2 = "#"%char)) eqn:H2; [|done].
  apply bool_decide_eq_true in H1 as ->. apply bool_decide_eq_true in H2 as ->.
  cbn [andb]. destruct (reference is_digit t) as [[g m]|] eqn:Hr; [|done].
  intros [= <- <-]. destruct (reference_prefix _ _ _ _ Hr) as (_ & _ & z & ->).
  by exists m, z.
Qed.

Lemma hex_reference_prefix s g1 g0 :
  hex_reference s = Some (g1, g0) →
  ∃ x m z, g0 = "&#" +:+ String x m ∧ s = g0 +:+ z
           ∧ (x = "x"%char ∨ x = "X"%char)
           ∧ reference is_hexdigit (m +:+ z) = Some (g1, m).
Proof.
  destruct s as [|c1 [|c2 [|x t]]]; [done..|]. cbn [hex_reference].
  destruct (bool_decide (c1 = "&"%char)) eqn:H1; [|done].
  destruct (bool_decide (c2 = "#"%char)) eqn:H2; [|done].
  apply bool_decide_eq_true in H1 as ->. apply bool_decide_eq_true in H2 as ->.
  cbn [andb].
  destruct (bool_decide (x = "x"%char) || bool_decide (x = "X"%char)) eqn:Hx; [|done].
  destruct (reference is_hexdigit t) as [[g m]|] eqn:Hr; [|done].
  intros [= <- <-]. destruct (reference_prefix _ _ _ _ Hr) as (_ & _ & z & ->).
  exists x, m, z. split_and!; [done..| |done].
  apply orb_true_iff in Hx as [Hx|Hx]; apply bool_decide_eq_true in Hx; auto.
Qed.

(** A substitution that puts nothing or the text matched keeps the
    characters within those of the text. *)
Lemma sub_go_all_chars p pattern repl :
  (∀ s g1 g0, pattern s = Some (g1, g0) → ∃ z, s = g0 +:+ z) →
  (∀ g1 g0 r, repl g1 g0 = Some r → r = "" ∨ r = g0) →
  ∀ s skip out,
    all_chars p s = true → sub_go pattern repl skip s = Some out →
    all_chars p out = true.
Proof.
  intros Hpat Hrepl. induction s as [|c s IH]; intros skip out Hs.
  - cbn. by intros [= <-].
  - cbn in Hs. apply andb_true_iff in Hs as Hcs. destruct Hcs as [Hc Hs'].
    cbn [sub_go]. destruct skip as [|k]; [|by apply IH].
    destruct (pattern (String c s)) as [[g1 g0]|] eqn:Hp.
    + destruct (repl g1 g0) as [r|] eqn:Hr; [|done].
      destruct (sub_go pattern repl (String.length g0 - 1) s) as [o|] eqn:Ho; [|done].
      cbn. intros [= <-]. rewrite all_chars_app.
      rewrite (IH _ _ Hs' Ho), andb_true_r.
      destruct (Hrepl _ _ _ Hr) as [->| ->]; [done|].
      destruct (Hpat _ _ _ Hp) as [z Hz].
      assert (all_chars p (String c s) = true) as Hall by (cbn; by rewrite Hc).
      rewrite Hz, all_chars_app in Hall. by apply andb_true_iff in Hall as [? _].
    + destruct (sub_go pattern repl 0 s) as [o|] eqn:Ho; [|done].
      cbn. intros [= <-]. cbn. by rewrite Hc, (IH _ _ Hs' Ho).
Qed.

Lemma strip_illegal_xml_characters_cases maxdigits g1 g0 base r :
  strip_illegal_xml_characters maxdigits g1 g0 base = Some r → r = "" ∨ r = g0.
Proof.
  unfold strip_illegal_xml_characters.
  destruct (int maxdigits g1 base) as [n|]; [|done].
  intros [= <-]. destruct (illegal n); auto.
Qed.

Lemma pretty_N_char_digit x : is_digit (pretty_N_char x) = true.
Proof. unfold pretty_N_char. by repeat case_match. Qed.

Lemma pretty_N_go_digits x :
  ∀ s, all_chars is_digit s = true → all_chars is_digit (pretty_N_go x s) = true.
Proof.
  induction (N.lt_wf_0 x) as [x _ IH]. intros s Hs.
  assert (x = 0 ∨ 0 < x)%N as [->|Hx] by lia; [by rewrite pretty_N_go_0|].
  rewrite pretty_N_go_step by done. apply IH; [by apply N.div_lt|].
  cbn. by rewrite pretty_N_char_digit.
Qed.

Lemma pretty_N_digits (x : N) : all_chars is_digit (pretty x) = true.
Proof.
  unfold pretty, pretty_N. case_decide; [done|]. by apply pretty_N_go_digits.
Qed.

Lemma is_digit_ascii c : is_digit c = true → is_ascii c = true.
Proof.
  unfold is_digit, is_ascii. rewrite between_spec, N.ltb_lt. lia.
Qed.

Lemma xmlcharrefreplace_ascii c : all_chars is_ascii (xmlcharrefreplace c) = true.
Proof.
  unfold xmlcharrefreplace. destruct (c <? 128)%N eqn:Hc.
  - cbn. unfold is_ascii. rewrite N_ascii_embedding; [by rewrite Hc|].
    apply N.ltb_lt in Hc. lia.
  - rewrite !all_chars_app.
    rewrite (all_chars_impl _ _ _ is_digit_ascii (pretty_N_digits c)). done.
Qed.

Lemma encode_ascii_ascii cps : all_chars is_ascii (encode_ascii cps) = true.
Proof.
  induction cps as [|c cps IH]; [done|]. cbn [encode_ascii].
  by rewrite all_chars_app, xmlcharrefreplace_ascii, IH.
Qed.

Lemma remove_illegal_all_chars p s :
  all_chars p s = true →
  all_chars (λ c, p c && negb (illegal_xml_char c)) (remove_illegal s) = true.
Proof.
  induction s as [|c s IH]; [done|]. cbn.
  intros [Hc Hs]%andb_true_iff. destruct (illegal_xml_char c) eqn:Hi; [auto|].
  cbn. by rewrite Hc, Hi, IH.
Qed.

Lemma ascii_not_illegal c :
  is_ascii c && negb (illegal_xml_char c) = true → ascii_xml_char c = true.
Proof.
  unfold is_ascii, illegal_xml_char, ascii_xml_char. cbn zeta.
  generalize (N_of_ascii c). intros n.
  rewrite !andb_true_iff, negb_true_iff, !orb_false_iff, xml_char_spec.
  rewrite !N.ltb_lt, !N.eqb_neq, !between_false. lia.
Qed.

Lemma remove_control_text_ascii maxdigits cps out :
  remove_control_text maxdigits cps = Some out →
  all_chars ascii_xml_char out = true.
Proof.
  unfold remove_control_text, re_sub. cbn zeta.
  destruct (sub_go decimal_reference _ 0 (encode_ascii cps)) as [h1|] eqn:E1; [|done].
  destruct (sub_go hex_reference _ 0 h1) as [h2|] eqn:E2; [|done].
  intros [= <-].
  eapply all_chars_impl; [apply ascii_not_illegal|].
  apply remove_illegal_all_chars.
  eapply sub_go_all_chars; [| | |exact E2].
  - intros s g1 g0 (x & m & z & _ & Hs & _)%hex_reference_prefix. by exists z.
  - intros g1 g0 r. apply strip_illegal_xml_characters_cases.
  - eapply sub_go_all_chars; [| | |exact E1].
    + intros s g1 g0 (m & z & _ & Hs & _)%decimal_reference_prefix. by exists z.
    + intros g1 g0 r. apply strip_illegal_xml_characters_cases.
    + apply encode_ascii_ascii.
Qed.

End Alphabet.

(** X12: the text that [remove_control_characters] returns holds ASCII
    characters only, and each of them is a [Char] of XML 1.0: none of
    the control characters that the parser refuses is left. *)
Theorem remove_control_characters_ascii maxdigits html out :
  remove_control_characters maxdigits html = Done out →
  all_chars ascii_xml_char out = true.
Proof.
  unfold remove_control_characters.
  destruct (utf8_decode html) as [cps|]; [|done].
  destruct (remove_control_text maxdigits cps) as [o|] eqn:E; [|done].
  intros [= <-]. by eapply remove_control_text_ascii.
Qed.

Lemma remove_control_characters_ascii_witness :
  all_chars ascii_xml_char "a&#233;&#128150;b" = true.
Proof.
  apply (remove_control_characters_ascii 4300
           [Byte.x61; Byte.xc3; Byte.xa9; Byte.xf0; Byte.x9f; Byte.x92;
            Byte.x96; Byte.x01; Byte.x62]).
  vm_compute. reflexivity.
Defined.

Section Decode.

Lemma second_spec b0 b1 :
  second b0 b1 = true →
  (0x80 ≤ b1 ≤ 0xBF
   ∧ (b0 = 0xE0 → 0xA0 ≤ b1) ∧ (b0 = 0xED → b1 ≤ 0x9F)
   ∧ (b0 = 0xF0 → 0x90 ≤ b1) ∧ (b0 = 0xF4 → b1 ≤ 0x8F))%N.
Proof.
  unfold second, continuation.
  destruct (b0 =? 0xE0)%N eqn:E0; [apply N.eqb_eq in E0; rewrite between_spec; lia|].
  destruct (b0 =? 0xED)%N eqn:E1; [apply N.eqb_eq in E1; rewrite between_spec; lia|].
  destruct (b0 =? 0xF0)%N eqn:E2; [apply N.eqb_eq in E2; rewrite between_spec; lia|].
  destruct (b0 =? 0xF4)%N eqn:E3; [apply N.eqb_eq in E3; rewrite between_spec; lia|].
  apply N.eqb_neq in E0, E1, E2, E3. rewrite between_spec. lia.
Qed.

(** The decoder reads one code point, a scalar value, and goes on with
    the bytes that follow. *)
Lemma utf8_decode_cons x0 r0 cps :
  utf8_decode (x0 :: r0) = Some cps →
  ∃ c cps' r,
    cps = c :: cps' ∧ utf8_decode r = Some cps'
    ∧ (length r ≤ length r0)%nat ∧ scalar c.
Proof.
  cbn [utf8_decode]. cbn zeta. generalize (Byte.to_N x0). intros b0.
  destruct (b0 <? 0x80)%N eqn:H0.
  { destruct (utf8_decode r0) as [l|] eqn:E; [|done]. cbn. intros [= <-].
    exists b0, l, r0. split_and!; [done..|]. apply N.ltb_lt in H0.
    unfold scalar. lia. }
  destruct (between 0xC2 0xDF b0) eqn:H1.
  { destruct r0 as [|x1 r1]; [done|]. generalize (Byte.to_N x1). intros b1.
    destruct (continuation b1) eqn:C1; [|done].
    destruct (utf8_decode r1) as [l|] eqn:E; [|done]. cbn. intros [= <-].
    eexists _, l, r1. split_and!; [done|done|cbn; lia|].
    apply between_spec in H1, C1. unfold scalar. lia. }
  destruct (between 0xE0 0xEF b0) eqn:H2.
  { destruct r0 as [|x1 [|x2 r2]]; [done..|].
    generalize (Byte.to_N x1) (Byte.to_N x2). intros b1 b2.
    destruct (second b0 b1) eqn:S1; [|done].
    destruct (continuation b2) eqn:C2; [|done]. cbn [andb].
    destruct (utf8_decode r2) as [l|] eqn:E; [|done]. cbn. intros [= <-].
    eexists _, l, r2. split_and!; [done|done|cbn; lia|].
    apply between_spec in H2, C2. apply second_spec in S1.
    unfold scalar. lia. }
  destruct (between 0xF0 0xF4 b0) eqn:H3; [|done].
  destruct r0 as [|x1 [|x2 [|x3 r3]]]; [done..|].
  generalize (Byte.to_N x1) (Byte.to_N x2) (Byte.to_N x3). intros b1 b2 b3.
  destruct (second b0 b1) eqn:S1; [|done].
  destruct (continuation b2) eqn:C2; [|done].
  destruct (continuation b3) eqn:C3; [|done]. cbn [andb].
  destruct (utf8_decode r3) as [l|] eqn:E; [|done]. cbn. intros [= <-].
  eexists _, l, r3. split_and!; [done|done|cbn; lia|].
  apply between_spec in H3, C2, C3. apply second_spec in S1.
  unfold scalar. lia.
Qed.

Lemma utf8_decode_scalar bs cps :
  utf8_decode bs = Some cps → Forall scalar cps.
Proof.
  remember (length bs) as n eqn:Hn. revert bs cps Hn.
  induction (lt_wf n) as [n _ IH]. intros bs cps -> H.
  destruct bs as [|x0 r0]; [injection H as <-; constructor|].
  apply utf8_decode_cons in H as (c & cps' & r & -> & Hr & Hlen & Hc).
  constructor; [done|]. eapply (IH (length r)); [cbn; lia|done|done].
Qed.

End Decode.

Section Plain.
Import Str StrFacts.

(** *** Decimal numbers *)

Lemma length_append s t :
  String.length (s +:+ t) = (String.length s + String.length t)%nat.
Proof. induction s as [|c s IH]; [done|]. rewrite app_cons. cbn. by rewrite IH. Qed.

Lemma pretty_N_go_app x : ∀ s, pretty_N_go x s = pretty_N_go x "" +:+ s.
Proof.
  induction (N.lt_wf_0 x) as [x _ IH]. intros s.
  assert (x = 0 ∨ 0 < x)%N as [->|Hx] by lia; [by rewrite !pretty_N_go_0|].
  rewrite (pretty_N_go_step x s), (pretty_N_go_step x "") by done.
  rewrite (IH _ (N.div_lt x 10 Hx eq_refl) (String _ s)).
  rewrite (IH _ (N.div_lt x 10 Hx eq_refl) (String _ "")).
  by rewrite app_assoc.
Qed.

Lemma digits_value_app base u v acc :
  digits_value base acc (u +:+ v) = digits_value base (digits_value base acc u) v.
Proof.
  revert acc. induction u as [|c u IH]; intros acc; [done|].
  rewrite app_cons. cbn. apply IH.
Qed.

Lemma digit_value_pretty x : (x < 10)%N → digit_value (pretty_N_char x) = x.
Proof.
  intros Hx.
  assert (x = 0 ∨ x = 1 ∨ x = 2 ∨ x = 3 ∨ x = 4 ∨ x = 5 ∨ x = 6 ∨ x = 7
          ∨ x = 8 ∨ x = 9)%N as H by lia.
  destruct H as [->|[->|[->|[->|[->|[->|[->|[->|[->| ->]]]]]]]]]; reflexivity.
Qed.

Lemma digits_value_pretty_go x : digits_value 10 0 (pretty_N_go x "") = x.
Proof.
  induction (N.lt_wf_0 x) as [x _ IH].
  assert (x = 0 ∨ 0 < x)%N as [->|Hx] by lia; [done|].
  rewrite pretty_N_go_step, pretty_N_go_app, digits_value_app by done.
  rewrite IH by (by apply N.div_lt). cbn.
  rewrite digit_value_pretty by (by apply N.mod_lt).
  pose proof (N.div_mod x 10). lia.
Qed.

Lemma digits_value_pretty (x : N) : digits_value 10 0 (pretty x) = x.
Proof.
  unfold pretty, pretty_N. case_decide as H; [by rewrite H|].
  apply digits_value_pretty_go.
Qed.

Lemma pretty_N_go_length (k : nat) :
  ∀ x, (x < 10 ^ N.of_nat k)%N → (String.length (pretty_N_go x "") ≤ k)%nat.
Proof.
  induction k as [|k IH]; intros x Hx.
  - assert (x = 0%N) as -> by (change (x < 1)%N in Hx; lia).
    rewrite pretty_N_go_0. cbn. lia.
  - assert (x = 0 ∨ 0 < x)%N as [->|H0] by lia;
      [rewrite pretty_N_go_0; cbn; lia|].
    rewrite pretty_N_go_step, pretty_N_go_app by done.
    rewrite length_append. cbn [String.length].
    assert (x `div` 10 < 10 ^ N.of_nat k)%N as Hd.
    { apply N.Div0.div_lt_upper_bound.
      rewrite Nat2N.inj_succ, N.pow_succ_r' in Hx. exact Hx. }
    specialize (IH _ Hd). lia.
Qed.

Lemma pretty_N_length (x : N) :
  (x ≤ 0x10FFFF)%N → (0 < String.length (pretty x) ≤ 7)%nat.
Proof.
  intros Hx. unfold pretty, pretty_N. case_decide as H; [cbn; lia|].
  split.
  - rewrite pretty_N_go_step, pretty_N_go_app by lia.
    rewrite length_append. cbn [String.length]. lia.
  - apply pretty_N_go_length. cbn. lia.
Qed.

End Plain.

Section Passes.
Import Str StrFacts.

Variable maxdigits : nat.

Ltac str_norm := rewrite ?app_assoc, ?app_cons, ?app_nil_l.

Lemma fmap_append_nil (o : option string) : String.append "" <$> o = o.
Proof. by destruct o. Qed.

Lemma fmap_append_cons c u (o : option string) :
  String c <$> (String.append u <$> o) = String.append (String c u) <$> o.
Proof. by destruct o. Qed.

Lemma fmap_append_app u v (o : option string) :
  String.append u <$> (String.append v <$> o) = String.append (u +:+ v) <$> o.
Proof. destruct o; [|done]. cbn. by rewrite app_assoc. Qed.

Lemma sub_go_skip pattern repl u s :
  sub_go pattern repl (String.length u) (u +:+ s) = sub_go pattern repl 0 s.
Proof. induction u as [|c u IH]; [done|]. rewrite app_cons. cbn. apply IH. Qed.

(** Where there is no ampersand no pattern matches. *)
Lemma sub_go_plain pattern repl u s :
  (∀ c t, c ≠ "&"%char → pattern (String c t) = None) →
  all_chars not_amp u = true →
  sub_go pattern repl 0 (u +:+ s) = String.append u <$> sub_go pattern repl 0 s.
Proof.
  intros Hpat. induction u as [|c u IH]; [by rewrite fmap_append_nil|].
  cbn [all_chars]. intros [Hc Hu]%andb_true_iff.
  rewrite app_cons. cbn [sub_go]. rewrite Hpat.
  - by rewrite IH, fmap_append_cons.
  - intros ->. done.
Qed.

Lemma decimal_reference_amp c t :
  c ≠ "&"%char → decimal_reference (String c t) = None.
Proof.
  intros Hc. destruct t as [|c2 t]; [done|]. cbn.
  by rewrite bool_decide_eq_false_2.
Qed.

Lemma hex_reference_amp c t :
  c ≠ "&"%char → hex_reference (String c t) = None.
Proof.
  intros Hc. destruct t as [|c2 [|x t]]; [done..|]. cbn.
  by rewrite bool_decide_eq_false_2.
Qed.

Lemma take_while_stop p u c s :
  all_chars p u = true → p c = false →
  take_while p (u +:+ String c s) = u ∧ drop_while p (u +:+ String c s) = String c s.
Proof.
  intros Hu Hc. induction u as [|d u IH]; [rewrite app_nil_l; cbn; by rewrite Hc|].
  cbn in Hu. apply andb_true_iff in Hu as [Hd Hu].
  rewrite app_cons. cbn. rewrite Hd. destruct (IH Hu) as [-> ->]. done.
Qed.

(** A reference that ends in its semicolon is matched as a whole. *)
Lemma decimal_reference_whole ds s :
  all_chars is_digit ds = true → ds ≠ "" →
  decimal_reference ("&#" +:+ ds +:+ ";" +:+ s) = Some (ds, "&#" +:+ ds +:+ ";").
Proof.
  intros Hds Hne. str_norm. cbn. unfold reference.
  destruct (take_while_stop is_digit ds ";" s Hds eq_refl) as [-> ->].
  destruct ds; done.
Qed.

Lemma int_pretty (c : N) : (c ≤ 0x10FFFF)%N → int maxdigits (pretty c) 10 = Some c.
Proof.
  intros Hc. unfold int. pose proof (pretty_N_length c Hc) as [_ Hl].
  replace (640 <? String.length (pretty c))%nat with false
    by (symmetry; apply Nat.ltb_ge; lia).
  rewrite andb_false_r. cbn. by rewrite digits_value_pretty.
Qed.

Lemma pretty_not_empty (c : N) : pretty c ≠ "".
Proof.
  unfold pretty, pretty_N. case_decide as H; [done|].
  rewrite pretty_N_go_step, pretty_N_go_app by lia.
  intros [_ E]%app_eq_nil. done.
Qed.

(** The first pass at a reference that the encoding made. *)
Lemma sub_decimal_reference (c : N) s :
  (c ≤ 0x10FFFF)%N →
  sub_go decimal_reference
    (λ group1 group0, strip_illegal_xml_characters maxdigits group1 group0 10)
    0 (("&#" +:+ pretty c +:+ ";") +:+ s)
  = String.append (if illegal c then "" else "&#" +:+ pretty c +:+ ";")
      <$> sub_go decimal_reference
            (λ group1 group0, strip_illegal_xml_characters maxdigits group1 group0 10)
            0 s.
Proof.
  intros Hc. set (R := λ group1 group0, strip_illegal_xml_characters _ _ _ _).
  pose proof (decimal_reference_whole (pretty c) s (pretty_N_digits c)
                (pretty_not_empty c)) as Hm.
  assert (("&#" +:+ pretty c +:+ ";") +:+ s
          = String "&" (("#" +:+ pretty c +:+ ";") +:+ s)) as ->.
  { by str_norm. }
  cbn [sub_go].
  replace (String "&" (("#" +:+ pretty c +:+ ";") +:+ s))
    with ("&#" +:+ pretty c +:+ ";" +:+ s) by (by str_norm).
  rewrite Hm. unfold R at 1, strip_illegal_xml_characters.
  rewrite int_pretty by done.
  replace (String.length ("&#" +:+ pretty c +:+ ";") - 1)%nat
    with (String.length ("#" +:+ pretty c +:+ ";"))
    by (rewrite !app_cons, !app_nil_l; cbn [String.length]; lia).
  by rewrite sub_go_skip.
Qed.

Lemma ascii_of_N_amp (c : N) : (c < 128)%N → c ≠ 38%N → ascii_of_N c ≠ "&"%char.
Proof.
  intros Hc Hne E. apply Hne. rewrite <- (N_ascii_embedding c) by lia.
  by rewrite E.
Qed.

Lemma encode_ascii_points cps : encode_ascii cps = points xmlcharrefreplace cps.
Proof. induction cps as [|c cps IH]; [done|]. cbn. by rewrite IH. Qed.

Lemma sub_decimal_points cps :
  38%N ∉ cps → Forall scalar cps →
  sub_go decimal_reference
    (λ group1 group0, strip_illegal_xml_characters maxdigits group1 group0 10)
    0 (encode_ascii cps)
  = Some (points checked_point cps).
Proof.
  intros Hamp Hsc. induction Hsc as [|c cps [Hc _] _ IH]; [done|].
  apply not_elem_of_cons in Hamp as [Hne Hamp]. cbn [encode_ascii points].
  unfold checked_point at 1, clean_point, xmlcharrefreplace.
  destruct (c <? 128)%N eqn:Hlt.
  - rewrite sub_go_plain, IH; [done|done|apply decimal_reference_amp|].
    cbn. unfold not_amp. rewrite bool_decide_eq_false_2; [done|].
    apply ascii_of_N_amp; [by apply N.ltb_lt|done].
  - rewrite sub_decimal_reference, IH by done. done.
Qed.

Lemma is_digit_not_x d :
  is_digit d = true →
  bool_decide (d = "x"%char) || bool_decide (d = "X"%char) = false.
Proof.
  intros Hd. apply orb_false_iff.
  split; apply bool_decide_eq_false_2; intros ->; done.
Qed.

Lemma is_digit_not_amp d : is_digit d = true → not_amp d = true.
Proof.
  intros Hd. unfold not_amp. rewrite bool_decide_eq_false_2; [done|].
  intros ->. done.
Qed.

(** The second pass leaves a decimal reference as it is. *)
Lemma sub_hex_reference ds s :
  all_chars is_digit ds = true → ds ≠ "" →
  sub_go hex_reference
    (λ group1 group0, strip_illegal_xml_characters maxdigits group1 group0 16)
    0 (("&#" +:+ ds +:+ ";") +:+ s)
  = String.append ("&#" +:+ ds +:+ ";")
      <$> sub_go hex_reference
            (λ group1 group0, strip_illegal_xml_characters maxdigits group1 group0 16)
            0 s.
Proof.
  intros Hds Hne. set (R := λ group1 group0, strip_illegal_xml_characters _ _ _ _).
  destruct ds as [|d ds]; [done|]. cbn in Hds.
  apply andb_true_iff in Hds as [Hd Hds].
  assert (("&#" +:+ String d ds +:+ ";") +:+ s
          = String "&" (("#" +:+ String d ds +:+ ";") +:+ s)) as ->.
  { by str_norm. }
  cbn [sub_go].
  assert (hex_reference (String "&" (("#" +:+ String d ds +:+ ";") +:+ s)) = None)
    as ->.
  { str_norm. cbn. by rewrite is_digit_not_x. }
  rewrite sub_go_plain; [|apply hex_reference_amp|].
  - by rewrite fmap_append_cons.
  - str_norm. cbn [all_chars]. rewrite (is_digit_not_amp d Hd), all_chars_app.
    rewrite (all_chars_impl _ _ _ is_digit_not_amp Hds). done.
Qed.

Lemma sub_hex_points cps :
  38%N ∉ cps →
  sub_go hex_reference
    (λ group1 group0, strip_illegal_xml_characters maxdigits group1 group0 16)
    0 (points checked_point cps)
  = Some (points checked_point cps).
Proof.
  intros Hamp. induction cps as [|c cps IH]; [done|].
  apply not_elem_of_cons in Hamp as [Hne Hamp]. cbn [points].
  unfold checked_point at 1 3, clean_point, xmlcharrefreplace.
  destruct (c <? 128)%N eqn:Hlt.
  - rewrite sub_go_plain, IH; [done|done|apply hex_reference_amp|].
    cbn. unfold not_amp. rewrite bool_decide_eq_false_2; [done|].
    apply ascii_of_N_amp; [by apply N.ltb_lt|done].
  - destruct (illegal c); [by rewrite !app_nil_l; apply IH|].
    rewrite sub_hex_reference, IH;
      [done|done|apply pretty_N_digits|apply pretty_not_empty].
Qed.

Lemma remove_illegal_app s t :
  remove_illegal (s +:+ t) = remove_illegal s +:+ remove_illegal t.
Proof.
  induction s as [|c s IH]; [done|]. rewrite app_cons. cbn.
  destruct (illegal_xml_char c); [done|]. by rewrite app_cons, IH.
Qed.

Lemma remove_illegal_id s :
  all_chars (λ c, negb (illegal_xml_char c)) s = true → remove_illegal s = s.
Proof.
  induction s as [|c s IH]; [done|]. cbn.
  intros [Hc Hs]%andb_true_iff. apply negb_true_iff in Hc. rewrite Hc.
  by rewrite IH.
Qed.

Lemma is_digit_legal d : is_digit d = true → negb (illegal_xml_char d) = true.
Proof.
  unfold is_digit, illegal_xml_char. cbn zeta. generalize (N_of_ascii d).
  intros n. rewrite between_spec, negb_true_iff, !orb_false_iff.
  rewrite !N.eqb_neq, !between_false. lia.
Qed.

Lemma illegal_xml_char_illegal (c : N) :
  (c < 256)%N → illegal_xml_char (ascii_of_N c) = illegal c.
Proof.
  intros Hc. unfold illegal_xml_char. cbn zeta.
  rewrite N_ascii_embedding by done. apply eq_true_iff_eq.
  rewrite illegal_spec, !orb_true_iff, !N.eqb_eq, !between_spec. lia.
Qed.

Lemma remove_illegal_points cps :
  remove_illegal (points checked_point cps) = points clean_point cps.
Proof.
  induction cps as [|c cps IH]; [done|]. cbn [points].
  rewrite remove_illegal_app, IH. f_equal.
  unfold checked_point, clean_point, xmlcharrefreplace.
  destruct (c <? 128)%N eqn:Hlt.
  - apply N.ltb_lt in Hlt. cbn.
    rewrite illegal_xml_char_illegal by lia. by destruct (illegal c).
  - destruct (illegal c); [done|]. apply remove_illegal_id.
    rewrite !all_chars_app.
    rewrite (all_chars_impl _ _ _ is_digit_legal (pretty_N_digits c)). done.
Qed.

End Passes.

(** X13: on a page without ampersand, [remove_control_characters]
    works code point by code point: a code point in the invalid range is
    removed, any other below 128 is kept, and any other from 128 on
    becomes its decimal reference.  The function then returns whatever
    the limit of the interpreter on decimal strings is. *)
Theorem remove_control_characters_plain maxdigits html cps :
  utf8_decode html = Some cps → 38%N ∉ cps →
  remove_control_characters maxdigits html = Done (points clean_point cps).
Proof.
  intros Hd Hamp. unfold remove_control_characters, remove_control_text, re_sub.
  rewrite Hd. cbn zeta.
  rewrite sub_decimal_points by (by eauto using utf8_decode_scalar).
  rewrite sub_hex_points by done.
  by rewrite remove_illegal_points.
Qed.

Lemma remove_control_characters_plain_witness :
  remove_control_characters 4300
    [Byte.x61; Byte.xc3; Byte.xa9; Byte.xef; Byte.xbf; Byte.xbe; Byte.x01; Byte.x62]
  = Done (points clean_point [97; 233; 0xFFFE; 1; 98]%N).
Proof.
  apply (remove_control_characters_plain 4300
           [Byte.x61; Byte.xc3; Byte.xa9; Byte.xef; Byte.xbf; Byte.xbe;
            Byte.x01; Byte.x62] [97; 233; 0xFFFE; 1; 98]%N).
  - reflexivity.
  - rewrite !not_elem_of_cons. split_and!; [done..|apply not_elem_of_nil].
Defined.

Section DigitLimit.
Import Str StrFacts.

Variable maxdigits : nat.

Lemma encode_ascii_app cps1 cps2 :
  encode_ascii (cps1 ++ cps2) = encode_ascii cps1 +:+ encode_ascii cps2.
Proof.
  induction cps1 as [|c cps1 IH]; [done|]. cbn [encode_ascii app].
  by rewrite IH, app_assoc.
Qed.

Lemma encode_ascii_code_points s :
  all_chars is_ascii s = true → encode_ascii (code_points s) = s.
Proof.
  induction s as [|c s IH]; [done|]. cbn [all_chars code_points encode_ascii].
  intros [Hc Hs]%andb_true_iff. unfold xmlcharrefreplace.
  unfold is_ascii in Hc. rewrite Hc, ascii_N_embedding, IH by done.
  by rewrite app_cons, app_nil_l.
Qed.

Lemma take_while_app_length p ds t :
  all_chars p ds = true →
  (String.length ds ≤ String.length (take_while p (ds +:+ t)))%nat.
Proof.
  induction ds as [|d ds IH]; [cbn; lia|]. cbn [all_chars].
  intros [Hd Hds]%andb_true_iff. rewrite app_cons. cbn. rewrite Hd. cbn.
  specialize (IH Hds). lia.
Qed.

Lemma reference_chars digit t g1 m :
  (∀ c, digit c = true → not_amp c = true) →
  reference digit t = Some (g1, m) → all_chars not_amp m = true.
Proof.
  intros Hd. unfold reference.
  destruct (is_empty (take_while digit t)); [done|].
  pose proof (all_chars_impl _ _ _ Hd (take_while_all digit t)) as Hall.
  destruct (starts_with ";" (drop_while digit t)); intros [= <- <-]; [|done].
  by rewrite all_chars_app, Hall.
Qed.

(** A match of the first pattern: an ampersand, then characters that
    are no ampersand. *)
Lemma decimal_reference_shape s g1 g0 :
  decimal_reference s = Some (g1, g0) →
  ∃ w z t, g0 = String "&" w ∧ s = String "&" (w +:+ z)
           ∧ all_chars not_amp w = true
           ∧ s = "&#" +:+ t ∧ g1 = take_while is_digit t.
Proof.
  destruct s as [|c1 [|c2 t]]; [done..|]. cbn [decimal_reference].
  destruct (bool_decide (c1 = "&"%char)) eqn:H1; [|done].
  destruct (bool_decide (c2 = "#"%char)) eqn:H2; [|done].
  apply bool_decide_eq_true in H1 as ->. apply bool_decide_eq_true in H2 as ->.
  cbn [andb]. destruct (reference is_digit t) as [[g m]|] eqn:Hr; [|done].
  intros [= <- <-]. destruct (reference_prefix _ _ _ _ Hr) as (Hg & _ & z & Hz).
  exists (String "#" m), z, t. split_and!; [done| |..|done|done].
  - by rewrite app_cons, <- Hz.
  - cbn. by rewrite (reference_chars _ _ _ _ is_digit_not_amp Hr).
Qed.

(** Characters that are no ampersand end before the next ampersand. *)
Lemma before_amp w z u y :
  all_chars not_amp w = true → w +:+ z = u +:+ String "&" y →
  (String.length w ≤ String.length u)%nat.
Proof.
  revert u. induction w as [|c w IH]; intros u Hw; [cbn; lia|].
  cbn in Hw. apply andb_true_iff in Hw as [Hc Hw].
  destruct u as [|d u].
  - rewrite app_cons, app_nil_l. intros [= -> _]. done.
  - rewrite !app_cons. intros [= _ H]. specialize (IH u Hw H). cbn. lia.
Qed.

Lemma int_limit ds :
  (0 < maxdigits)%nat → (640 < String.length ds)%nat →
  (maxdigits < String.length ds)%nat →
  int maxdigits ds 10 = None.
Proof.
  intros H0 H1 H2. unfold int.
  apply Nat.ltb_lt in H0, H1, H2. by rewrite H0, H1, H2.
Qed.

(** The first pass comes to a reference with too many digits, whatever
    is before it. *)
Lemma sub_decimal_limit ds t :
  (0 < maxdigits)%nat → (640 < String.length ds)%nat →
  (maxdigits < String.length ds)%nat → all_chars is_digit ds = true →
  ∀ u skip,
    (skip ≤ String.length u)%nat →
    sub_go decimal_reference
      (λ group1 group0, strip_illegal_xml_characters maxdigits group1 group0 10)
      skip (u +:+ "&#" +:+ ds +:+ t)
    = None.
Proof.
  intros H0 H1 H2 Hds. set (R := λ group1 group0, strip_illegal_xml_characters _ _ _ _).
  induction u as [|c u IH]; intros skip Hskip.
  - assert (skip = 0%nat) as -> by (cbn in Hskip; lia).
    rewrite app_nil_l, !app_cons, app_nil_l. cbn [sub_go decimal_reference].
    cbn [bool_decide_eq_true andb]. rewrite !bool_decide_eq_true_2 by done.
    cbn [andb]. unfold reference.
    pose proof (take_while_app_length is_digit ds t Hds) as Hlen.
    destruct (is_empty (take_while is_digit (ds +:+ t))) eqn:He.
    { destruct (take_while is_digit (ds +:+ t)); [cbn in Hlen; lia|done]. }
    assert (∀ g0, R (take_while is_digit (ds +:+ t)) g0 = None) as HR.
    { intros g0. unfold R, strip_illegal_xml_characters.
      rewrite int_limit; [done|done|lia|lia]. }
    destruct (starts_with ";" _); by rewrite HR.
  - rewrite app_cons. cbn [sub_go]. destruct skip as [|k].
    + destruct (decimal_reference (String c (u +:+ "&#" +:+ ds +:+ t)))
        as [[g1 g0]|] eqn:Hp.
      * destruct (R g1 g0) as [r|]; [|done].
        apply decimal_reference_shape in Hp
          as (w & z & _ & -> & [= -> Hs] & Hw & _).
        rewrite IH; [done|]. cbn [String.length].
        change ("&#" +:+ ds +:+ t) with (String "&" ("#" +:+ ds +:+ t)) in Hs.
        pose proof (before_amp _ _ _ _ Hw (eq_sym Hs)). lia.
      * rewrite IH; [done|lia].
    + apply IH. cbn in Hskip. lia.
Qed.

End DigitLimit.

(** X14: where the interpreter limits the conversion of decimal strings
    to [maxdigits] digits, a page that holds, anywhere, the characters
    [&#] and then more than [maxdigits] digits makes
    [remove_control_characters] raise [ValueError]. *)
Theorem remove_control_characters_digit_limit maxdigits html before ds after :
  (0 < maxdigits)%nat → (640 < String.length ds)%nat →
  (maxdigits < String.length ds)%nat → all_chars is_digit ds = true →
  utf8_decode html = Some (before ++ code_points ("&#" +:+ ds) ++ after) →
  remove_control_characters maxdigits html = Fail ValueError.
Proof.
  intros H0 H1 H2 Hds Hd.
  unfold remove_control_characters, remove_control_text, re_sub.
  rewrite Hd. cbn zeta. rewrite !encode_ascii_app, encode_ascii_code_points.
  - rewrite StrFacts.app_assoc, sub_decimal_limit by (done || lia). done.
  - rewrite all_chars_app. cbn.
    by rewrite (all_chars_impl _ _ _ is_digit_ascii Hds).
Qed.

Lemma remove_control_characters_digit_limit_witness :
  remove_control_characters 4300
    (list_byte_of_string ("<p>&#1;&#" +:+ replicate_char 4301 "7" +:+ ";</p>"))
  = Fail ValueError.
Proof.
  apply (remove_control_characters_digit_limit 4300 _
           (code_points "<p>&#1;") (replicate_char 4301 "7")
           (code_points ";</p>")).
  - lia.
  - vm_compute. lia.
  - vm_compute. lia.
  - vm_compute. reflexivity.
  - vm_compute. reflexivity.
Defined.

Section ValueErrors.
Import Str StrFacts.

Variable maxdigits : nat.

Lemma utf8_decode_length bs cps :
  utf8_decode bs = Some cps → (length cps ≤ length bs)%nat.
Proof.
  remember (length bs) as n eqn:Hn. revert bs cps Hn.
  induction (lt_wf n) as [n _ IH]. intros bs cps -> H.
  destruct bs as [|x0 r0]; [injection H as <-; cbn; lia|].
  apply utf8_decode_cons in H as (c & cps' & r & -> & Hr & Hlen & _).
  specialize (IH (length r) ltac:(cbn; lia) r cps' eq_refl Hr). cbn. lia.
Qed.

Lemma string_app_eq_app (pre s a b : string) :
  pre +:+ s = a +:+ b →
  (∃ m, a = pre +:+ m ∧ s = m +:+ b) ∨ (∃ m, pre = a +:+ m ∧ b = m +:+ s).
Proof.
  revert a. induction pre as [|c pre IH]; intros a.
  - rewrite app_nil_l. intros ->. left. by exists a.
  - destruct a as [|d a].
    + rewrite app_nil_l. intros <-. right. by exists (String c pre).
    + rewrite !app_cons. intros [= -> H]. destruct (IH a H) as [[m [-> ->]]|[m [-> ->]]].
      * left. by exists m.
      * right. by exists m.
Qed.

(** A substitution fails at a match whose replacement fails. *)
Lemma sub_go_None pattern repl s :
  ∀ skip,
    sub_go pattern repl skip s = None →
    ∃ pre s' g1 g0,
      s = pre +:+ s' ∧ pattern s' = Some (g1, g0) ∧ repl g1 g0 = None.
Proof.
  induction s as [|c s IH]; intros skip; [done|]. cbn [sub_go].
  assert (∀ k, sub_go pattern repl k s = None →
               ∃ pre s' g1 g0, String c s = pre +:+ s'
                 ∧ pattern s' = Some (g1, g0) ∧ repl g1 g0 = None) as Hrest.
  { intros k (pre & s' & g1 & g0 & -> & Hp & Hr)%IH.
    exists (String c pre), s', g1, g0. by rewrite app_cons. }
  destruct skip as [|k]; [|apply Hrest].
  destruct (pattern (String c s)) as [[g1 g0]|] eqn:Hp.
  - destruct (repl g1 g0) as [r|] eqn:Hr.
    + destruct (sub_go pattern repl _ s) eqn:E; [done|]. intros _. by eapply Hrest.
    + intros _. exists "", (String c s), g1, g0. by rewrite app_nil_l.
  - destruct (sub_go pattern repl 0 s) eqn:E; [done|]. intros _. by eapply Hrest.
Qed.

Lemma take_while_stop_length p a c b :
  p c = false →
  (String.length (take_while p (a +:+ String c b)) ≤ String.length a)%nat.
Proof.
  intros Hc. induction a as [|d a IH]; [rewrite app_nil_l; cbn; by rewrite Hc|].
  rewrite app_cons. cbn. destruct (p d); cbn; lia.
Qed.

(** Digits at the start of an encoded text are digits of the page. *)
Lemma encode_ascii_digits cps :
  (String.length (take_while is_digit (encode_ascii cps)) ≤ length cps)%nat.
Proof.
  induction cps as [|c cps IH]; [done|]. cbn [encode_ascii].
  unfold xmlcharrefreplace. destruct (c <? 128)%N.
  - rewrite app_cons, app_nil_l. cbn. destruct (is_digit _); cbn; lia.
  - rewrite !app_cons. cbn [take_while]. change (is_digit "&") with false.
    cbn. lia.
Qed.

Lemma suffix_snoc (pre m w : string) c :
  pre +:+ m = w +:+ String c "" → m ≠ "" →
  ∃ m', m = m' +:+ String c "" ∧ (String.length m' ≤ String.length w)%nat.
Proof.
  intros [[k [-> ->]]|[k [-> H]]]%string_app_eq_app Hm.
  - exists k. split; [done|]. rewrite length_append. lia.
  - destruct k as [|d k].
    + rewrite app_nil_l in H. subst m. exists "". split; [done|]. cbn. lia.
    + rewrite app_cons in H. injection H as _ H.
      symmetry in H. apply app_eq_nil in H as [_ ->]. done.
Qed.

(** No run of digits in an encoded text is longer than the page, unless
    it is inside a reference that the encoding made. *)
Lemma encode_ascii_runs cps :
  Forall scalar cps →
  ∀ pre s, encode_ascii cps = pre +:+ s →
           (String.length (take_while is_digit s) ≤ 9 `max` length cps)%nat.
Proof.
  induction 1 as [|c cps [Hc _] _ IH]; intros pre s.
  - cbn. intros [_ ->]%eq_sym%app_eq_nil. cbn. lia.
  - cbn [encode_ascii].
    intros [[m [Hm ->]]|[m [-> H]]]%eq_sym%string_app_eq_app.
    + destruct (decide (m = "")) as [->|Hne].
      { rewrite app_nil_l. pose proof (encode_ascii_digits cps). cbn. lia. }
      revert Hm. unfold xmlcharrefreplace. destruct (c <? 128)%N.
      * intros Hm. symmetry in Hm.
        apply (suffix_snoc _ _ "") in Hm as (m' & -> & Hlen); [|done].
        destruct m'; [|cbn in Hlen; lia]. rewrite app_nil_l, app_cons, app_nil_l.
        cbn. pose proof (encode_ascii_digits cps).
        destruct (is_digit _); cbn; lia.
      * intros Hm. symmetry in Hm. rewrite <- app_assoc in Hm.
        apply suffix_snoc in Hm as (m' & -> & Hlen); [|done].
        rewrite app_assoc, app_cons, app_nil_l.
        pose proof (take_while_stop_length is_digit m' ";"
                      (encode_ascii cps) eq_refl) as Hrun.
        rewrite length_append in Hlen. cbn in Hlen.
        pose proof (pretty_N_length c Hc). lia.
    + specialize (IH _ _ H). cbn. lia.
Qed.

Lemma int_None s base :
  int maxdigits s base = None →
  (0 < maxdigits)%nat ∧ (640 < String.length s)%nat
  ∧ (maxdigits < String.length s)%nat ∧ base = 10%N.
Proof.
  unfold int. destruct (_ && _) eqn:E; [|done]. intros _.
  apply andb_true_iff in E as [[[E1 E2]%andb_true_iff E3]%andb_true_iff E4].
  apply N.eqb_eq in E1. apply Nat.ltb_lt in E2, E3, E4. done.
Qed.

Lemma strip_illegal_xml_characters_None g1 g0 base :
  strip_illegal_xml_characters maxdigits g1 g0 base = None →
  int maxdigits g1 base = None.
Proof.
  unfold strip_illegal_xml_characters. by destruct (int maxdigits g1 base).
Qed.

Lemma remove_control_text_None cps :
  Forall scalar cps → remove_control_text maxdigits cps = None →
  (0 < maxdigits)%nat ∧ (640 < length cps)%nat ∧ (maxdigits < length cps)%nat.
Proof.
  intros Hsc. unfold remove_control_text, re_sub. cbn zeta.
  destruct (sub_go decimal_reference _ 0 (encode_ascii cps)) as [h1|] eqn:E1.
  - destruct (sub_go hex_reference _ 0 h1) as [h2|] eqn:E2; [done|]. intros _.
    apply sub_go_None in E2 as (_ & _ & g1 & g0 & _ & _ & Hr).
    apply strip_illegal_xml_characters_None, int_None in Hr as (_ & _ & _ & ?).
    done.
  - intros _.
    apply sub_go_None in E1 as (pre & s' & g1 & g0 & Hs & Hp & Hr).
    apply strip_illegal_xml_characters_None, int_None in Hr as (H0 & H1 & H2 & _).
    apply decimal_reference_shape in Hp as (_ & _ & t & _ & _ & _ & -> & ->).
    rewrite <- app_assoc in Hs.
    pose proof (encode_ascii_runs cps Hsc _ _ Hs). lia.
Qed.

End ValueErrors.

(** X15: [remove_control_characters] raises [ValueError] only where the
    interpreter limits the conversion of decimal strings, and only for a
    page of more bytes than the limit, and than 640. *)
Theorem remove_control_characters_value_error maxdigits html :
  remove_control_characters maxdigits html = Fail ValueError →
  (0 < maxdigits)%nat ∧ (640 < length html)%nat ∧ (maxdigits < length html)%nat.
Proof.
  unfold remove_control_characters.
  destruct (utf8_decode html) as [cps|] eqn:Hd; [|done].
  destruct (remove_control_text maxdigits cps) as [o|] eqn:E; [done|]. intros _.
  apply remove_control_text_None in E; [|by eapply utf8_decode_scalar].
  apply utf8_decode_length in Hd. lia.
Qed.

Lemma remove_control_characters_value_error_witness :
  (0 < 700)%nat
  ∧ (640 < length (list_byte_of_string ("&#" +:+ replicate_char 701 "7")))%nat
  ∧ (700 < length (list_byte_of_string ("&#" +:+ replicate_char 701 "7")))%nat.
Proof.
  apply (remove_control_characters_value_error 700
           (list_byte_of_string ("&#" +:+ replicate_char 701 "7"))).
  vm_compute. reflexivity.
Defined.

(** * The plain text as a function of the tree *)

Section PlainText.
Import Str StrFacts.

Variable document : node.

Lemma visit_text_eq n :
  visit_text n
  = lead n +:+ own_text n +:+ visit_texts (children n) +:+ trail n +:+ tail_text n.
Proof. by destruct n. Qed.

Lemma walk_text :
  (∀ e pid i st anns txt st',
     getWordStandoff document e pid i st = Ok (anns, txt, st') →
     txt = visit_text e)
  ∧ (∀ eid cs j st kids ktxt st2,
       children_loop document eid cs j ([], "") st = Ok (kids, ktxt, st2) →
       ktxt = visit_texts cs).
Proof.
  apply (walk_ind document
           (λ e _ _ _ _ txt _, txt = visit_text e)
           (λ _ cs _ _ _ ktxt _, ktxt = visit_texts cs)).
  - done.
  - intros eid c cs j st kids ktxt st2 Hr _ IH. cbn. by rewrite Hr, app_nil_l.
  - intros eid c cs j st a1 t1 st1 a2 t2 st2 Hr _ Hc _ IH. cbn.
    by rewrite Hr, Hc, IH.
  - intros e pid i st wpp own fl1 kids ktxt st2 tl fl3 _ _ st1 _ IH _.
    by rewrite visit_text_eq, IH.
Qed.

Lemma document_loop_text cs :
  ∀ j A T st A' T' st',
    document_loop document cs j (A, T) st = Ok (A', T', st') →
    T' = T +:+ document_text cs.
Proof.
  induction cs as [|c cs IH]; intros j A T st A' T' st'.
  - rewrite document_loop_nil. intros [= <- <- <-]. by rewrite app_nil_r.
  - rewrite document_loop_cons. cbn [document_text].
    destruct (rendered c); [|by rewrite app_nil_l; apply IH].
    destruct (getWordStandoff document c [] j st) as [[[a1 t1] st1]|] eqn:E; [|done].
    cbn [bind fst snd andb].
    pose proof (proj1 walk_text _ _ _ _ _ _ _ E) as ->.
    destruct a1 as [|a a1].
    + destruct (has_word c) eqn:Hw.
      * by destruct (proj1 (walk_has_word document) _ _ _ _ _ _ _ E Hw).
      * rewrite app_nil_l. apply IH.
    + destruct (has_word c) eqn:Hw.
      * intros H%IH. by rewrite H, app_assoc.
      * by pose proof (proj1 (walk_no_word document) _ _ _ _ _ _ _ E Hw).
Qed.

Lemma document_raw_text fl raw txt fl' :
  document_raw document fl = Ok (raw, txt, fl') →
  txt = document_text (children document).
Proof.
  unfold document_raw. cbn zeta.
  destruct (document_loop _ _ _ _ _) as [[[A T] st']|] eqn:E; [|done].
  cbn. intros [= <- <- <-].
  apply document_loop_text in E. by rewrite E.
Qed.

End PlainText.

(** X16: the plain text of a document is a function of the tree alone:
    the texts of the rendered top-level elements that hold a word, each
    the text of the element between the spaces of a block, with the texts
    of its rendered children inside and its tail after.  Neither the
    flag nor the positions change it. *)
Theorem document_plain_text document fl raw txt fl' :
  document_raw document fl = Ok (raw, txt, fl') →
  txt = document_text (children document).
Proof. apply document_raw_text. Qed.

Lemma document_plain_text_witness :
  " a  b " = document_text (children example_dropped_block).
Proof.
  apply (document_plain_text example_dropped_block None
           [Annotation false [0%nat] "p[1]" 0 0; Annotation false [2%nat] "p[2]" 0 0]
           " a  b " (Some true)).
  vm_compute. reflexivity.
Defined.

(** X17: the plain text that the program prints for a record is that
    function of the tree of the record: it does not depend on the records
    before it. *)
Theorem main_loop_texts documents fl out e :
  main_loop documents fl = (out, e) →
  out.*2 = (λ d, document_text (children d)) <$> take (length out) documents.
Proof.
  revert fl out e. induction documents as [|d ds IH]; intros fl out e.
  - cbn. by intros [= <- <-].
  - cbn [main_loop].
    destruct (getDocumentStandoff d fl) as [[[g t] fl1]|x] eqn:E.
    + destruct (main_loop ds fl1) as [out' e'] eqn:E'. intros [= <- <-].
      apply getDocumentStandoff_Ok in E as (raw & Hraw & _).
      apply document_raw_text in Hraw as ->.
      cbn. f_equal. by eapply IH.
    + by intros [= <- <-].
Qed.

Lemma main_loop_texts_witness :
  [([ "b:0-0" ], "x"); ([ "+b:0-0" ], "x")].*2
  = (λ d, document_text (children d))
      <$> take (length [([ "b:0-0" ], "x"); ([ "+b:0-0" ], "x")])
            [root_of [elem "b" (Some "x") [] None];
             root_of [elem "b" (Some "x") [] None]].
Proof.
  apply (main_loop_texts
           [root_of [elem "b" (Some "x") [] None];
            root_of [elem "b" (Some "x") [] None]] (Some true) _ None).
  vm_compute. reflexivity.
Defined.

(** X18: every annotation of a document names its node by the path
    that [getelementpath] gives for it, and that node is in the tree. *)
Theorem annotations_paths document fl raw txt fl' :
  document_raw document fl = Ok (raw, txt, fl') →
  Forall (λ a, path a = getelementpath document (charged a)
               ∧ is_Some (lookup_node document (charged a))) raw.
Proof.
  intros H. pose proof (document_raw_paths _ _ _ _ _ H) as Hp.
  apply document_raw_children in H as (ktxt & st' & H & _).
  pose proof (proj2 (walk_addresses document) _ _ _ _ _ _ _ H document []) as HS.
  apply scan_pieces in HS; [|done|done|done|exact singleton_root].
  apply Forall_forall. intros a Ha.
  eapply Forall_forall in HS as (w & Hne & _ & Hres & _); [|exact Ha].
  eapply Forall_forall in Hp; [|exact Ha]. split; [done|].
  unfold resolve, charged_text in Hres.
  destruct (lookup_node document (charged a)); [done|].
  exfalso. apply Hne. rewrite <- Hres. unfold Str.slice.
  by destruct (Z.to_nat (start a)), (Z.to_nat (stop a - start a + 1)).
Qed.

Lemma annotations_paths_witness :
  Forall (λ a, path a = getelementpath example_A (charged a)
               ∧ is_Some (lookup_node example_A (charged a)))
    [Annotation false [0%nat] "p" 0 4; Annotation true [0%nat; 0%nat] "p/b" 0 4].
Proof.
  apply (annotations_paths example_A None _ " Helloworld " (Some true)).
  reflexivity.
Defined.
